(** * QBX refinement: the criteria checkers and the two refinement loops

    A shallow embedding of [pytential/qbx/refinement.py]:

    - the loopy kernel [element_prop_threshold_checker] and the two area-query
      kernels (Condition 1, [EXPANSION_DISK_UNDISTURBED_BY_SOURCES_CHECKER];
      Condition 2, [SUFFICIENT_SOURCE_QUADRATURE_RESOLUTION_CHECKER]) as
      state-passing functions over the pair (refine flags, "found" scalar);
    - the wrangler methods built on them;
    - the drivers [refine_qbx_stage1] and [refine_qbx_stage2] as a step
      function on the loop variables, iterated with fuel, plus a proof that
      the fuel handed out by the entry points is always enough.

    Conventions.  A [coord_t] value is the rational ([Q]) that the
    floating-point number denotes.  Comparisons of such values are exact;
    arithmetic on them is the device's and rounds: the one place where a
    kernel of this file computes with coordinates, the product
    [(1-expansion_disturbance_tolerance) * center_danger_zone_radii[icenter]]
    of Condition 1, goes through the device's subtraction and multiplication
    ([coord_sub], [coord_mul]), which are taken from outside like
    [distance].  The [int] flag arrays are [list Z]; array indices are
    [nat]; Python [int] parameters that may be negative ([maxiter], the
    number of forced rounds) are [Z].
    Writes through an index outside the array are undefined in the kernels;
    here such a write leaves the array as it is.

    Left out: the [debug] argument, which only drives log output, and the
    lookup of the discretization in [places] by [source_name]; the drivers
    here take the discretization itself.  The logging branch of the three
    checks is modelled on its own (the [_debug] variants), and of
    [_visualize_refinement] the two exits that raise.  Calls that reach outside (tree
    build, checker calls, visualization, refinement, the warning) are
    recorded in a trace. *)

From Stdlib Require Import ZArith QArith Qabs Qround Qpower String List Lia Lqa.
From stdpp Require Import base tactics option list.

Local Open Scope Z_scope.

(** ** Comparisons on coordinates *)

(** [a > b] on [coord_t]. *)
Definition Qgt_bool (a b : Q) : bool := negb (Qle_bool a b).

(** [a <= b] on [coord_t]. *)
Definition Qleb (a b : Q) : bool := Qle_bool a b.

(** ** Binary floating point *)

Module Binary64.

(** The arithmetic of the concrete worlds: IEEE 754 binary floating point,
    round to nearest, ties to even, on the rationals that the numbers
    denote.  The exponent range is not bounded (no overflow, no subnormal
    numbers). *)

Definition pow2 (e : Z) : Q := Qpower 2 e.

(** The nearest integer, the even one of two that are equally near. *)
Definition round_half_even (q : Q) : Z :=
  let f := Qfloor q in
  match (q - inject_Z f ?= 1 # 2)%Q with
  | Lt => f
  | Eq => if Z.even f then f else f + 1
  | Gt => f + 1
  end.

(** For [0 < q], the exponent [e] with [2^e <= q < 2^(e+1)]. *)
Definition ilog2 (q : Q) : Z :=
  let e0 := Z.log2 (Qnum q) - Z.log2 (Z.pos (Qden q)) in
  if Qle_bool (pow2 e0) q then e0 else e0 - 1.

(** [0 < q] rounded to [prec] significant bits. *)
Definition round_pos (prec : Z) (q : Q) : Q :=
  let e := ilog2 q - (prec - 1) in
  Qred (inject_Z (round_half_even (q / pow2 e)) * pow2 e).

Definition round (prec : Z) (q : Q) : Q :=
  match (q ?= 0)%Q with
  | Eq => 0%Q
  | Gt => round_pos prec q
  | Lt => (- round_pos prec (- q))%Q
  end.

(** [double]: 53 significant bits. *)
Definition rnd : Q -> Q := round 53.

Definition sub (a b : Q) : Q := rnd (a - b).
Definition mul (a b : Q) : Q := rnd (a * b).

End Binary64.

(** The Python literal [0.025], the default of
    [expansion_disturbance_tolerance] in both drivers: the binary64 number
    nearest to 1/40, which is a little above it. *)
Definition default_expansion_disturbance_tolerance : Q :=
  Eval vm_compute in Binary64.rnd (1 # 40).

(** ** The refine-flag store shared by the kernels

    Every kernel receives the device array [refine_flags] and a scalar
    ("refine_flags_updated" or "found_panel_to_refine") and writes both in
    place. *)

Record KernelState := mkKernelState {
  panel_refine_flags : list Z;
  found_panel_to_refine : Z
}.

(** The two stores of the kernels' "hit" branch:
    [panel_refine_flags[panel] = 1; *found_panel_to_refine = 1;] *)
Definition mark_panel (panel : nat) (st : KernelState) : KernelState :=
  mkKernelState (<[panel := 1]> (panel_refine_flags st)) 1.

(** ** Condition 3: the threshold kernel *)

Module Threshold.

(** [over_threshold = element_property[ielement] > threshold] *)
Definition over_threshold (element_property : list Q) (threshold : Q)
    (ielement : nat) : bool :=
  match element_property !! ielement with
  | Some p => Qgt_bool p threshold
  | None => false
  end.

(** One instance of the kernel body. *)
Definition body (element_property : list Q) (threshold : Q)
    (st : KernelState) (ielement : nat) : KernelState :=
  if over_threshold element_property threshold ielement
  then mark_panel ielement st
  else st.

(** The body run over a given schedule of element indices. *)
Definition run_schedule (element_property : list Q) (threshold : Q)
    (schedule : list nat) (st : KernelState) : KernelState :=
  foldl (body element_property threshold) st schedule.

(** [element_prop_threshold_checker]: the domain is
    [0 <= ielement < nelements], with [nelements] the length of the
    property array. *)
Definition element_prop_threshold_checker (element_property : list Q)
    (threshold : Q) (refine_flags : list Z) (refine_flags_updated : Z)
    : KernelState :=
  run_schedule element_property threshold
    (seq 0 (length element_property))
    (mkKernelState refine_flags refine_flags_updated).

(** [RefinerWrangler.check_element_prop_threshold]: the kernel is started
    with [refine_flags_updated = 0]; the result is the flag array as the
    kernel left it and [refine_flags_updated == 1]. *)
Definition check_element_prop_threshold (element_property : list Q)
    (threshold : Q) (refine_flags : list Z) : list Z * bool :=
  let out := element_prop_threshold_checker element_property threshold
               refine_flags 0 in
  (panel_refine_flags out, found_panel_to_refine out =? 1).

End Threshold.

(** ** The spatial index as the area-query kernels read it *)

(** [coord_vec_t]: one coordinate per ambient dimension. *)
Definition coord_vec := list Q.

#[global] Instance Q_inhabited : Inhabited Q := populate 0%Q.

(** The fields of the tree that the wrangler hands to the kernels. *)
Record Tree := mkTree {
  box_to_qbx_source_starts : list nat;
  box_to_qbx_source_lists : list nat;
  box_to_qbx_center_starts : list nat;
  box_to_qbx_center_lists : list nat;
  qbx_panel_to_source_starts : list nat;
  qbx_panel_to_center_starts : list nat;
  nqbxpanels : nat;
  nqbxsources : nat;
  nqbxcenters : nat
}.

(** What the kernels take from outside this file: the arithmetic of
    [coord_t] on the device ([coord_sub a b] is the value the device computes
    for [a - b], [coord_mul a b] the one it computes for [a * b], each
    rounded to [coord_t]), the [distance] function
    and the particle loads of the tree preamble
    ([load_particle(INDEX_FOR_CENTER_PARTICLE(i))],
    [load_particle(INDEX_FOR_SOURCE_PARTICLE(i))]), the inline binary search
    [bsearch(starts, len, val)], and the area query itself, which for a ball
    yields the leaf boxes on which [leaf_found_op] is run. *)
Record TreeCode (PeerLists : Type) := mkTreeCode {
  coord_sub : Q -> Q -> Q;
  coord_mul : Q -> Q -> Q;
  distance : coord_vec -> coord_vec -> Q;
  load_center_particle : Tree -> nat -> coord_vec;
  load_source_particle : Tree -> nat -> coord_vec;
  bsearch : list nat -> nat -> nat -> nat;
  leaves_in_ball : Tree -> PeerLists -> coord_vec -> Q -> list nat
}.
Arguments coord_sub {PeerLists} _ _ _.
Arguments coord_mul {PeerLists} _ _ _.
Arguments distance {PeerLists} _ _ _.
Arguments load_center_particle {PeerLists} _ _ _.
Arguments load_source_particle {PeerLists} _ _ _.
Arguments bsearch {PeerLists} _ _ _ _.
Arguments leaves_in_ball {PeerLists} _ _ _ _ _.

(** The index range [starts[box] .. starts[box + 1] - 1] of a leaf loop. *)
Definition box_range (starts : list nat) (leaf_box_id : nat) : list nat :=
  let lo := starts !!! leaf_box_id in
  let hi := starts !!! (leaf_box_id + 1)%nat in
  seq lo (hi - lo).

(** ** Condition 1: expansion disk undisturbed by sources *)

Module Condition1.
Section Kernel.
Context {PeerLists : Type} (C : TreeCode PeerLists).
Variables (tree : Tree) (peer_lists : PeerLists).
Variable center_danger_zone_radii : list Q.
Variable expansion_disturbance_tolerance : Q.

  (** [(1-expansion_disturbance_tolerance) * center_danger_zone_radii[icenter]]
      as the kernel evaluates it: the difference is formed in [coord_t],
      then the product. *)
Definition scaled_radius (icenter : nat) : Q :=
    coord_mul C (coord_sub C 1%Q expansion_disturbance_tolerance)
      (center_danger_zone_radii !!! icenter).

Definition ball_center (icenter : nat) : coord_vec :=
    load_center_particle C tree icenter.

Definition ball_radius (icenter : nat) : Q := scaled_radius icenter.

Definition center_panel (icenter : nat) : nat :=
    bsearch C (qbx_panel_to_center_starts tree) (nqbxpanels tree + 1) icenter.

  (** [is_close] for the source found at position [source_idx] of
      [box_to_source_lists]. *)
Definition is_close (icenter source_idx : nat) : bool :=
    let source := box_to_qbx_source_lists tree !!! source_idx in
    let source_coords := load_source_particle C tree source in
    Qleb (distance C (ball_center icenter) source_coords)
         (scaled_radius icenter).

  (** The [for] loop of [leaf_found_op]; the hit branch ends it ([break]). *)
Fixpoint leaf_loop (icenter : nat) (source_idxs : list nat)
      (st : KernelState) : KernelState :=
    match source_idxs with
    | [] => st
    | source_idx :: rest =>
        if is_close icenter source_idx
        then mark_panel (center_panel icenter) st
        else leaf_loop icenter rest st
    end.

Definition leaf_found_op (icenter leaf_box_id : nat)
      (st : KernelState) : KernelState :=
    leaf_loop icenter
      (box_range (box_to_qbx_source_starts tree) leaf_box_id) st.

  (** The leaf boxes the area query visits for center [icenter]. *)
Definition candidate_boxes (icenter : nat) : list nat :=
    leaves_in_ball C tree peer_lists (ball_center icenter)
      (ball_radius icenter).

  (** One work item [i = icenter]. *)
Definition work_item (st : KernelState) (icenter : nat) : KernelState :=
    foldl (fun st leaf => leaf_found_op icenter leaf st) st
      (candidate_boxes icenter).

Definition run_schedule (schedule : list nat) (st : KernelState)
      : KernelState :=
    foldl work_item st schedule.

  (** The kernel over [range=slice(tree.nqbxcenters)]. *)
Definition check_center_closest_to_orig_panel (refine_flags : list Z)
      (found : Z) : KernelState :=
    run_schedule (seq 0 (nqbxcenters tree))
      (mkKernelState refine_flags found).

  (** Positions in [box_to_source_lists] that the work item of [icenter]
      can look at. *)
Definition candidate_source_idxs (icenter : nat) : list nat :=
    concat (map (box_range (box_to_qbx_source_starts tree))
                (candidate_boxes icenter)).

(** Some source that the work item of [icenter] looks at is close. *)
Definition disturbed (icenter : nat) : bool :=
  existsb (is_close icenter) (candidate_source_idxs icenter).
End Kernel.
End Condition1.

(** ** Condition 2: sufficient source quadrature resolution *)

Module Condition2.
Section Kernel.
Context {PeerLists : Type} (C : TreeCode PeerLists).
Variables (tree : Tree) (peer_lists : PeerLists).
Variable source_danger_zone_radii_by_panel : list Q.

  (** Work item [i] is a source; its panel is found by binary search. *)
Definition my_panel (i : nat) : nat :=
    bsearch C (qbx_panel_to_source_starts tree) (nqbxpanels tree + 1) i.

Definition ball_center (i : nat) : coord_vec :=
    load_source_particle C tree i.

Definition ball_radius (i : nat) : Q :=
    source_danger_zone_radii_by_panel !!! my_panel i.

Definition is_close (i center_idx : nat) : bool :=
    let center := box_to_qbx_center_lists tree !!! center_idx in
    let center_coords := load_center_particle C tree center in
    Qleb (distance C (ball_center i) center_coords)
         (source_danger_zone_radii_by_panel !!! my_panel i).

Fixpoint leaf_loop (i : nat) (center_idxs : list nat)
      (st : KernelState) : KernelState :=
    match center_idxs with
    | [] => st
    | center_idx :: rest =>
        if is_close i center_idx
        then mark_panel (my_panel i) st
        else leaf_loop i rest st
    end.

Definition leaf_found_op (i leaf_box_id : nat)
      (st : KernelState) : KernelState :=
    leaf_loop i (box_range (box_to_qbx_center_starts tree) leaf_box_id) st.

Definition candidate_boxes (i : nat) : list nat :=
    leaves_in_ball C tree peer_lists (ball_center i) (ball_radius i).

Definition work_item (st : KernelState) (i : nat) : KernelState :=
    foldl (fun st leaf => leaf_found_op i leaf st) st (candidate_boxes i).

Definition run_schedule (schedule : list nat) (st : KernelState)
      : KernelState :=
    foldl work_item st schedule.

  (** The kernel over [range=slice(tree.nqbxsources)]. *)
Definition check_source_quadrature_resolution (refine_flags : list Z)
      (found : Z) : KernelState :=
    run_schedule (seq 0 (nqbxsources tree))
      (mkKernelState refine_flags found).

Definition candidate_center_idxs (i : nat) : list nat :=
    concat (map (box_range (box_to_qbx_center_starts tree))
                (candidate_boxes i)).

(** Some center that the work item of source [i] looks at is close. *)
Definition under_resolved (i : nat) : bool :=
  existsb (is_close i) (candidate_center_idxs i).
End Kernel.
End Condition2.

(** ** The collaborators of the wrangler and of the drivers

    Mesh refinement, discretization and connection construction, the symbolic
    evaluation of geometric quantities and the tree build are outside this
    file; the drivers only call them. *)

Record Collaborators (Mesh Discr Conn Refiner PeerLists : Type) :=
  mkCollaborators {
  (* meshmode *)
  mesh : Discr -> Mesh;
  nelements : Mesh -> nat;
  to_discr : Conn -> Discr;
  RefinerWithoutAdjacency : Mesh -> Refiner;
  refiner_refine : Refiner -> list bool -> Refiner;
  make_refinement_connection : Refiner -> Discr -> Conn;
  quad_discretization : Mesh -> Discr;
  (* bound symbolic expressions, evaluated on a discretization *)
  quad_resolution : Discr -> list Q;
  scaled_max_curv : Discr -> list Q;
  expansion_radii : Discr -> list Q;
  source_danger_zone_radii : Discr -> list Q;
  (* the tree wrangler: stage 1 places hold the current stage-1
     discretization; stage 2 places hold the stage-1, the current stage-2
     and the stage-2 quadrature discretization *)
  build_tree_stage1 : Discr -> Tree;
  build_tree_stage2 : Discr -> Discr -> Discr -> Tree;
  find_peer_lists : Tree -> PeerLists;
  tree_code : TreeCode PeerLists
}.
Arguments mesh {_ _ _ _ _} _ _.
Arguments nelements {_ _ _ _ _} _ _.
Arguments to_discr {_ _ _ _ _} _ _.
Arguments RefinerWithoutAdjacency {_ _ _ _ _} _ _.
Arguments refiner_refine {_ _ _ _ _} _ _ _.
Arguments make_refinement_connection {_ _ _ _ _} _ _ _.
Arguments quad_discretization {_ _ _ _ _} _ _.
Arguments quad_resolution {_ _ _ _ _} _ _.
Arguments scaled_max_curv {_ _ _ _ _} _ _.
Arguments expansion_radii {_ _ _ _ _} _ _.
Arguments source_danger_zone_radii {_ _ _ _ _} _ _.
Arguments build_tree_stage1 {_ _ _ _ _} _ _.
Arguments build_tree_stage2 {_ _ _ _ _} _ _ _ _.
Arguments find_peer_lists {_ _ _ _ _} _ _.
Arguments tree_code {_ _ _ _ _} _.

(** What a driver does to the outside, in program order. *)
Inductive Event :=
| EvCheckThreshold (criterion : string)
| EvBuildTree
| EvFindPeerLists
| EvCheckExpansionDisks
| EvMakeQuadStage2Discr
| EvCheckQuadResolution
| EvVisualize (niter : Z) (stage_nr : Z) (stage_name : string)
    (flags : list Z)
| EvRefine (flags : list bool)
| EvWarn (violated_criteria : list string) (tolerance : Q).

(** [ChainedDiscretizationConnection(connections, from_discr=...)] *)
Record ChainedDiscretizationConnection (Discr Conn : Type) := mkChained {
  chained_connections : list Conn;
  from_discr : Discr
}.
Arguments mkChained {Discr Conn} _ _.
Arguments chained_connections {Discr Conn} _.
Arguments from_discr {Discr Conn} _.

(** [refine_flags.astype(np.bool)] *)
Definition astype_bool (refine_flags : list Z) : list bool :=
  map (fun z => negb (z =? 0)) refine_flags.

(** [" and ".join(iter_violated_criteria)] *)
Definition join_and (iter_violated_criteria : list string) : string :=
  String.concat " and " iter_violated_criteria.

Definition is_event_refine (e : Event) : bool :=
  match e with EvRefine _ => true | _ => false end.

Definition is_event_warn (e : Event) : bool :=
  match e with EvWarn _ _ => true | _ => false end.

(** A call of a criterion checker. *)
Definition is_event_check (e : Event) : bool :=
  match e with
  | EvCheckThreshold _ | EvCheckExpansionDisks | EvCheckQuadResolution => true
  | _ => false
  end.

Definition is_event_build_tree (e : Event) : bool :=
  match e with EvBuildTree => true | _ => false end.

Definition is_event_check_disks (e : Event) : bool :=
  match e with EvCheckExpansionDisks => true | _ => false end.

Definition is_event_check_threshold (e : Event) : bool :=
  match e with EvCheckThreshold _ => true | _ => false end.

Definition count_events (p : Event -> bool) (trace : list Event) : nat :=
  length (List.filter p trace).

(** ** The wrangler *)

(** The flag argument of [RefinerWrangler.refine]: the device array filled by
    the checkers, or a host array of booleans. *)
Inductive FlagArray :=
| DeviceInt32 (a : list Z)
| HostBool (a : list bool).

(** [refine_flags.get(queue)] when on the device, then [astype(np.bool)]. *)
Definition flags_astype_bool (refine_flags : FlagArray) : list bool :=
  match refine_flags with
  | DeviceInt32 a => astype_bool a
  | HostBool a => a
  end.

(** Loop-carried variables of both drivers, with the record of what the
    driver did so far. [cur_discr] is [stage1_density_discr] in stage 1 and
    [stage2_density_discr] in stage 2. *)
Record LoopState (Discr Conn Refiner : Type) := mkLoop {
  connections : list Conn;
  violated_criteria : list string;
  iter_violated_criteria : list string;
  niter : Z;
  cur_discr : Discr;
  cur_refiner : Refiner;
  trace : list Event
}.
Arguments mkLoop {Discr Conn Refiner} _ _ _ _ _ _ _.
Arguments connections {Discr Conn Refiner} _.
Arguments violated_criteria {Discr Conn Refiner} _.
Arguments iter_violated_criteria {Discr Conn Refiner} _.
Arguments niter {Discr Conn Refiner} _.
Arguments cur_discr {Discr Conn Refiner} _.
Arguments cur_refiner {Discr Conn Refiner} _.
Arguments trace {Discr Conn Refiner} _.

(** Variables of one pass: the criteria found violated, the flag array, and
    the calls made. *)
Record IterState := mkIter {
  it_violated : list string;
  it_flags : list Z;
  it_events : list Event
}.

Section Wrangler.
Context {Mesh Discr Conn Refiner PeerLists : Type}.
Context (E : Collaborators Mesh Discr Conn Refiner PeerLists).

(** [cl.array.zeros(queue, density_discr.mesh.nelements, np.int32)] *)
Definition make_empty_refine_flags (density_discr : Discr) : list Z :=
  replicate (nelements E (mesh E density_discr)) 0.

Definition check_expansion_disks_undisturbed_by_sources
    (stage1_density_discr : Discr) (tree : Tree) (peer_lists : PeerLists)
    (expansion_disturbance_tolerance : Q) (refine_flags : list Z)
    : list Z * bool :=
  let center_danger_zone_radii := expansion_radii E stage1_density_discr in
  let out := Condition1.check_center_closest_to_orig_panel (tree_code E)
               tree peer_lists center_danger_zone_radii
               expansion_disturbance_tolerance refine_flags 0 in
  (panel_refine_flags out, found_panel_to_refine out =? 1).

Definition check_sufficient_source_quadrature_resolution
    (stage2_density_discr : Discr) (tree : Tree) (peer_lists : PeerLists)
    (refine_flags : list Z) : list Z * bool :=
  let source_danger_zone_radii_by_panel :=
    source_danger_zone_radii E stage2_density_discr in
  let out := Condition2.check_source_quadrature_resolution (tree_code E)
               tree peer_lists source_danger_zone_radii_by_panel
               refine_flags 0 in
  (panel_refine_flags out, found_panel_to_refine out =? 1).

(** [RefinerWrangler.refine]: the refiner is updated in place and the
    connection is built from the updated refiner. *)
Definition wrangler_refine (density_discr : Discr) (refiner : Refiner)
    (refine_flags : FlagArray) : Refiner * Conn :=
  let refiner' := refiner_refine E refiner (flags_astype_bool refine_flags) in
  (refiner', make_refinement_connection E refiner' density_discr).

(** [_make_quad_stage2_discr] *)
Definition _make_quad_stage2_discr (stage2_density_discr : Discr) : Discr :=
  quad_discretization E (mesh E stage2_density_discr).

(** [if violates: iter_violated_criteria.append(criterion);
     if visualize: _visualize_refinement(..., niter, stage_nr, stage_name,
     refine_flags)] *)
Definition record_violation (visualize : bool) (niter stage_nr : Z)
    (criterion stage_name : string) (violates : bool) (it : IterState)
    : IterState :=
  if violates
  then mkIter (it_violated it ++ [criterion]) (it_flags it)
         (it_events it ++
            (if visualize
             then [EvVisualize niter stage_nr stage_name (it_flags it)]
             else []))
  else it.

(** The tail shared by both loops:
    [if iter_violated_criteria: violated_criteria.append(...);
     conn = wrangler.refine(...); discr = conn.to_discr;
     connections.append(conn)]. [st] already has [iter_violated_criteria]
    emptied and [niter] advanced. *)
Definition apply_iteration (it : IterState)
    (st : LoopState Discr Conn Refiner) : LoopState Discr Conn Refiner :=
  match it_violated it with
  | [] =>
      mkLoop (connections st) (violated_criteria st) [] (niter st)
        (cur_discr st) (cur_refiner st) (trace st ++ it_events it)
  | _ :: _ =>
      let '(refiner', conn) :=
        wrangler_refine (cur_discr st) (cur_refiner st)
          (DeviceInt32 (it_flags it)) in
      mkLoop (connections st ++ [conn])
        (violated_criteria st ++ [join_and (it_violated it)])
        (it_violated it) (niter st) (to_discr E conn) refiner'
        (trace st ++ it_events it ++ [EvRefine (astype_bool (it_flags it))])
  end.

(** [niter > maxiter]: [_warn_max_iterations(violated_criteria,
    expansion_disturbance_tolerance); break] *)
Definition warn_and_break (tolerance : Q)
    (st : LoopState Discr Conn Refiner) : LoopState Discr Conn Refiner :=
  mkLoop (connections st) (violated_criteria st)
    (iter_violated_criteria st) (niter st) (cur_discr st) (cur_refiner st)
    (trace st ++ [EvWarn (violated_criteria st) tolerance]).

(** The head of a pass: [iter_violated_criteria = []; niter += 1]. *)
Definition begin_pass (st : LoopState Discr Conn Refiner)
    : LoopState Discr Conn Refiner :=
  mkLoop (connections st) (violated_criteria st) [] (niter st + 1)
    (cur_discr st) (cur_refiner st) (trace st).

(** [while iter_violated_criteria: ...] around a pass body [body]. *)
Fixpoint while_violated
    (body : LoopState Discr Conn Refiner -> LoopState Discr Conn Refiner)
    (maxiter : Z) (tolerance : Q) (fuel : nat)
    (st : LoopState Discr Conn Refiner)
    : option (LoopState Discr Conn Refiner) :=
  match iter_violated_criteria st with
  | [] => Some st
  | _ :: _ =>
      match fuel with
      | O => None
      | S fuel' =>
          let st1 := begin_pass st in
          if niter st1 >? maxiter
          then Some (warn_and_break tolerance st1)
          else while_violated body maxiter tolerance fuel' (body st1)
      end
  end.

Definition initial_state (density_discr : Discr) (refiner : Refiner)
    : LoopState Discr Conn Refiner :=
  mkLoop [] [] ["start"%string] 0 density_discr refiner [].

End Wrangler.

(** ** Stage 1 driver *)

Module Stage1.

(** Keyword arguments of [refine_qbx_stage1]; [None] selects the default. *)
Record Args (Refiner : Type) := mkArgs {
  kernel_length_scale : option Q;
  scaled_max_curvature_threshold : option Q;
  expansion_disturbance_tolerance : option Q;
  maxiter : option Z;
  refiner : option Refiner;
  visualize : bool
}.
Arguments mkArgs {Refiner} _ _ _ _ _ _.
Arguments kernel_length_scale {Refiner} _.
Arguments scaled_max_curvature_threshold {Refiner} _.
Arguments expansion_disturbance_tolerance {Refiner} _.
Arguments maxiter {Refiner} _.
Arguments refiner {Refiner} _.
Arguments visualize {Refiner} _.

Section Driver.
Context {Mesh Discr Conn Refiner PeerLists : Type}.
Context (E : Collaborators Mesh Discr Conn Refiner PeerLists).
Variable a : Args Refiner.

Definition the_maxiter : Z := default 10 (maxiter a).

Definition the_tolerance : Q :=
  default default_expansion_disturbance_tolerance
    (expansion_disturbance_tolerance a).

(** One call of [check_element_prop_threshold] with its bookkeeping. *)
Definition threshold_step (niter : Z) (element_property : list Q)
    (threshold : Q) (criterion stage_name : string) (it : IterState)
    : IterState :=
  let '(flags, violates) :=
    Threshold.check_element_prop_threshold element_property threshold
      (it_flags it) in
  record_violation (visualize a) niter 1 criterion stage_name violates
    (mkIter (it_violated it) flags
       (it_events it ++ [EvCheckThreshold criterion])).

(** [if kernel_length_scale is not None: ...] *)
Definition kernel_length_scale_step (niter : Z) (d : Discr)
    (it : IterState) : IterState :=
  match kernel_length_scale a with
  | Some kls =>
      threshold_step niter (quad_resolution E d) kls
        "kernel length scale" "kernel-length-scale" it
  | None => it
  end.

(** [if scaled_max_curvature_threshold is not None: ...] *)
Definition curvature_step (niter : Z) (d : Discr) (it : IterState)
    : IterState :=
  match scaled_max_curvature_threshold a with
  | Some thr =>
      threshold_step niter (scaled_max_curv E d) thr
        "curvature" "curvature" it
  | None => it
  end.

(** [if not iter_violated_criteria:] build the tree and run Condition 1. *)
Definition disturbed_expansions_step (niter : Z) (d : Discr)
    (it : IterState) : IterState :=
  match it_violated it with
  | [] =>
      let tree := build_tree_stage1 E d in
      let peer_lists := find_peer_lists E tree in
      let '(flags, has_disturbed_expansions) :=
        check_expansion_disks_undisturbed_by_sources E d tree peer_lists
          the_tolerance (it_flags it) in
      record_violation (visualize a) niter 1
        "disturbed expansions" "disturbed-expansions"
        has_disturbed_expansions
        (mkIter (it_violated it) flags
           (it_events it ++
              [EvBuildTree; EvFindPeerLists; EvCheckExpansionDisks]))
  | _ :: _ => it
  end.

(** The criteria part of a pass on discretization [d]. *)
Definition checks (niter : Z) (d : Discr) : IterState :=
  let it := mkIter [] (make_empty_refine_flags E d) [] in
  let it := kernel_length_scale_step niter d it in
  let it := curvature_step niter d it in
  disturbed_expansions_step niter d it.

(** The pass below the [niter > maxiter] test. *)
Definition body (st : LoopState Discr Conn Refiner)
    : LoopState Discr Conn Refiner :=
  apply_iteration E (checks (niter st) (cur_discr st)) st.

Definition loop (fuel : nat) (st : LoopState Discr Conn Refiner)
    : option (LoopState Discr Conn Refiner) :=
  while_violated body the_maxiter the_tolerance fuel st.

Definition the_refiner (density_discr : Discr) : Refiner :=
  match refiner a with
  | Some r => r
  | None => RefinerWithoutAdjacency E (mesh E density_discr)
  end.

(** The state the [while] loop leaves, with [Z.to_nat maxiter + 1] passes
    allowed. *)
Definition run_loop (density_discr : Discr)
    : option (LoopState Discr Conn Refiner) :=
  loop (S (Z.to_nat the_maxiter))
    (initial_state density_discr (the_refiner density_discr)).

(** [refine_qbx_stage1]: the returned pair, and the calls made. *)
Definition refine_qbx_stage1 (density_discr : Discr)
    : option (Discr * ChainedDiscretizationConnection Discr Conn
              * list Event) :=
  match run_loop density_discr with
  | Some st =>
      Some (cur_discr st, mkChained (connections st) density_discr, trace st)
  | None => None
  end.

End Driver.
End Stage1.

(** ** Stage 2 driver *)

Module Stage2.

(** Keyword arguments of [refine_qbx_stage2]. *)
Record Args (Refiner : Type) := mkArgs {
  expansion_disturbance_tolerance : option Q;
  force_stage2_uniform_refinement_rounds : option Z;
  maxiter : option Z;
  refiner : option Refiner;
  visualize : bool
}.
Arguments mkArgs {Refiner} _ _ _ _ _.
Arguments expansion_disturbance_tolerance {Refiner} _.
Arguments force_stage2_uniform_refinement_rounds {Refiner} _.
Arguments maxiter {Refiner} _.
Arguments refiner {Refiner} _.
Arguments visualize {Refiner} _.

Section Driver.
Context {Mesh Discr Conn Refiner PeerLists : Type}.
Context (E : Collaborators Mesh Discr Conn Refiner PeerLists).
Variable a : Args Refiner.
(** [places.get_discretization(... .to_stage1())] *)
Variable stage1_density_discr : Discr.

Definition the_maxiter : Z := default 10 (maxiter a).

Definition the_tolerance : Q :=
  default default_expansion_disturbance_tolerance
    (expansion_disturbance_tolerance a).

Definition the_rounds : Z :=
  default 0 (force_stage2_uniform_refinement_rounds a).

(** The criteria part of a pass on the stage-2 discretization [d]. *)
Definition checks (niter : Z) (d : Discr) : IterState :=
  let quad_stage2 := _make_quad_stage2_discr E d in
  let tree := build_tree_stage2 E stage1_density_discr d quad_stage2 in
  let peer_lists := find_peer_lists E tree in
  let refine_flags := make_empty_refine_flags E d in
  let '(flags, has_insufficient_quad_resolution) :=
    check_sufficient_source_quadrature_resolution E d tree peer_lists
      refine_flags in
  record_violation (visualize a) niter 2
    "insufficient quadrature resolution" "quad-resolution"
    has_insufficient_quad_resolution
    (mkIter [] flags
       [EvMakeQuadStage2Discr; EvBuildTree; EvFindPeerLists;
        EvCheckQuadResolution]).

Definition body (st : LoopState Discr Conn Refiner)
    : LoopState Discr Conn Refiner :=
  apply_iteration E (checks (niter st) (cur_discr st)) st.

Definition loop (fuel : nat) (st : LoopState Discr Conn Refiner)
    : option (LoopState Discr Conn Refiner) :=
  while_violated body the_maxiter the_tolerance fuel st.

(** One forced round: every element of the current mesh is flagged
    ([np.ones(stage2_density_discr.mesh.nelements, dtype=np.bool)]). *)
Definition uniform_round (st : LoopState Discr Conn Refiner) (round : nat)
    : LoopState Discr Conn Refiner :=
  let flags := replicate (nelements E (mesh E (cur_discr st))) true in
  let '(refiner', conn) :=
    wrangler_refine E (cur_discr st) (cur_refiner st) (HostBool flags) in
  mkLoop (connections st ++ [conn]) (violated_criteria st)
    (iter_violated_criteria st) (niter st) (to_discr E conn) refiner'
    (trace st ++ [EvRefine flags]).

(** [for round in range(force_stage2_uniform_refinement_rounds): ...] *)
Definition uniform_rounds (st : LoopState Discr Conn Refiner)
    : LoopState Discr Conn Refiner :=
  foldl uniform_round st (seq 0 (Z.to_nat the_rounds)).

Definition the_refiner : Refiner :=
  match refiner a with
  | Some r => r
  | None => RefinerWithoutAdjacency E (mesh E stage1_density_discr)
  end.

Definition run_loop : option (LoopState Discr Conn Refiner) :=
  loop (S (Z.to_nat the_maxiter))
    (initial_state stage1_density_discr the_refiner).

(** [refine_qbx_stage2]: the returned pair, and the calls made. *)
Definition refine_qbx_stage2
    : option (Discr * ChainedDiscretizationConnection Discr Conn
              * list Event) :=
  match run_loop with
  | Some st0 =>
      let st := uniform_rounds st0 in
      Some (cur_discr st, mkChained (connections st) stage1_density_discr,
            trace st)
  | None => None
  end.

End Driver.
End Stage2.

(** ** A small concrete world

    A one-dimensional geometry on which the definitions above can be run.
    A discretization is its refinement level [n]; level [n] has [n + 1]
    elements.  There is one expansion center, at the origin, and one source,
    at coordinate 39, both owned by panel 0 and both in the single leaf box 0.
    Radii halve with every level, starting from 40, and the quadrature
    resolution of every element at level [n] is [3 - n].  The device
    computes in binary64. *)

Module Line.

Definition tree : Tree :=
  mkTree [0; 1]%nat [0]%nat [0; 1]%nat [0]%nat [0; 1]%nat [0; 1]%nat
    1%nat 1%nat 1%nat.

(** Largest [i < len] with [starts[i] <= val]. *)
Definition bsearch (starts : list nat) (len val : nat) : nat :=
  (length (filter (fun s => (s <= val)%nat) (take len starts)) - 1)%nat.

Definition code : TreeCode unit :=
  mkTreeCode unit
    Binary64.sub
    Binary64.mul
    (fun x y => Qabs (hd 0%Q x - hd 0%Q y))
    (fun _ _ => [0%Q])
    (fun _ _ => [39%Q])
    bsearch
    (fun _ _ _ _ => [0%nat]).

Definition radius (level : nat) : Q := (40 # Pos.of_nat (2 ^ level))%Q.

Definition world : Collaborators nat nat nat nat unit :=
  mkCollaborators nat nat nat nat unit
    (fun d => d)
    (fun m => S m)
    (fun c => c)
    (fun m => m)
    (fun r _ => S r)
    (fun r _ => r)
    (fun m => m)
    (fun d => replicate (S d) (inject_Z (3 - Z.of_nat d)))
    (fun d => replicate (S d) 0%Q)
    (fun d => [radius d])
    (fun d => [radius d])
    (fun _ => tree)
    (fun _ _ _ => tree)
    (fun _ => tt)
    code.

(** Stage-1 arguments with only [maxiter] given. *)
Definition stage1_args (maxiter : Z) : Stage1.Args nat :=
  Stage1.mkArgs None None None (Some maxiter) None false.

(** Stage-1 arguments with a kernel length scale of 1 and the defaults. *)
Definition stage1_args_kls : Stage1.Args nat :=
  Stage1.mkArgs (Some 1%Q) None None None None false.

(** Stage-1 arguments with a kernel length scale of 1, a curvature
    threshold of -1 and [maxiter]: every element violates both at every
    level below 2. *)
Definition stage1_args_both (maxiter : Z) : Stage1.Args nat :=
  Stage1.mkArgs (Some 1%Q) (Some (-1)%Q) None (Some maxiter) None false.

(** Stage-2 arguments with [maxiter] and the number of forced rounds. *)
Definition stage2_args (maxiter rounds : Z) : Stage2.Args nat :=
  Stage2.mkArgs None (Some rounds) (Some maxiter) None false.

End Line.

(** A second world, with two panels: panel 0 owns center 0 and source 0,
    panel 1 owns center 1 and source 1, and all four particles are in the
    single leaf box 0.  Center 0 is at -1000 and source 0 at -2000; center 1
    is at the origin and source 1 at 39. *)

Module TwoPanels.

Definition tree : Tree :=
  mkTree [0; 2]%nat [0; 1]%nat [0; 2]%nat [0; 1]%nat
    [0; 1; 2]%nat [0; 1; 2]%nat 2%nat 2%nat 2%nat.

Definition code : TreeCode unit :=
  mkTreeCode unit
    Binary64.sub
    Binary64.mul
    (fun x y => Qabs (hd 0%Q x - hd 0%Q y))
    (fun _ icenter => [nth icenter [(-1000)%Q; 0%Q] 0%Q])
    (fun _ source => [nth source [(-2000)%Q; 39%Q] 0%Q])
    Line.bsearch
    (fun _ _ _ _ => [0%nat]).

End TwoPanels.

(** ** Vocabulary of the statements *)



(** The common shape of the three kernels' work items: a test on the work
    item and, on a hit, [mark_panel] of a panel computed from it. *)
Definition mark_if (hit : nat -> bool) (target : nat -> nat)
    (st : KernelState) (i : nat) : KernelState :=
  if hit i then mark_panel (target i) st else st.

(** Panel [p] is the target of a hit of the schedule. *)
Definition marked (hit : nat -> bool) (target : nat -> nat)
    (schedule : list nat) (p : nat) : bool :=
  existsb (fun i => hit i && (target i =? p)%nat) schedule.

(** Entry [e] was 0 before a call and is 1 after it. *)
Definition newly_set (before after : list Z) (e : nat) : Prop :=
  before !! e = Some 0 /\ after !! e = Some 1.

(** Some element of the property array exceeds the threshold. *)
Definition any_over_threshold (element_property : list Q) (threshold : Q)
    : bool :=
  existsb (Threshold.over_threshold element_property threshold)
    (seq 0 (length element_property)).

(** A trace holds a non-convergence warning. *)
Definition warned (trace : list Event) : bool := existsb is_event_warn trace.

(** The discretization at the end of a list of connections that starts at
    [d0]. *)
Definition last_discr {Discr Conn : Type} (to_discr : Conn -> Discr)
    (d0 : Discr) (conns : list Conn) : Discr :=
  match last conns with
  | Some c => to_discr c
  | None => d0
  end.

(** The loop variables after [n] passes of a loop body, none of them cut
    short by the iteration cap. *)
Definition after_passes {Discr Conn Refiner : Type}
    (body : LoopState Discr Conn Refiner -> LoopState Discr Conn Refiner)
    (init : LoopState Discr Conn Refiner) (n : nat)
    : LoopState Discr Conn Refiner :=
  Nat.iter n (fun st => body (begin_pass st)) init.

(** The criteria that pass number [k] (counted from 1) finds violated, as
    the pass leaves them in [iter_violated_criteria]. There is no pass 0. *)
Definition criteria_violated_in_pass {Discr Conn Refiner : Type}
    (body : LoopState Discr Conn Refiner -> LoopState Discr Conn Refiner)
    (init : LoopState Discr Conn Refiner) (k : nat) : list string :=
  match k with
  | O => []
  | S _ => iter_violated_criteria (after_passes body init k)
  end.

(** The [while] loop unrolled over the number of passes the cap still
    allows. *)
Fixpoint unrolled {Discr Conn Refiner : Type}
    (body : LoopState Discr Conn Refiner -> LoopState Discr Conn Refiner)
    (tolerance : Q) (budget : nat) (st : LoopState Discr Conn Refiner)
    : LoopState Discr Conn Refiner :=
  match budget with
  | O => warn_and_break tolerance (begin_pass st)
  | S budget' =>
      let st1 := body (begin_pass st) in
      match iter_violated_criteria st1 with
      | [] => st1
      | _ :: _ => unrolled body tolerance budget' st1
      end
  end.

(** The names the stage-1 loop can record, in the order it records them. *)
Definition stage1_criteria : list string :=
  ["kernel length scale"; "curvature"; "disturbed expansions"]%string.

(** A call of one of the three checkers, with the inputs it reads. *)
Inductive CheckerCall (PeerLists : Type) :=
| CallThreshold (element_property : list Q) (threshold : Q)
| CallExpansionDisks (C : TreeCode PeerLists) (tree : Tree)
    (peer_lists : PeerLists) (center_danger_zone_radii : list Q)
    (expansion_disturbance_tolerance : Q)
| CallQuadResolution (C : TreeCode PeerLists) (tree : Tree)
    (peer_lists : PeerLists) (source_danger_zone_radii_by_panel : list Q).
Arguments CallThreshold {PeerLists} _ _.
Arguments CallExpansionDisks {PeerLists} _ _ _ _ _.
Arguments CallQuadResolution {PeerLists} _ _ _ _.

(** The flag array a checker call leaves behind. *)
Definition run_checker {PeerLists : Type} (refine_flags : list Z)
    (call : CheckerCall PeerLists) : list Z :=
  match call with
  | CallThreshold P T =>
      panel_refine_flags
        (Threshold.element_prop_threshold_checker P T refine_flags 0)
  | CallExpansionDisks C tree peer_lists radii tol =>
      panel_refine_flags
        (Condition1.check_center_closest_to_orig_panel C tree peer_lists
           radii tol refine_flags 0)
  | CallQuadResolution C tree peer_lists radii =>
      panel_refine_flags
        (Condition2.check_source_quadrature_resolution C tree peer_lists
           radii refine_flags 0)
  end.

(** Events of a criteria evaluation: neither a refinement nor a warning. *)
Definition quiet (events : list Event) : Prop :=
  count_events is_event_refine events = 0%nat /\ warned events = false.

(** What every pass of either loop keeps true. *)
Definition loop_invariant {Discr Conn Refiner : Type}
    (to_discr : Conn -> Discr) (d0 : Discr)
    (st : LoopState Discr Conn Refiner) : Prop :=
  length (violated_criteria st) = length (connections st)
  /\ count_events is_event_refine (trace st) = length (connections st)
  /\ warned (trace st) = false
  /\ cur_discr st = last_discr to_discr d0 (connections st).

(** How a capped loop with pass body [body], started from [init], has left
    the loop variables [st]: the refinements applied are the connections
    collected, there are at most [max 0 maxiter] of them, the warning was
    given exactly when all passes the cap allows were used up (which, for a
    cap of at least 1, is when pass number [maxiter] found a criterion
    violated, and always for a cap below 1), and the current discretization
    is the one the last connection leads to. *)
Definition capped_loop_exit {Discr Conn Refiner : Type}
    (to_discr : Conn -> Discr)
    (body : LoopState Discr Conn Refiner -> LoopState Discr Conn Refiner)
    (maxiter : Z) (init st : LoopState Discr Conn Refiner) : Prop :=
  let n := count_events is_event_refine (trace st) in
  n = length (connections st)
  /\ Z.of_nat n <= Z.max 0 maxiter
  /\ (warned (trace st) = true <-> n = Z.to_nat maxiter)
  /\ (1 <= maxiter ->
      (warned (trace st) = true
       <-> criteria_violated_in_pass body init (Z.to_nat maxiter) <> []))
  /\ (maxiter <= 0 -> warned (trace st) = true)
  /\ cur_discr st = last_discr to_discr (cur_discr init) (connections st).

(** How the history of a capped loop relates to its refinements: one entry
    per refinement, entry [k] being the joined criteria of pass [k + 1], and
    any warning carries the whole history and the tolerance. *)
Definition history_per_refinement {Discr Conn Refiner : Type}
    (body : LoopState Discr Conn Refiner -> LoopState Discr Conn Refiner)
    (tolerance : Q) (init st : LoopState Discr Conn Refiner) : Prop :=
  length (violated_criteria st)
  = count_events is_event_refine (trace st)
  /\ (forall k entry,
        violated_criteria st !! k = Some entry ->
        criteria_violated_in_pass body init (S k) <> []
        /\ entry = join_and (criteria_violated_in_pass body init (S k)))
  /\ (forall vc tol',
        In (EvWarn vc tol') (trace st) ->
        vc = violated_criteria st /\ tol' = tolerance).

(** What the three stage-1 checks report on a discretization [d], and what
    the stage-2 check reports. *)
Section Verdicts.
Context {Mesh Discr Conn Refiner PeerLists : Type}.
Context (E : Collaborators Mesh Discr Conn Refiner PeerLists).

Definition violates_kernel_length_scale (a : Stage1.Args Refiner) (d : Discr)
    : bool :=
  match Stage1.kernel_length_scale a with
  | Some kls => any_over_threshold (quad_resolution E d) kls
  | None => false
  end.

Definition violates_scaled_max_curv (a : Stage1.Args Refiner) (d : Discr)
    : bool :=
  match Stage1.scaled_max_curvature_threshold a with
  | Some thr => any_over_threshold (scaled_max_curv E d) thr
  | None => false
  end.

Definition has_disturbed_expansions (a : Stage1.Args Refiner) (d : Discr)
    : bool :=
  let tree := build_tree_stage1 E d in
  existsb
    (Condition1.disturbed (tree_code E) tree (find_peer_lists E tree)
       (expansion_radii E d) (Stage1.the_tolerance a))
    (seq 0 (nqbxcenters tree)).

Definition has_insufficient_quad_resolution (stage1_density_discr d : Discr)
    : bool :=
  let tree :=
    build_tree_stage2 E stage1_density_discr d (_make_quad_stage2_discr E d) in
  existsb
    (Condition2.under_resolved (tree_code E) tree (find_peer_lists E tree)
       (source_danger_zone_radii E d))
    (seq 0 (nqbxsources tree)).

(** The names stage 1 records for [d], in the order of the code. *)
Definition stage1_verdict (a : Stage1.Args Refiner) (d : Discr)
    : list string :=
  let cheap :=
    (if violates_kernel_length_scale a d
     then ["kernel length scale"%string] else [])
    ++ (if violates_scaled_max_curv a d then ["curvature"%string] else []) in
  match cheap with
  | [] =>
      if has_disturbed_expansions a d
      then ["disturbed expansions"%string] else []
  | _ :: _ => cheap
  end.

(** The names stage 2 records for [d]. *)
Definition stage2_verdict (stage1_density_discr d : Discr) : list string :=
  if has_insufficient_quad_resolution stage1_density_discr d
  then ["insufficient quadrature resolution"%string] else [].

End Verdicts.

(** The loop exit as the termination claim words it: at most [maxiter]
    refinements, and a warning exactly when the pass at the bound found a
    criterion violated. *)
Definition claimed_loop_exit {Discr Conn Refiner : Type}
    (body : LoopState Discr Conn Refiner -> LoopState Discr Conn Refiner)
    (maxiter : Z) (init st : LoopState Discr Conn Refiner) : Prop :=
  Z.of_nat (count_events is_event_refine (trace st)) <= maxiter
  /\ (warned (trace st) = true
      <-> criteria_violated_in_pass body init (Z.to_nat maxiter) <> []).

(** ** Vocabulary of the further properties *)

(** The flag arrays handed to the refiner, in the order of the calls. *)
Definition refine_flags_of (trace : list Event) : list (list bool) :=
  flat_map (fun e => match e with EvRefine flags => [flags] | _ => [] end)
    trace.

(** The discretization each connection of a list starts from, when the first
    starts from [d0] and each next one from the target of the one before. *)
Definition connection_sources {Discr Conn : Type} (to_discr : Conn -> Discr)
    (d0 : Discr) (conns : list Conn) : list Discr :=
  take (length conns) (d0 :: map to_discr conns).

Section Replay.
Context {Mesh Discr Conn Refiner PeerLists : Type}.
Context (E : Collaborators Mesh Discr Conn Refiner PeerLists).

(** One more call of [RefinerWrangler.refine] on the connections collected
    so far, the current discretization and the refiner. *)
Definition replay_step (acc : list Conn * Discr * Refiner)
    (flags : list bool) : list Conn * Discr * Refiner :=
  let '(conns, d, r) := acc in
  let '(r', c) := wrangler_refine E d r (HostBool flags) in
  (conns ++ [c], to_discr E c, r').

(** The refiner calls for a list of flag arrays, one after the other. *)
Definition replay (d0 : Discr) (r0 : Refiner) (flagss : list (list bool))
    : list Conn * Discr * Refiner :=
  foldl replay_step ([], d0, r0) flagss.

(** Element [e] exceeds the kernel length scale, when one is configured. *)
Definition over_kernel_length_scale (a : Stage1.Args Refiner) (d : Discr)
    (e : nat) : bool :=
  match Stage1.kernel_length_scale a with
  | Some kls => Threshold.over_threshold (quad_resolution E d) kls e
  | None => false
  end.

(** Element [e] exceeds the curvature threshold, when one is configured. *)
Definition over_scaled_max_curv (a : Stage1.Args Refiner) (d : Discr)
    (e : nat) : bool :=
  match Stage1.scaled_max_curvature_threshold a with
  | Some thr => Threshold.over_threshold (scaled_max_curv E d) thr e
  | None => false
  end.

(** Panel [p] owns a center that the Condition-1 kernel finds disturbed. *)
Definition owns_disturbed_center (a : Stage1.Args Refiner) (d : Discr)
    (p : nat) : bool :=
  let tree := build_tree_stage1 E d in
  marked
    (Condition1.disturbed (tree_code E) tree (find_peer_lists E tree)
       (expansion_radii E d) (Stage1.the_tolerance a))
    (Condition1.center_panel (tree_code E) tree)
    (seq 0 (nqbxcenters tree)) p.

(** Panel [p] owns a source that the Condition-2 kernel finds
    under-resolved. *)
Definition owns_under_resolved_source (stage1_density_discr d : Discr)
    (p : nat) : bool :=
  let tree :=
    build_tree_stage2 E stage1_density_discr d (_make_quad_stage2_discr E d) in
  marked
    (Condition2.under_resolved (tree_code E) tree (find_peer_lists E tree)
       (source_danger_zone_radii E d))
    (Condition2.my_panel (tree_code E) tree)
    (seq 0 (nqbxsources tree)) p.

(** Element [e] is flagged by a stage-1 pass on [d]: by a threshold check,
    or, when the threshold checks found nothing, by Condition 1. *)
Definition stage1_flagged (a : Stage1.Args Refiner) (d : Discr) (e : nat)
    : bool :=
  over_kernel_length_scale a d e
  || over_scaled_max_curv a d e
  || (negb (violates_kernel_length_scale E a d)
      && negb (violates_scaled_max_curv E a d)
      && owns_disturbed_center a d e).

End Replay.

(** ** The debug branch of the wrangler's checks and the visualization *)

(** [cl.array.sum(refine_flags).get()], without wrap-around. *)
Definition npanels_to_refine (refine_flags : list Z) : Z :=
  foldr Z.add 0 refine_flags.

(** The [if debug:] code around a kernel call: the number that
    "refiner: found {} panel(s) to refine" is logged with, if it is
    logged. *)
Definition debug_found_panels (flags_before flags_after : list Z)
    : option Z :=
  let npanels_to_refine_prev := npanels_to_refine flags_before in
  let npanels := npanels_to_refine flags_after in
  if npanels >? npanels_to_refine_prev
  then Some (npanels - npanels_to_refine_prev)
  else None.

(** [check_element_prop_threshold] with [debug=True]: flags, result and the
    number logged. *)
Definition check_element_prop_threshold_debug (element_property : list Q)
    (threshold : Q) (refine_flags : list Z) : list Z * bool * option Z :=
  let r := Threshold.check_element_prop_threshold element_property threshold
             refine_flags in
  (r.1, r.2, debug_found_panels refine_flags r.1).

Section DebugChecks.
Context {Mesh Discr Conn Refiner PeerLists : Type}.
Context (E : Collaborators Mesh Discr Conn Refiner PeerLists).

(** [check_expansion_disks_undisturbed_by_sources] with [debug=True]. *)
Definition check_expansion_disks_undisturbed_by_sources_debug
    (stage1_density_discr : Discr) (tree : Tree) (peer_lists : PeerLists)
    (expansion_disturbance_tolerance : Q) (refine_flags : list Z)
    : list Z * bool * option Z :=
  let r := check_expansion_disks_undisturbed_by_sources E
             stage1_density_discr tree peer_lists
             expansion_disturbance_tolerance refine_flags in
  (r.1, r.2, debug_found_panels refine_flags r.1).

(** [check_sufficient_source_quadrature_resolution] with [debug=True]. *)
Definition check_sufficient_source_quadrature_resolution_debug
    (stage2_density_discr : Discr) (tree : Tree) (peer_lists : PeerLists)
    (refine_flags : list Z) : list Z * bool * option Z :=
  let r := check_sufficient_source_quadrature_resolution E
             stage2_density_discr tree peer_lists refine_flags in
  (r.1, r.2, debug_found_panels refine_flags r.1).

End DebugChecks.

(** The number of entries that are 0 in the first array and 1 in the
    second. *)
Definition count_newly_set (flags_before flags_after : list Z) : nat :=
  length (List.filter (fun ba => (ba.1 =? 0) && (ba.2 =? 1))
            (combine flags_before flags_after)).

(** The exceptions [_visualize_refinement] raises itself. *)
Inductive VisualizeError :=
| ValueError (message : string)
| AssertionError.

(** The two exits of [_visualize_refinement] that end it with an exception
    of its own: the test of [stage_nr] at its top and the assertion that
    there is one flag per mesh element.  What lies between and after them
    (logging, the visualizer, the file written) is not in this file. *)
Definition _visualize_refinement_raises (mesh_nelements : nat) (stage_nr : Z)
    (flags : list Z) : option VisualizeError :=
  if negb ((stage_nr =? 1) || (stage_nr =? 2))
  then Some (ValueError "unexpected stage number")
  else if negb (length flags =? mesh_nelements)%nat
       then Some AssertionError
       else None.

Definition is_event_visualize (e : Event) : bool :=
  match e with EvVisualize _ _ _ _ => true | _ => false end.

(** A visualization call of a pass with number [niter] on a mesh of
    [mesh_nelements] elements in stage [stage_nr] that was asked for and
    goes past both exits. *)
Definition visualize_call_ok (visualize : bool) (niter : Z)
    (mesh_nelements : nat) (stage_nr : Z) (e : Event) : Prop :=
  match e with
  | EvVisualize niter' stage_nr' _ flags =>
      visualize = true /\ niter' = niter /\ stage_nr' = stage_nr
      /\ _visualize_refinement_raises mesh_nelements stage_nr' flags = None
  | _ => True
  end.

(** The link that every step of a driver keeps between the trace and the
    loop variables: the connections, the current discretization and the
    refiner are what the recorded refiner calls produce, and each recorded
    flag array fits the mesh it was applied to. *)
Definition trace_invariant {Mesh Discr Conn Refiner PeerLists : Type}
    (E : Collaborators Mesh Discr Conn Refiner PeerLists)
    (d0 : Discr) (r0 : Refiner) (st : LoopState Discr Conn Refiner) : Prop :=
  replay E d0 r0 (refine_flags_of (trace st))
  = (connections st, cur_discr st, cur_refiner st)
  /\ Forall2 (fun flags d => length flags = nelements E (mesh E d))
       (refine_flags_of (trace st))
       (connection_sources (to_discr E) d0 (connections st))
  /\ cur_discr st = last_discr (to_discr E) d0 (connections st).

(** The passes whose criteria part was run: one per refinement, and one
    more for the pass that found nothing violated when the loop ended
    without the warning. *)
Definition passes_run {Discr Conn Refiner : Type}
    (st : LoopState Discr Conn Refiner) : nat :=
  (length (connections st) + (if warned (trace st) then 0 else 1))%nat.

(** The number of threshold criteria that are configured. *)
Definition configured_thresholds {Refiner : Type} (a : Stage1.Args Refiner)
    : nat :=
  (match Stage1.kernel_length_scale a with Some _ => 1 | None => 0 end
   + match Stage1.scaled_max_curvature_threshold a with
     | Some _ => 1
     | None => 0
     end)%nat.

(** An entry is kept, or goes from 0 to 1. *)
Definition kept_or_set (b a : Z) : Prop := a = b \/ (b = 0 /\ a = 1).

(** ** The stack depth the area-query kernels are generated for *)

(** [MAX_LEVELS_INCREMENT]: the granularity of [max_levels]. *)
Definition MAX_LEVELS_INCREMENT : Z := 10.

(** [max_levels = MAX_LEVELS_INCREMENT * div_ceil(tree.nlevels,
    MAX_LEVELS_INCREMENT)], as both area-query checks compute it; [div_ceil]
    comes from outside. *)
Definition max_levels (div_ceil : Z -> Z -> Z) (nlevels : Z) : Z :=
  MAX_LEVELS_INCREMENT * div_ceil nlevels MAX_LEVELS_INCREMENT.

(** * Properties *)

(** ** Coordinates *)

Lemma Qgt_bool_spec (a b : Q) : Qgt_bool a b = true <-> (b < a)%Q.
Proof.
  unfold Qgt_bool. rewrite negb_true_iff.
  split.
  - intros Hle. apply Qnot_le_lt. intros Hab.
    apply Qle_bool_iff in Hab. congruence.
  - intros Hlt. destruct (Qle_bool a b) eqn:Eab; [|reflexivity].
    apply Qle_bool_iff in Eab. exfalso. exact (Qlt_not_le _ _ Hlt Eab).
Qed.

Lemma Qleb_spec (a b : Q) : Qleb a b = true <-> (a <= b)%Q.
Proof. apply Qle_bool_iff. Qed.

Lemma Qleb_tie (a b : Q) : (a == b)%Q -> Qleb a b = true.
Proof. intros Hab. apply Qleb_spec. rewrite Hab. apply Qle_refl. Qed.

(** ** Rounding is monotone *)

Lemma pow2_pos (e : Z) : (0 < Binary64.pow2 e)%Q.
Proof. apply Qpower_0_lt. reflexivity. Qed.

Lemma pow2_plus (a b : Z) :
  (Binary64.pow2 (a + b) == Binary64.pow2 a * Binary64.pow2 b)%Q.
Proof. apply Qpower_plus. discriminate. Qed.

Lemma pow2_le (a b : Z) : a <= b -> (Binary64.pow2 a <= Binary64.pow2 b)%Q.
Proof. intros H. apply Qpower_le_compat_l; [exact H|discriminate]. Qed.

Lemma pow2_lt (a b : Z) : a < b -> (Binary64.pow2 a < Binary64.pow2 b)%Q.
Proof. intros H. apply Qpower_lt_compat_l; [exact H|reflexivity]. Qed.

Lemma pow2_Z (n : Z) : 0 <= n -> (Binary64.pow2 n == inject_Z (2 ^ n))%Q.
Proof. intros H. unfold Binary64.pow2. rewrite Zpower_Qpower by exact H. reflexivity. Qed.

Lemma pow2_div (a b : Z) :
  (Binary64.pow2 a / Binary64.pow2 b == Binary64.pow2 (a - b))%Q.
Proof.
  replace a with ((a - b) + b) at 1 by lia. rewrite pow2_plus.
  apply Qdiv_mult_l. apply Qnot_eq_sym, Qlt_not_eq, pow2_pos.
Qed.

Lemma ilog2_bounds (n : Z) (d : positive) :
  0 < n ->
  let e0 := Z.log2 n - Z.log2 (Z.pos d) in
  (Binary64.pow2 (e0 - 1) < n # d)%Q /\ (n # d < Binary64.pow2 (e0 + 1))%Q.
Proof.
  intros Hn e0.
  destruct (Z.log2_spec n Hn) as [Hn1 Hn2].
  destruct (Z.log2_spec (Z.pos d) (Pos2Z.is_pos d)) as [Hd1 Hd2].
  pose proof (Z.log2_nonneg n) as Ha. pose proof (Z.log2_nonneg (Z.pos d)) as Hb.
  set (a := Z.log2 n) in *. set (b := Z.log2 (Z.pos d)) in *.
  assert (Hq : (n # d == inject_Z n / inject_Z (Z.pos d))%Q) by apply Qmake_Qdiv.
  assert (Hdpos : (0 < inject_Z (Z.pos d))%Q) by reflexivity.
  split; rewrite Hq.
  - apply Qlt_shift_div_l; [exact Hdpos|].
    apply Qlt_le_trans with (Binary64.pow2 (e0 - 1) * Binary64.pow2 (b + 1))%Q.
    + apply Qmult_lt_l; [apply pow2_pos|].
      rewrite pow2_Z by lia. rewrite <- Zlt_Qlt. lia.
    + rewrite <- pow2_plus. replace (e0 - 1 + (b + 1)) with a by (unfold e0; lia).
      rewrite pow2_Z by lia. rewrite <- Zle_Qle. lia.
  - apply Qlt_shift_div_r; [exact Hdpos|].
    apply Qlt_le_trans with (Binary64.pow2 (e0 + 1) * Binary64.pow2 b)%Q.
    + rewrite <- pow2_plus. replace (e0 + 1 + b) with (a + 1) by (unfold e0; lia).
      rewrite pow2_Z by lia. rewrite <- Zlt_Qlt. lia.
    + apply Qmult_le_l; [apply pow2_pos|].
      rewrite pow2_Z by lia. rewrite <- Zle_Qle. lia.
Qed.

Lemma ilog2_spec (q : Q) :
  (0 < q)%Q ->
  (Binary64.pow2 (Binary64.ilog2 q) <= q)%Q /\ (q < Binary64.pow2 (Binary64.ilog2 q + 1))%Q.
Proof.
  intros Hq. destruct q as [n d].
  assert (Hn : 0 < n).
  { unfold Qlt in Hq. cbn in Hq. lia. }
  destruct (ilog2_bounds n d Hn) as [Hlo Hhi].
  unfold Binary64.ilog2. cbn [Qnum Qden].
  set (e0 := Z.log2 n - Z.log2 (Z.pos d)) in *.
  destruct (Qle_bool (Binary64.pow2 e0) (n # d)) eqn:Ht.
  - apply Qle_bool_iff in Ht. split; [exact Ht|exact Hhi].
  - split; [apply Qlt_le_weak, Hlo|].
    replace (e0 - 1 + 1) with e0 by lia.
    apply Qnot_le_lt. intros Hle. apply Qle_bool_iff in Hle. congruence.
Qed.

Lemma ilog2_mono (x y : Q) :
  (0 < x)%Q -> (x <= y)%Q -> Binary64.ilog2 x <= Binary64.ilog2 y.
Proof.
  intros Hx Hxy.
  assert (Hy : (0 < y)%Q) by (eapply Qlt_le_trans; eauto).
  destruct (ilog2_spec x Hx) as [Hx1 _].
  destruct (ilog2_spec y Hy) as [_ Hy2].
  assert (H : (Binary64.pow2 (Binary64.ilog2 x) < Binary64.pow2 (Binary64.ilog2 y + 1))%Q).
  { eapply Qle_lt_trans; [exact Hx1|]. eapply Qle_lt_trans; eauto. }
  apply Qpower_lt_compat_l_inv in H; [lia|reflexivity].
Qed.

Lemma round_half_even_bounds (q : Q) :
  Qfloor q <= Binary64.round_half_even q <= Qfloor q + 1.
Proof.
  unfold Binary64.round_half_even.
  destruct (q - inject_Z (Qfloor q) ?= 1 # 2)%Q; [destruct (Z.even _)| |]; lia.
Qed.

Lemma round_half_even_mono (x y : Q) :
  (x <= y)%Q -> Binary64.round_half_even x <= Binary64.round_half_even y.
Proof.
  intros Hxy. pose proof (Qfloor_resp_le x y Hxy) as Hf.
  pose proof (round_half_even_bounds x). pose proof (round_half_even_bounds y).
  destruct (Z.eq_dec (Qfloor x) (Qfloor y)) as [He|Hne]; [|lia].
  unfold Binary64.round_half_even in *. rewrite <- He in *.
  assert (Hr : (x - inject_Z (Qfloor x) <= y - inject_Z (Qfloor x))%Q).
  { apply Qplus_le_l. exact Hxy. }
  destruct (Qcompare_spec (x - inject_Z (Qfloor x)) (1 # 2)) as [Hx|Hx|Hx];
    destruct (Qcompare_spec (y - inject_Z (Qfloor x)) (1 # 2)) as [Hy|Hy|Hy];
    try (destruct (Z.even (Qfloor x))); try lia; exfalso; lra.
Qed.

Lemma round_half_even_Z (n : Z) : Binary64.round_half_even (inject_Z n) = n.
Proof.
  unfold Binary64.round_half_even. rewrite Qfloor_Z.
  assert (H : (inject_Z n - inject_Z n ?= 1 # 2)%Q = Lt).
  { apply Qlt_alt.
    assert (Hz : (inject_Z n - inject_Z n == 0)%Q) by ring.
    rewrite Hz. reflexivity. }
  rewrite H. reflexivity.
Qed.

Lemma grid_mono (e : Z) (x y : Q) :
  (x <= y)%Q ->
  (inject_Z (Binary64.round_half_even (x / Binary64.pow2 e)) * Binary64.pow2 e
   <= inject_Z (Binary64.round_half_even (y / Binary64.pow2 e)) * Binary64.pow2 e)%Q.
Proof.
  intros Hxy. apply Qmult_le_compat_r; [|apply Qlt_le_weak, pow2_pos].
  rewrite <- Zle_Qle. apply round_half_even_mono.
  apply Qmult_le_compat_r; [exact Hxy|].
  apply Qlt_le_weak, Qinv_lt_0_compat, pow2_pos.
Qed.

Lemma grid_fix (e k : Z) :
  0 <= k ->
  (inject_Z (Binary64.round_half_even (Binary64.pow2 (e + k) / Binary64.pow2 e))
     * Binary64.pow2 e == Binary64.pow2 (e + k))%Q.
Proof.
  intros Hk.
  assert (H : (Binary64.pow2 (e + k) / Binary64.pow2 e == inject_Z (2 ^ k))%Q).
  { rewrite pow2_div. replace (e + k - e) with k by lia. apply pow2_Z, Hk. }
  assert (H' : Binary64.round_half_even (Binary64.pow2 (e + k) / Binary64.pow2 e) = 2 ^ k).
  { rewrite <- (round_half_even_Z (2 ^ k)). 
    unfold Binary64.round_half_even.
    rewrite (Qfloor_comp _ _ H). rewrite H. reflexivity. }
  rewrite H'. rewrite <- pow2_Z by exact Hk. rewrite (Z.add_comm e k).
  symmetry. apply pow2_plus.
Qed.

Lemma round_pos_mono (prec : Z) (x y : Q) :
  1 <= prec -> (0 < x)%Q -> (x <= y)%Q ->
  (Binary64.round_pos prec x <= Binary64.round_pos prec y)%Q.
Proof.
  intros Hp Hx Hxy.
  assert (Hy : (0 < y)%Q) by (eapply Qlt_le_trans; eauto).
  unfold Binary64.round_pos. cbv zeta. rewrite !Qred_correct.
  pose proof (ilog2_mono x y Hx Hxy) as He.
  destruct (ilog2_spec x Hx) as [_ Hx2].
  destruct (ilog2_spec y Hy) as [Hy1 _].
  set (ex := Binary64.ilog2 x) in *. set (ey := Binary64.ilog2 y) in *.
  destruct (Z.eq_dec ex ey) as [Heq|Hne].
  - rewrite Heq. apply grid_mono, Hxy.
  - eapply Qle_trans; [apply grid_mono, Qlt_le_weak, Hx2|].
    replace (ex + 1) with ((ex - (prec - 1)) + prec) by lia.
    rewrite (grid_fix (ex - (prec - 1)) prec) by lia.
    eapply Qle_trans; [|apply grid_mono, Hy1].
    pose proof (grid_fix (ey - (prec - 1)) (prec - 1)) as G.
    replace (ey - (prec - 1) + (prec - 1)) with ey in G by lia.
    rewrite G by lia.
    apply pow2_le. lia.
Qed.

Lemma round_pos_nonneg (prec : Z) (x : Q) :
  (0 < x)%Q -> (0 <= Binary64.round_pos prec x)%Q.
Proof.
  intros Hx. unfold Binary64.round_pos. cbv zeta. rewrite Qred_correct.
  apply Qmult_le_0_compat; [|apply Qlt_le_weak, pow2_pos].
  change 0%Q with (inject_Z 0). rewrite <- Zle_Qle.
  pose proof (round_half_even_bounds (x / Binary64.pow2 (Binary64.ilog2 x - (prec - 1)))).
  assert (0 <= Qfloor (x / Binary64.pow2 (Binary64.ilog2 x - (prec - 1)))); [|lia].
  change 0 with (Qfloor 0). apply Qfloor_resp_le.
  apply Qle_shift_div_l; [apply pow2_pos|]. lra.
Qed.

Lemma round_mono (prec : Z) (x y : Q) :
  1 <= prec -> (x <= y)%Q -> (Binary64.round prec x <= Binary64.round prec y)%Q.
Proof.
  intros Hp Hxy. unfold Binary64.round.
  destruct (Qcompare_spec x 0) as [Hx|Hx|Hx];
    destruct (Qcompare_spec y 0) as [Hy|Hy|Hy]; try lra.
  - apply round_pos_nonneg, Hy.
  - pose proof (round_pos_nonneg prec (- x)) as H. lra.
  - pose proof (round_pos_mono prec (- y) (- x) Hp) as H. lra.
  - pose proof (round_pos_nonneg prec (- x)) as H.
    pose proof (round_pos_nonneg prec y Hy) as H'. lra.
  - apply round_pos_mono; assumption.
Qed.

Lemma binary64_rnd_mono (x y : Q) :
  (x <= y)%Q -> (Binary64.rnd x <= Binary64.rnd y)%Q.
Proof. apply round_mono. lia. Qed.

Lemma binary64_sub_antitone (a x y : Q) :
  (x <= y)%Q -> (Binary64.sub a y <= Binary64.sub a x)%Q.
Proof. intros H. apply binary64_rnd_mono. lra. Qed.

Lemma binary64_mul_mono (x y r : Q) :
  (x <= y)%Q -> (0 <= r)%Q -> (Binary64.mul x r <= Binary64.mul y r)%Q.
Proof.
  intros H Hr. apply binary64_rnd_mono. apply Qmult_le_compat_r; assumption.
Qed.

(** ** Kernels that only mark *)

Section MarkIf.
Variables (hit : nat -> bool) (target : nat -> nat).
#[local] Abbreviation marked := (marked hit target).

Lemma marked_cons (i : nat) (schedule : list nat) (p : nat) :
  marked (i :: schedule) p
  = (hit i && (target i =? p)%nat) || marked schedule p.
Proof. reflexivity. Qed.

Lemma mark_if_flags_lookup (schedule : list nat) (st : KernelState) (p : nat) :
  panel_refine_flags (foldl (mark_if hit target) st schedule) !! p
  = if marked schedule p
    then (fun _ => 1) <$> (panel_refine_flags st !! p)
    else panel_refine_flags st !! p.
Proof.
  revert st. induction schedule as [|i schedule IH]; intros st.
  - reflexivity.
  - cbn [foldl]. rewrite IH, marked_cons. unfold mark_if.
    destruct (hit i) eqn:Hi; cbn [andb orb]; [|reflexivity].
    cbn [mark_panel panel_refine_flags].
    destruct (Nat.eqb_spec (target i) p) as [->|Hne]; cbn [orb].
    + destruct (decide (p < length (panel_refine_flags st))%nat) as [Hlt|Hge].
      * rewrite list_lookup_insert_eq by exact Hlt.
        destruct (lookup_lt_is_Some_2 _ _ Hlt) as [x ->].
        destruct (marked schedule p); reflexivity.
      * rewrite list_insert_ge by lia.
        rewrite (lookup_ge_None_2 (panel_refine_flags st) p) by lia.
        destruct (marked schedule p); reflexivity.
    + rewrite list_lookup_insert_ne by exact Hne. reflexivity.
Qed.

Lemma mark_if_found (schedule : list nat) (st : KernelState) :
  found_panel_to_refine (foldl (mark_if hit target) st schedule)
  = if existsb hit schedule then 1 else found_panel_to_refine st.
Proof.
  revert st. induction schedule as [|i schedule IH]; intros st; simpl.
  - reflexivity.
  - rewrite IH. unfold mark_if.
    destruct (hit i); simpl; [|reflexivity].
    destruct (existsb hit schedule); reflexivity.
Qed.

Lemma mark_if_length (schedule : list nat) (st : KernelState) :
  length (panel_refine_flags (foldl (mark_if hit target) st schedule))
  = length (panel_refine_flags st).
Proof.
  revert st. induction schedule as [|i schedule IH]; intros st; simpl.
  - reflexivity.
  - rewrite IH. unfold mark_if. destruct (hit i); simpl; [|reflexivity].
    apply length_insert.
Qed.

Lemma marked_spec (schedule : list nat) (p : nat) :
  marked schedule p = true
  <-> exists i, In i schedule /\ hit i = true /\ target i = p.
Proof.
  unfold marked. rewrite existsb_exists. split.
  - intros (i & Hin & Hi). apply andb_true_iff in Hi as [Hh Ht].
    apply Nat.eqb_eq in Ht. eauto.
  - intros (i & Hin & Hh & Ht). exists i. split; [exact Hin|].
    rewrite Hh. simpl. apply Nat.eqb_eq. exact Ht.
Qed.

End MarkIf.

Lemma mark_panel_twice (p : nat) (st : KernelState) :
  mark_panel p (mark_panel p st) = mark_panel p st.
Proof.
  unfold mark_panel. cbn [panel_refine_flags].
  rewrite list_insert_insert_eq. reflexivity.
Qed.

Lemma foldl_pointwise {A B : Type} (f g : A -> B -> A) (l : list B) (a : A) :
  (forall x y, f x y = g x y) -> foldl f a l = foldl g a l.
Proof.
  intros Hfg. revert a. induction l as [|b l IH]; intros a; cbn [foldl].
  - reflexivity.
  - rewrite Hfg. apply IH.
Qed.

(** ** The threshold kernel as a marking kernel *)

Lemma threshold_run_schedule_mark_if (P : list Q) (T : Q)
    (schedule : list nat) (st : KernelState) :
  Threshold.run_schedule P T schedule st
  = foldl (mark_if (Threshold.over_threshold P T) (fun i => i)) st schedule.
Proof. reflexivity. Qed.

Lemma over_threshold_spec (P : list Q) (T : Q) (e : nat) :
  Threshold.over_threshold P T e = true
  <-> exists p, P !! e = Some p /\ (T < p)%Q.
Proof.
  unfold Threshold.over_threshold. destruct (P !! e) as [p|].
  - rewrite Qgt_bool_spec. split; [eauto|]. intros (q & [= <-] & Hq). exact Hq.
  - split; [discriminate|]. intros (q & Hq & _). discriminate.
Qed.

Lemma marked_threshold (P : list Q) (T : Q) (e : nat) :
  marked (Threshold.over_threshold P T) (fun i => i)
    (seq 0 (length P)) e
  = Threshold.over_threshold P T e.
Proof.
  apply eq_true_iff_eq. rewrite marked_spec. split.
  - intros (i & _ & Hi & ->). exact Hi.
  - intros He. exists e. split; [|auto].
    apply in_seq. split; [lia|]. cbn.
    apply over_threshold_spec in He as (p & Hp & _).
    apply lookup_lt_Some in Hp. exact Hp.
Qed.

Lemma any_over_threshold_spec (P : list Q) (T : Q) :
  any_over_threshold P T = true
  <-> exists e, Threshold.over_threshold P T e = true.
Proof.
  unfold any_over_threshold. rewrite existsb_exists. split.
  - intros (e & _ & He). eauto.
  - intros (e & He). exists e. split; [|exact He].
    apply in_seq. split; [lia|]. cbn.
    apply over_threshold_spec in He as (p & Hp & _).
    apply lookup_lt_Some in Hp. exact Hp.
Qed.

Lemma threshold_flags_lookup (P : list Q) (T : Q) (flags : list Z) (e : nat) :
  (Threshold.check_element_prop_threshold P T flags).1 !! e
  = if Threshold.over_threshold P T e
    then (fun _ => 1) <$> (flags !! e)
    else flags !! e.
Proof.
  unfold Threshold.check_element_prop_threshold,
    Threshold.element_prop_threshold_checker. cbn [fst].
  rewrite threshold_run_schedule_mark_if, mark_if_flags_lookup.
  rewrite marked_threshold. reflexivity.
Qed.

Lemma threshold_result (P : list Q) (T : Q) (flags : list Z) :
  (Threshold.check_element_prop_threshold P T flags).2
  = any_over_threshold P T.
Proof.
  unfold Threshold.check_element_prop_threshold,
    Threshold.element_prop_threshold_checker. cbn [snd].
  rewrite threshold_run_schedule_mark_if, mark_if_found.
  unfold any_over_threshold. cbn [found_panel_to_refine].
  destruct (existsb _ _); reflexivity.
Qed.

Lemma threshold_flags_length (P : list Q) (T : Q) (flags : list Z) :
  length (Threshold.check_element_prop_threshold P T flags).1 = length flags.
Proof.
  unfold Threshold.check_element_prop_threshold,
    Threshold.element_prop_threshold_checker. cbn [fst].
  rewrite threshold_run_schedule_mark_if, mark_if_length. reflexivity.
Qed.

(** ** The area-query kernels as marking kernels *)

Section Condition1Facts.
Context {PeerLists : Type} (C : TreeCode PeerLists).
Variables (tree : Tree) (peer_lists : PeerLists).
Variables (radii : list Q) (tol : Q).

#[local] Abbreviation is_close1 :=
  (Condition1.is_close C tree radii tol).
#[local] Abbreviation center_panel1 := (Condition1.center_panel C tree).
#[local] Abbreviation disturbed1 :=
  (Condition1.disturbed C tree peer_lists radii tol).

Lemma cond1_leaf_loop_spec (icenter : nat) (idxs : list nat)
    (st : KernelState) :
  Condition1.leaf_loop C tree radii tol icenter idxs st
  = if existsb (is_close1 icenter) idxs
    then mark_panel (center_panel1 icenter) st
    else st.
Proof.
  induction idxs as [|idx idxs IH]; cbn [Condition1.leaf_loop existsb].
  - reflexivity.
  - destruct (is_close1 icenter idx); cbn [orb]; [reflexivity|exact IH].
Qed.

Lemma cond1_work_item_spec (st : KernelState) (icenter : nat) :
  Condition1.work_item C tree peer_lists radii tol st icenter
  = mark_if disturbed1 center_panel1 st icenter.
Proof.
  unfold Condition1.work_item, mark_if, Condition1.disturbed,
    Condition1.candidate_source_idxs.
  generalize (Condition1.candidate_boxes C tree peer_lists radii tol icenter).
  intros leaves. revert st.
  induction leaves as [|leaf leaves IH]; intros st; cbn [foldl map concat].
  - reflexivity.
  - rewrite IH, existsb_app. unfold Condition1.leaf_found_op.
    rewrite cond1_leaf_loop_spec.
    set (here := existsb _ (box_range _ _)).
    set (later := existsb _ (concat _)).
    destruct here, later; cbn [orb]; try reflexivity.
    apply mark_panel_twice.
Qed.

Lemma cond1_run_schedule_mark_if (schedule : list nat) (st : KernelState) :
  Condition1.run_schedule C tree peer_lists radii tol schedule st
  = foldl (mark_if disturbed1 center_panel1) st schedule.
Proof. apply foldl_pointwise, cond1_work_item_spec. Qed.

Lemma cond1_disturbed_spec (icenter : nat) :
  disturbed1 icenter = true
  <-> exists source_idx,
        In source_idx
          (Condition1.candidate_source_idxs C tree peer_lists radii tol
             icenter)
        /\ (distance C (load_center_particle C tree icenter)
              (load_source_particle C tree
                 (box_to_qbx_source_lists tree !!! source_idx))
            <= coord_mul C (coord_sub C 1 tol) (radii !!! icenter))%Q.
Proof.
  unfold Condition1.disturbed. rewrite existsb_exists.
  split; intros (idx & Hin & Hc); exists idx; (split; [exact Hin|]);
    apply Qleb_spec; exact Hc.
Qed.

End Condition1Facts.

Section Condition2Facts.
Context {PeerLists : Type} (C : TreeCode PeerLists).
Variables (tree : Tree) (peer_lists : PeerLists).
Variable radii : list Q.

#[local] Abbreviation is_close2 := (Condition2.is_close C tree radii).
#[local] Abbreviation my_panel2 := (Condition2.my_panel C tree).
#[local] Abbreviation under_resolved2 :=
  (Condition2.under_resolved C tree peer_lists radii).

Lemma cond2_leaf_loop_spec (i : nat) (idxs : list nat) (st : KernelState) :
  Condition2.leaf_loop C tree radii i idxs st
  = if existsb (is_close2 i) idxs
    then mark_panel (my_panel2 i) st
    else st.
Proof.
  induction idxs as [|idx idxs IH]; cbn [Condition2.leaf_loop existsb].
  - reflexivity.
  - destruct (is_close2 i idx); cbn [orb]; [reflexivity|exact IH].
Qed.

Lemma cond2_work_item_spec (st : KernelState) (i : nat) :
  Condition2.work_item C tree peer_lists radii st i
  = mark_if under_resolved2 my_panel2 st i.
Proof.
  unfold Condition2.work_item, mark_if, Condition2.under_resolved,
    Condition2.candidate_center_idxs.
  generalize (Condition2.candidate_boxes C tree peer_lists radii i).
  intros leaves. revert st.
  induction leaves as [|leaf leaves IH]; intros st; cbn [foldl map concat].
  - reflexivity.
  - rewrite IH, existsb_app. unfold Condition2.leaf_found_op.
    rewrite cond2_leaf_loop_spec.
    set (here := existsb _ (box_range _ _)).
    set (later := existsb _ (concat _)).
    destruct here, later; cbn [orb]; try reflexivity.
    apply mark_panel_twice.
Qed.

Lemma cond2_run_schedule_mark_if (schedule : list nat) (st : KernelState) :
  Condition2.run_schedule C tree peer_lists radii schedule st
  = foldl (mark_if under_resolved2 my_panel2) st schedule.
Proof. apply foldl_pointwise, cond2_work_item_spec. Qed.

Lemma cond2_under_resolved_spec (i : nat) :
  under_resolved2 i = true
  <-> exists center_idx,
        In center_idx
          (Condition2.candidate_center_idxs C tree peer_lists radii i)
        /\ (distance C (load_source_particle C tree i)
              (load_center_particle C tree
                 (box_to_qbx_center_lists tree !!! center_idx))
            <= radii !!! my_panel2 i)%Q.
Proof.
  unfold Condition2.under_resolved. rewrite existsb_exists.
  split; intros (idx & Hin & Hc); exists idx; (split; [exact Hin|]);
    apply Qleb_spec; exact Hc.
Qed.

End Condition2Facts.

(** ** What a checker call does to the flags *)

Lemma run_checker_marks {PeerLists : Type} (call : CheckerCall PeerLists) :
  exists M : nat -> bool, forall (flags : list Z) (p : nat),
    run_checker flags call !! p
    = if M p then (fun _ => 1) <$> (flags !! p) else flags !! p.
Proof.
  destruct call as [P T|C tree pl radii tol|C tree pl radii];
    cbn [run_checker].
  - eexists. intros flags p.
    unfold Threshold.element_prop_threshold_checker.
    rewrite threshold_run_schedule_mark_if, mark_if_flags_lookup.
    reflexivity.
  - eexists. intros flags p.
    unfold Condition1.check_center_closest_to_orig_panel.
    rewrite cond1_run_schedule_mark_if, mark_if_flags_lookup.
    reflexivity.
  - eexists. intros flags p.
    unfold Condition2.check_source_quadrature_resolution.
    rewrite cond2_run_schedule_mark_if, mark_if_flags_lookup.
    reflexivity.
Qed.

Lemma run_checker_commute {PeerLists : Type}
    (c1 c2 : CheckerCall PeerLists) (flags : list Z) :
  run_checker (run_checker flags c1) c2
  = run_checker (run_checker flags c2) c1.
Proof.
  destruct (run_checker_marks c1) as [M1 H1].
  destruct (run_checker_marks c2) as [M2 H2].
  apply list_eq. intros p. rewrite !H2, !H1, !H2.
  destruct (M1 p), (M2 p), (flags !! p); reflexivity.
Qed.

Lemma run_checker_permutation {PeerLists : Type}
    (calls calls' : list (CheckerCall PeerLists)) :
  Permutation calls calls' ->
  forall flags, foldl run_checker flags calls = foldl run_checker flags calls'.
Proof.
  induction 1 as [|c l l' _ IH|c1 c2 l|l1 l2 l3 _ IH1 _ IH2];
    intros flags; cbn [foldl].
  - reflexivity.
  - apply IH.
  - rewrite run_checker_commute. reflexivity.
  - rewrite IH1. apply IH2.
Qed.

(** ** Claims about the checkers *)




Lemma existsb_permutation {A : Type} (f : A -> bool) (l l' : list A) :
  Permutation l l' -> existsb f l = existsb f l'.
Proof.
  intros Hp. apply eq_true_iff_eq. rewrite !existsb_exists.
  split; intros (x & Hin & Hx); exists x; (split; [|exact Hx]).
  - eapply Permutation_in; eauto.
  - eapply Permutation_in; [symmetry|]; eauto.
Qed.

Lemma mark_if_permutation (hit : nat -> bool) (target : nat -> nat)
    (schedule schedule' : list nat) (st : KernelState) :
  Permutation schedule schedule' ->
  foldl (mark_if hit target) st schedule
  = foldl (mark_if hit target) st schedule'.
Proof.
  intros Hp.
  pose proof (mark_if_found hit target schedule st) as Hf.
  pose proof (mark_if_found hit target schedule' st) as Hf'.
  rewrite (existsb_permutation _ _ _ Hp) in Hf.
  assert (panel_refine_flags (foldl (mark_if hit target) st schedule)
          = panel_refine_flags (foldl (mark_if hit target) st schedule'))
    as Hflags.
  { apply list_eq. intros p. rewrite !mark_if_flags_lookup.
    unfold marked. rewrite (existsb_permutation _ _ _ Hp). reflexivity. }
  destruct (foldl _ st schedule), (foldl _ st schedule').
  cbn in *. congruence.
Qed.

(** C4. With a property array [P] and a threshold [T], the threshold checker
    writes 1 into the flag of every element whose property is strictly above
    [T] and leaves every other flag as it was; the result is a function of
    [P], [T] and the starting flags alone: it is the same from equal starting
    flags, it does not depend on the order in which the kernel's work items
    run, and running the checker again on its own output changes nothing. *)
Theorem C4_threshold_checker (P : list Q) (T : Q) (flags : list Z) :
  length flags = length P ->
  let result := Threshold.check_element_prop_threshold P T flags in
  length result.1 = length flags
  /\ (forall e p, P !! e = Some p -> (T < p)%Q -> result.1 !! e = Some 1)
  /\ (forall e p, P !! e = Some p -> (p <= T)%Q -> result.1 !! e = flags !! e)
  /\ (forall flags2, flags2 = flags ->
        Threshold.check_element_prop_threshold P T flags2 = result)
  /\ (forall schedule, Permutation schedule (seq 0 (length P)) ->
        Threshold.run_schedule P T schedule (mkKernelState flags 0)
        = Threshold.element_prop_threshold_checker P T flags 0)
  /\ Threshold.check_element_prop_threshold P T result.1 = result.
Proof.
  intros Hlen result. subst result. repeat apply conj.
  - apply threshold_flags_length.
  - intros e p He Hp. rewrite threshold_flags_lookup.
    assert (Threshold.over_threshold P T e = true) as ->
      by (apply over_threshold_spec; eauto).
    apply lookup_lt_Some in He. rewrite <- Hlen in He.
    destruct (lookup_lt_is_Some_2 _ _ He) as [x ->]. reflexivity.
  - intros e p He Hp. rewrite threshold_flags_lookup.
    destruct (Threshold.over_threshold P T e) eqn:Ho; [|reflexivity].
    apply over_threshold_spec in Ho as (q & Hq & Hlt).
    rewrite He in Hq. injection Hq as <-.
    exfalso. exact (Qlt_not_le _ _ Hlt Hp).
  - intros flags2 ->. reflexivity.
  - intros schedule Hp. unfold Threshold.element_prop_threshold_checker.
    rewrite !threshold_run_schedule_mark_if.
    apply mark_if_permutation, Hp.
  - apply injective_projections.
    + apply list_eq. intros e. rewrite !threshold_flags_lookup.
      destruct (Threshold.over_threshold P T e); [|reflexivity].
      destruct (flags !! e); reflexivity.
    + rewrite !threshold_result. reflexivity.
Qed.

Lemma C4_threshold_checker_witness :
  Threshold.check_element_prop_threshold [5; 1; 0]%Q 1%Q [0; 0; 0]
  = ([1; 0; 0], true)
  /\ (Threshold.check_element_prop_threshold [5; 1; 0]%Q 1%Q [0; 0; 0]).1 !! 0%nat
     = Some 1.
Proof.
  split; [reflexivity|].
  apply (proj1 (proj2 (C4_threshold_checker [5; 1; 0]%Q 1%Q [0; 0; 0]
                         eq_refl)) 0%nat 5%Q); reflexivity.
Defined.

(** ** The wrangler's checks *)

Section WranglerFacts.
Context {Mesh Discr Conn Refiner PeerLists : Type}.
Context (E : Collaborators Mesh Discr Conn Refiner PeerLists).

Lemma disks_result (d : Discr) (tree : Tree) (pl : PeerLists) (tol : Q)
    (flags : list Z) :
  (check_expansion_disks_undisturbed_by_sources E d tree pl tol flags).2
  = existsb
      (Condition1.disturbed (tree_code E) tree pl (expansion_radii E d) tol)
      (seq 0 (nqbxcenters tree)).
Proof.
  unfold check_expansion_disks_undisturbed_by_sources,
    Condition1.check_center_closest_to_orig_panel. cbn [snd].
  rewrite cond1_run_schedule_mark_if, mark_if_found.
  cbn [found_panel_to_refine]. destruct (existsb _ _); reflexivity.
Qed.

Lemma disks_flags_lookup (d : Discr) (tree : Tree) (pl : PeerLists) (tol : Q)
    (flags : list Z) (p : nat) :
  (check_expansion_disks_undisturbed_by_sources E d tree pl tol flags).1 !! p
  = if marked
         (Condition1.disturbed (tree_code E) tree pl (expansion_radii E d) tol)
         (Condition1.center_panel (tree_code E) tree)
         (seq 0 (nqbxcenters tree)) p
    then (fun _ => 1) <$> (flags !! p)
    else flags !! p.
Proof.
  unfold check_expansion_disks_undisturbed_by_sources,
    Condition1.check_center_closest_to_orig_panel. cbn [fst].
  rewrite cond1_run_schedule_mark_if, mark_if_flags_lookup. reflexivity.
Qed.

Lemma quadres_result (d : Discr) (tree : Tree) (pl : PeerLists)
    (flags : list Z) :
  (check_sufficient_source_quadrature_resolution E d tree pl flags).2
  = existsb
      (Condition2.under_resolved (tree_code E) tree pl
         (source_danger_zone_radii E d))
      (seq 0 (nqbxsources tree)).
Proof.
  unfold check_sufficient_source_quadrature_resolution,
    Condition2.check_source_quadrature_resolution. cbn [snd].
  rewrite cond2_run_schedule_mark_if, mark_if_found.
  cbn [found_panel_to_refine]. destruct (existsb _ _); reflexivity.
Qed.

Lemma quadres_flags_lookup (d : Discr) (tree : Tree) (pl : PeerLists)
    (flags : list Z) (p : nat) :
  (check_sufficient_source_quadrature_resolution E d tree pl flags).1 !! p
  = if marked
         (Condition2.under_resolved (tree_code E) tree pl
            (source_danger_zone_radii E d))
         (Condition2.my_panel (tree_code E) tree)
         (seq 0 (nqbxsources tree)) p
    then (fun _ => 1) <$> (flags !! p)
    else flags !! p.
Proof.
  unfold check_sufficient_source_quadrature_resolution,
    Condition2.check_source_quadrature_resolution. cbn [fst].
  rewrite cond2_run_schedule_mark_if, mark_if_flags_lookup. reflexivity.
Qed.

Lemma newly_set_marked (hit : nat -> bool) (target : nat -> nat)
    (schedule : list nat) (before after : list Z) (e : nat) :
  (forall p, after !! p
     = if marked hit target schedule p
       then (fun _ => 1) <$> (before !! p)
       else before !! p) ->
  newly_set before after e ->
  existsb hit schedule = true.
Proof.
  intros Hafter [Hb Ha]. rewrite Hafter, Hb in Ha.
  destruct (marked hit target schedule e) eqn:Hm; [|discriminate].
  apply marked_spec in Hm as (i & Hin & Hh & _).
  apply existsb_exists. eauto.
Qed.

(** C5, as the code has it.  The boolean a checker returns tells whether the
    criterion is violated somewhere in that call, that is, whether the kernel
    performed at least one write of 1 into the flags, whether or not the
    entry written was already 1: [check_element_prop_threshold] returns true
    exactly when some element's property exceeds the threshold, the
    Condition-1 check exactly when some center is disturbed, the Condition-2
    check exactly when some source is under-resolved.  A flag newly set by
    the call always makes the result true; and when every flag the threshold
    checker writes was 0 before the call, its result is true exactly when
    some flag is newly set. *)
Theorem C5_result_reports_violation (d : Discr) (tree : Tree)
    (pl : PeerLists) (tol : Q) (P : list Q) (T : Q) (flags : list Z) :
  let r3 := Threshold.check_element_prop_threshold P T flags in
  let r1 := check_expansion_disks_undisturbed_by_sources E d tree pl tol
              flags in
  let r2 := check_sufficient_source_quadrature_resolution E d tree pl flags in
  (r3.2 = true <-> exists e p, P !! e = Some p /\ (T < p)%Q)
  /\ (forall e, newly_set flags r3.1 e -> r3.2 = true)
  /\ (length flags = length P ->
      (forall e, Threshold.over_threshold P T e = true -> flags !! e = Some 0) ->
      (r3.2 = true <-> exists e, newly_set flags r3.1 e))
  /\ (r1.2 = true
      <-> exists icenter, (icenter < nqbxcenters tree)%nat
            /\ Condition1.disturbed (tree_code E) tree pl
                 (expansion_radii E d) tol icenter = true)
  /\ (forall e, newly_set flags r1.1 e -> r1.2 = true)
  /\ (r2.2 = true
      <-> exists i, (i < nqbxsources tree)%nat
            /\ Condition2.under_resolved (tree_code E) tree pl
                 (source_danger_zone_radii E d) i = true)
  /\ (forall e, newly_set flags r2.1 e -> r2.2 = true).
Proof.
  intros r3 r1 r2. subst r3 r1 r2.
  assert (Hseq : forall (hit : nat -> bool) n,
            existsb hit (seq 0 n) = true
            <-> exists i, (i < n)%nat /\ hit i = true).
  { intros hit n. rewrite existsb_exists. split.
    - intros (i & Hin & Hi). apply in_seq in Hin. exists i. split; [lia|auto].
    - intros (i & Hin & Hi). exists i. split; [apply in_seq; lia|auto]. }
  split_and!.
  - rewrite threshold_result, any_over_threshold_spec.
    split.
    + intros (e & He). apply over_threshold_spec in He as (p & Hp & Hlt). eauto.
    + intros (e & p & Hp & Hlt). exists e. apply over_threshold_spec. eauto.
  - intros e [Hb Ha]. rewrite threshold_result, any_over_threshold_spec.
    exists e. rewrite threshold_flags_lookup, Hb in Ha.
    destruct (Threshold.over_threshold P T e); [reflexivity|discriminate].
  - intros Hlen Hzero. rewrite threshold_result, any_over_threshold_spec.
    split.
    + intros (e & He). exists e. split; [auto|].
      rewrite threshold_flags_lookup, He, (Hzero e He). reflexivity.
    + intros (e & Hb & Ha). exists e.
      rewrite threshold_flags_lookup, Hb in Ha.
      destruct (Threshold.over_threshold P T e); [reflexivity|discriminate].
  - rewrite disks_result. apply Hseq.
  - intros e Hn. rewrite disks_result.
    eapply newly_set_marked; [|exact Hn].
    intros p. apply disks_flags_lookup.
  - rewrite quadres_result. apply Hseq.
  - intros e Hn. rewrite quadres_result.
    eapply newly_set_marked; [|exact Hn].
    intros p. apply quadres_flags_lookup.
Qed.

End WranglerFacts.

Lemma C5_result_reports_violation_witness :
  (Threshold.check_element_prop_threshold [5; 1]%Q 1%Q [0; 0]).2 = true.
Proof.
  apply (proj1 (proj2 (C5_result_reports_violation Line.world 0%nat
                         Line.tree tt
                             default_expansion_disturbance_tolerance
                             [5; 1]%Q 1%Q [0; 0]))
           0%nat).
  split; reflexivity.
Defined.

(** C5, as worded, fails.  An element whose flag the kernel-length-scale
    check has already set and whose curvature is over its threshold too: the
    second check returns true although no entry that was 0 before it is 1
    after it. *)
Lemma C5_counterexample :
  let after_first := (Threshold.check_element_prop_threshold [5]%Q 1%Q [0]).1 in
  let second := Threshold.check_element_prop_threshold [7]%Q 2%Q after_first in
  ~ (second.2 = true <-> exists e, newly_set after_first second.1 e).
Proof.
  cbv zeta. intros [Hto _].
  destruct (Hto eq_refl) as (e & Hb & Ha).
  destruct e as [|e]; vm_compute in Hb; discriminate.
Qed.

(** C7. A checker call writes nothing but the value 1 into flag entries that
    exist, keeps the array's length, and leaves a set flag set; therefore
    running the same checker calls in any order from the same starting flags
    gives the same final flags. *)
Theorem C7_flags_monotone_order_independent {PeerLists : Type} :
  (forall (call : CheckerCall PeerLists) (flags : list Z) (e : nat),
     run_checker flags call !! e = flags !! e
     \/ (is_Some (flags !! e) /\ run_checker flags call !! e = Some 1))
  /\ (forall (call : CheckerCall PeerLists) (flags : list Z),
        length (run_checker flags call) = length flags)
  /\ (forall (call : CheckerCall PeerLists) (flags : list Z) (e : nat),
        flags !! e = Some 1 -> run_checker flags call !! e = Some 1)
  /\ (forall (calls calls' : list (CheckerCall PeerLists)) (flags : list Z),
        Permutation calls calls' ->
        foldl run_checker flags calls = foldl run_checker flags calls').
Proof.
  repeat apply conj.
  - intros call flags e. destruct (run_checker_marks call) as [M HM].
    rewrite HM. destruct (M e); [|left; reflexivity].
    destruct (flags !! e) as [x|]; [right|left; reflexivity].
    split; [eauto|reflexivity].
  - intros [P T|C tree pl radii tol|C tree pl radii] flags; cbn [run_checker].
    + unfold Threshold.element_prop_threshold_checker.
      rewrite threshold_run_schedule_mark_if, mark_if_length. reflexivity.
    + unfold Condition1.check_center_closest_to_orig_panel.
      rewrite cond1_run_schedule_mark_if, mark_if_length. reflexivity.
    + unfold Condition2.check_source_quadrature_resolution.
      rewrite cond2_run_schedule_mark_if, mark_if_length. reflexivity.
  - intros call flags e He. destruct (run_checker_marks call) as [M HM].
    rewrite HM, He. destruct (M e); reflexivity.
  - intros calls calls' flags Hp. apply run_checker_permutation, Hp.
Qed.

Lemma C7_flags_monotone_order_independent_witness :
  foldl run_checker [0; 0; 0]
    [CallThreshold [5; 0; 0]%Q 1%Q;
     CallExpansionDisks Line.code Line.tree tt [Line.radius 0]
         default_expansion_disturbance_tolerance;
     CallThreshold [0; 0; 7]%Q 2%Q]
  = foldl run_checker [0; 0; 0]
      [CallExpansionDisks Line.code Line.tree tt [Line.radius 0]
          default_expansion_disturbance_tolerance;
       CallThreshold [0; 0; 7]%Q 2%Q;
       CallThreshold [5; 0; 0]%Q 1%Q].
Proof.
  apply (proj2 (proj2 (proj2 C7_flags_monotone_order_independent))).
  apply Permutation_cons_append.
Defined.

(** ** The capped loop *)

Lemma count_events_app (p : Event -> bool) (t1 t2 : list Event) :
  count_events p (t1 ++ t2) = (count_events p t1 + count_events p t2)%nat.
Proof. unfold count_events. rewrite List.filter_app, length_app. reflexivity. Qed.

Lemma warned_app (t1 t2 : list Event) :
  warned (t1 ++ t2) = warned t1 || warned t2.
Proof. apply existsb_app. Qed.

Lemma quiet_nil : quiet [].
Proof. split; reflexivity. Qed.

Lemma quiet_app (t1 t2 : list Event) : quiet t1 -> quiet t2 -> quiet (t1 ++ t2).
Proof.
  intros [Hr1 Hw1] [Hr2 Hw2]. split.
  - rewrite count_events_app, Hr1, Hr2. reflexivity.
  - rewrite warned_app, Hw1, Hw2. reflexivity.
Qed.

Lemma last_discr_snoc {Discr Conn : Type} (to_discr : Conn -> Discr)
    (d0 : Discr) (conns : list Conn) (c : Conn) :
  last_discr to_discr d0 (conns ++ [c]) = to_discr c.
Proof. unfold last_discr. rewrite last_snoc. reflexivity. Qed.

Section LoopFacts.
Context {Mesh Discr Conn Refiner PeerLists : Type}.
Context (E : Collaborators Mesh Discr Conn Refiner PeerLists).
Variable chk : Z -> Discr -> IterState.
Variables (maxiter : Z) (tol : Q).
Hypothesis chk_quiet : forall n d, quiet (it_events (chk n d)).
Hypothesis chk_niter : forall n n' d,
  it_violated (chk n d) = it_violated (chk n' d).

Variable body : LoopState Discr Conn Refiner -> LoopState Discr Conn Refiner.
Hypothesis body_def : forall st,
  body st = apply_iteration E (chk (niter st) (cur_discr st)) st.

Lemma pass_niter (st : LoopState Discr Conn Refiner) :
  niter (body (begin_pass st)) = niter st + 1.
Proof.
  rewrite body_def. unfold apply_iteration. cbn.
  destruct (it_violated _); reflexivity.
Qed.

Lemma pass_ivc (st : LoopState Discr Conn Refiner) :
  iter_violated_criteria (body (begin_pass st))
  = it_violated (chk (niter st + 1) (cur_discr st)).
Proof.
  rewrite body_def. unfold apply_iteration. cbn.
  destruct (it_violated _); reflexivity.
Qed.

Lemma pass_converged (st : LoopState Discr Conn Refiner) :
  iter_violated_criteria (body (begin_pass st)) = [] ->
  connections (body (begin_pass st)) = connections st
  /\ violated_criteria (body (begin_pass st)) = violated_criteria st
  /\ cur_discr (body (begin_pass st)) = cur_discr st
  /\ cur_refiner (body (begin_pass st)) = cur_refiner st
  /\ trace (body (begin_pass st))
     = trace st ++ it_events (chk (niter st + 1) (cur_discr st)).
Proof.
  rewrite pass_ivc, body_def. unfold apply_iteration. cbn.
  intros ->. cbn. auto.
Qed.

Lemma pass_violated (st : LoopState Discr Conn Refiner) :
  iter_violated_criteria (body (begin_pass st)) <> [] ->
  let it := chk (niter st + 1) (cur_discr st) in
  let refiner' :=
    refiner_refine E (cur_refiner st) (astype_bool (it_flags it)) in
  let conn := make_refinement_connection E refiner' (cur_discr st) in
  connections (body (begin_pass st)) = connections st ++ [conn]
  /\ violated_criteria (body (begin_pass st))
     = violated_criteria st ++ [join_and (it_violated it)]
  /\ cur_discr (body (begin_pass st)) = to_discr E conn
  /\ cur_refiner (body (begin_pass st)) = refiner'
  /\ trace (body (begin_pass st))
     = trace st ++ it_events it ++ [EvRefine (astype_bool (it_flags it))].
Proof.
  rewrite pass_ivc, body_def. unfold apply_iteration. cbn.
  destruct (it_violated _) eqn:Hv; [congruence|]. intros _. cbn.
  auto.
Qed.

Lemma loop_invariant_initial (d0 : Discr) (r : Refiner) :
  loop_invariant (to_discr E) d0 (initial_state d0 r).
Proof. repeat split. Qed.

Lemma loop_invariant_pass (d0 : Discr) (st : LoopState Discr Conn Refiner) :
  loop_invariant (to_discr E) d0 st -> loop_invariant (to_discr E) d0 (body (begin_pass st)).
Proof.
  unfold loop_invariant. intros (Hvc & Hcount & Hwarn & Hdiscr).
  destruct (chk_quiet (niter st + 1) (cur_discr st)) as [Hqr Hqw].
  destruct (iter_violated_criteria (body (begin_pass st))) eqn:Hivc.
  - destruct (pass_converged st Hivc) as (-> & -> & -> & _ & ->).
    repeat split; auto.
    + rewrite count_events_app, Hqr. lia.
    + rewrite warned_app, Hwarn, Hqw. reflexivity.
  - assert (iter_violated_criteria (body (begin_pass st)) <> []) as Hne by congruence.
    destruct (pass_violated st Hne) as (-> & -> & -> & _ & ->).
    repeat split.
    + rewrite !length_app, Hvc. reflexivity.
    + rewrite !count_events_app, Hqr, length_app, Hcount. reflexivity.
    + rewrite !warned_app, Hwarn, Hqw. reflexivity.
    + rewrite last_discr_snoc. reflexivity.
Qed.

Lemma loop_invariant_after_passes (d0 : Discr) (r : Refiner) (n : nat) :
  loop_invariant (to_discr E) d0 (after_passes body (initial_state d0 r) n).
Proof.
  induction n as [|n IH]; [apply loop_invariant_initial|].
  apply (loop_invariant_pass d0 _ IH).
Qed.

Lemma after_passes_niter (init : LoopState Discr Conn Refiner) (n : nat) :
  niter (after_passes body init n) = niter init + Z.of_nat n.
Proof.
  induction n as [|n IH]; [cbn; lia|].
  change (after_passes body init (S n)) with (body (begin_pass (after_passes body init n))).
  rewrite pass_niter, IH. lia.
Qed.

Lemma after_passes_S (init : LoopState Discr Conn Refiner) (n : nat) :
  after_passes body init (S n) = body (begin_pass (after_passes body init n)).
Proof. reflexivity. Qed.

Lemma while_violated_done (fuel : nat) (st : LoopState Discr Conn Refiner) :
  iter_violated_criteria st = [] ->
  while_violated body maxiter tol fuel st = Some st.
Proof. intros Hst. destruct fuel; cbn; rewrite Hst; reflexivity. Qed.

(** With more fuel than the cap leaves passes, the loop is its unrolling. *)
Lemma while_violated_unrolled (fuel : nat)
    (st : LoopState Discr Conn Refiner) :
  iter_violated_criteria st <> [] ->
  (Z.to_nat (maxiter - niter st) < fuel)%nat ->
  while_violated body maxiter tol fuel st
  = Some (unrolled body tol (Z.to_nat (maxiter - niter st)) st).
Proof.
  revert st. induction fuel as [|fuel IH]; intros st Hne Hfuel; [lia|].
  cbn [while_violated].
  destruct (iter_violated_criteria st) eqn:Hivc; [congruence|].
  change (niter (begin_pass st)) with (niter st + 1).
  destruct (Z.gtb_spec (niter st + 1) maxiter) as [Hgt|Hle].
  - replace (Z.to_nat (maxiter - niter st)) with 0%nat by lia.
    reflexivity.
  - replace (Z.to_nat (maxiter - niter st))
      with (S (Z.to_nat (maxiter - (niter st + 1)))) by lia.
    cbn [unrolled].
    destruct (iter_violated_criteria (body (begin_pass st))) eqn:Hnext.
    + apply while_violated_done, Hnext.
    + rewrite <- (pass_niter st). apply IH.
      * congruence.
      * rewrite pass_niter. lia.
Qed.

(** The unrolled loop started after [k] passes stops after some pass [N]:
    at the cap, with a warning, or at the first pass that finds nothing
    violated. *)
Lemma unrolled_cases (init : LoopState Discr Conn Refiner) (b k : nat) :
  exists N : nat,
    (k <= N <= k + b)%nat
    /\ (forall j, (k < j <= N)%nat ->
          iter_violated_criteria (after_passes body init j) <> [])
    /\ ((N = (k + b)%nat
         /\ unrolled body tol b (after_passes body init k)
            = warn_and_break tol (begin_pass (after_passes body init N)))
        \/ ((N < k + b)%nat
            /\ iter_violated_criteria (after_passes body init (S N)) = []
            /\ unrolled body tol b (after_passes body init k)
               = after_passes body init (S N))).
Proof.
  revert k. induction b as [|b IH]; intros k.
  - exists k. split; [lia|]. split; [intros j Hj; lia|].
    left. split; [lia|]. reflexivity.
  - cbn [unrolled]. rewrite <- after_passes_S.
    destruct (iter_violated_criteria (after_passes body init (S k))) eqn:Hk.
    + exists k. split; [lia|]. split; [intros j Hj; lia|].
      right. split; [lia|]. split; [exact Hk|reflexivity].
    + destruct (IH (S k)) as (N & HN & Hviol & Hexit).
      exists N. split; [lia|]. split.
      * intros j Hj. destruct (decide (j = S k)) as [->|Hne].
        -- congruence.
        -- apply Hviol. lia.
      * destruct Hexit as [[HNb Hw]|(HNb & Hc & Hu)].
        -- left. split; [lia|exact Hw].
        -- right. split; [lia|]. split; [exact Hc|exact Hu].
Qed.

(** Passes that all find a violation append one connection and one history
    entry each. *)
Lemma after_passes_violated (init : LoopState Discr Conn Refiner) (N : nat) :
  (forall j, (1 <= j <= N)%nat ->
     iter_violated_criteria (after_passes body init j) <> []) ->
  length (connections (after_passes body init N))
  = (length (connections init) + N)%nat
  /\ violated_criteria (after_passes body init N)
     = violated_criteria init
       ++ map (fun j => join_and
                 (iter_violated_criteria (after_passes body init j)))
            (seq 1 N).
Proof.
  induction N as [|N IH]; intros Hviol.
  - cbn. rewrite app_nil_r. split; [lia|reflexivity].
  - destruct IH as [IHc IHv]; [intros j Hj; apply Hviol; lia|].
    assert (iter_violated_criteria (after_passes body init (S N)) <> [])
      as Hne by (apply Hviol; lia).
    rewrite after_passes_S in Hne |- *.
    destruct (pass_violated _ Hne) as (Hc & Hv & _).
    rewrite Hc, Hv, length_app, IHc, IHv, seq_S, map_app, <- app_assoc.
    split; [cbn; lia|].
    cbn [map]. rewrite after_passes_S, pass_ivc. reflexivity.
Qed.

(** Once a pass finds nothing violated, no later pass would. *)
Lemma after_passes_stable (init : LoopState Discr Conn Refiner) (N m : nat) :
  iter_violated_criteria (after_passes body init (S N)) = [] ->
  iter_violated_criteria (after_passes body init (S N + m)) = []
  /\ cur_discr (after_passes body init (S N + m))
     = cur_discr (after_passes body init N).
Proof.
  intros Hc. induction m as [|m [IHi IHd]].
  - rewrite Nat.add_0_r. split; [exact Hc|].
    rewrite after_passes_S in Hc |- *.
    apply (pass_converged _ Hc).
  - replace (S N + S m)%nat with (S (S N + m)) by lia.
    assert (iter_violated_criteria (after_passes body init (S (S N + m))) = [])
      as Hnext.
    { rewrite after_passes_S, pass_ivc, IHd.
      rewrite after_passes_S, pass_ivc in Hc.
      rewrite <- Hc. apply chk_niter. }
    split; [exact Hnext|].
    rewrite after_passes_S in Hnext |- *.
    destruct (pass_converged _ Hnext) as (_ & _ & -> & _). exact IHd.
Qed.

(** The loop of an entry point always exits, in one of two ways. *)
Lemma loop_exit (d0 : Discr) (r : Refiner) :
  let init := initial_state d0 r in
  exists (N : nat) (st : LoopState Discr Conn Refiner),
    while_violated body maxiter tol (S (Z.to_nat maxiter)) init = Some st
    /\ (N <= Z.to_nat maxiter)%nat
    /\ (forall j, (1 <= j <= N)%nat ->
          iter_violated_criteria (after_passes body init j) <> [])
    /\ connections st = connections (after_passes body init N)
    /\ violated_criteria st = violated_criteria (after_passes body init N)
    /\ cur_discr st = cur_discr (after_passes body init N)
    /\ cur_refiner st = cur_refiner (after_passes body init N)
    /\ ((N = Z.to_nat maxiter
         /\ trace st
            = trace (after_passes body init N)
              ++ [EvWarn (violated_criteria st) tol])
        \/ ((N < Z.to_nat maxiter)%nat
            /\ iter_violated_criteria (after_passes body init (S N)) = []
            /\ st = after_passes body init (S N))).
Proof.
  intros init.
  assert (while_violated body maxiter tol (S (Z.to_nat maxiter)) init
          = Some (unrolled body tol (Z.to_nat maxiter) init)) as Hrun.
  { rewrite while_violated_unrolled.
    - cbn [init initial_state niter]. rewrite Z.sub_0_r. reflexivity.
    - discriminate.
    - cbn [init initial_state niter]. rewrite Z.sub_0_r. lia. }
  destruct (unrolled_cases init (Z.to_nat maxiter) 0)
    as (N & HN & Hviol & Hexit).
  change (after_passes body init 0) with init in Hexit.
  exists N, (unrolled body tol (Z.to_nat maxiter) init).
  split; [exact Hrun|]. split; [lia|].
  split; [intros j Hj; apply Hviol; lia|].
  destruct Hexit as [[HNb ->]|(HNb & Hc & ->)].
  - cbn [warn_and_break begin_pass connections violated_criteria cur_discr
         cur_refiner trace].
    repeat (split; [reflexivity|]). left. split; [lia|reflexivity].
  - rewrite after_passes_S in Hc |- *.
    destruct (pass_converged _ Hc) as (Hco & Hvc & Hd & Hr & _).
    repeat (split; [assumption|]). right.
    split; [lia|]. split; [exact Hc|reflexivity].
Qed.

Lemma loop_exit_capped (d0 : Discr) (r : Refiner) :
  exists st,
    while_violated body maxiter tol (S (Z.to_nat maxiter))
      (initial_state d0 r) = Some st
    /\ capped_loop_exit (to_discr E) body maxiter (initial_state d0 r) st
    /\ history_per_refinement body tol (initial_state d0 r) st.
Proof.
  destruct (loop_exit d0 r)
    as (N & st & Hrun & HN & Hviol & Hco & Hvc & Hd & _ & Hexit).
  set (init := initial_state d0 r) in *.
  exists st. split; [exact Hrun|].
  destruct (after_passes_violated init N Hviol) as [Hlen Hhist].
  cbn [init initial_state connections violated_criteria] in Hlen, Hhist.
  rewrite app_nil_l in Hhist.
  destruct (loop_invariant_after_passes d0 r N) as (_ & HcountN & HwarnN & HdN).
  fold init in HcountN, HwarnN, HdN.
  assert (count_events is_event_refine (trace st) = N
          /\ (warned (trace st) = true <-> N = Z.to_nat maxiter)
          /\ (forall vc tol', In (EvWarn vc tol') (trace st) ->
                vc = violated_criteria st /\ tol' = tol))
    as (Hcount & Hwarn & Hcarried).
  { destruct Hexit as [[HNb Htr]|(HNb & Hc & ->)].
    - rewrite Htr, count_events_app, warned_app, HcountN, HwarnN, Hlen.
      split; [cbn; lia|]. split; [cbn; tauto|].
      intros vc tol' Hin. apply in_app_or in Hin as [Hin|[[= <- <-]|[]]].
      + exfalso. assert (warned (trace (after_passes body init N)) = true)
          as Hw; [|congruence].
        apply existsb_exists. exists (EvWarn vc tol'). auto.
      + auto.
    - destruct (loop_invariant_after_passes d0 r (S N))
        as (_ & HcountS & HwarnS & _).
      fold init in HcountS, HwarnS.
      rewrite HcountS, HwarnS, Hco, Hlen.
      split; [reflexivity|]. split; [split; [discriminate|lia]|].
      intros vc tol' Hin. exfalso.
      assert (warned (trace (after_passes body init (S N))) = true)
        as Hw; [|congruence].
      apply existsb_exists. exists (EvWarn vc tol'). auto. }
  split.
  - unfold capped_loop_exit. cbv zeta. rewrite Hcount, Hco, Hlen.
    split; [reflexivity|]. split; [lia|]. split; [exact Hwarn|].
    split; [|split].
    + intros Hmax. rewrite Hwarn.
      destruct (Z.to_nat maxiter) as [|b] eqn:Hb; [lia|].
      cbn [criteria_violated_in_pass].
      destruct Hexit as [[HNb _]|(HNb & Hc & _)].
      * split; [intros _; apply Hviol; lia|intros _; exact HNb].
      * split; [lia|]. intros Hne. exfalso. apply Hne.
        replace (S b) with (S N + (b - N))%nat by lia.
        apply (after_passes_stable init N (b - N) Hc).
    + intros Hmax. apply Hwarn. lia.
    + rewrite Hd, HdN. reflexivity.
  - unfold history_per_refinement. rewrite Hcount, Hvc, Hhist, length_map,
      length_seq.
    split; [reflexivity|]. split; [|rewrite <- Hhist, <- Hvc; exact Hcarried].
    intros k entry Hk. apply list_lookup_fmap_Some in Hk as (j & -> & Hj).
    apply lookup_seq in Hj as [-> Hlt].
    cbn [criteria_violated_in_pass Nat.add].
    split; [apply Hviol; lia|reflexivity].
Qed.

End LoopFacts.

(** ** The criteria part of a pass *)

Section ChecksFacts.
Context {Mesh Discr Conn Refiner PeerLists : Type}.
Context (E : Collaborators Mesh Discr Conn Refiner PeerLists).

Lemma threshold_step_eq (a : Stage1.Args Refiner) (n : Z) (P : list Q)
    (T : Q) (criterion stage_name : string) (it : IterState) :
  Stage1.threshold_step a n P T criterion stage_name it
  = record_violation (Stage1.visualize a) n 1 criterion stage_name
      (any_over_threshold P T)
      (mkIter (it_violated it)
         (Threshold.check_element_prop_threshold P T (it_flags it)).1
         (it_events it ++ [EvCheckThreshold criterion])).
Proof.
  unfold Stage1.threshold_step. rewrite <- (threshold_result P T (it_flags it)).
  destruct (Threshold.check_element_prop_threshold P T (it_flags it)).
  reflexivity.
Qed.

Lemma disturbed_expansions_step_eq (a : Stage1.Args Refiner) (n : Z)
    (d : Discr) (it : IterState) :
  Stage1.disturbed_expansions_step E a n d it
  = match it_violated it with
    | [] =>
        let tree := build_tree_stage1 E d in
        record_violation (Stage1.visualize a) n 1
          "disturbed expansions" "disturbed-expansions"
          (has_disturbed_expansions E a d)
          (mkIter []
             (check_expansion_disks_undisturbed_by_sources E d tree
                (find_peer_lists E tree) (Stage1.the_tolerance a)
                (it_flags it)).1
             (it_events it ++
                [EvBuildTree; EvFindPeerLists; EvCheckExpansionDisks]))
    | _ :: _ => it
    end.
Proof.
  unfold Stage1.disturbed_expansions_step, has_disturbed_expansions.
  destruct (it_violated it) eqn:Hv; [|reflexivity]. cbv zeta.
  rewrite <- (disks_result E d _ _ (Stage1.the_tolerance a) (it_flags it)).
  destruct (check_expansion_disks_undisturbed_by_sources E d _ _ _ _).
  reflexivity.
Qed.

Lemma stage2_checks_eq (a : Stage2.Args Refiner) (d1 : Discr) (n : Z)
    (d : Discr) :
  Stage2.checks E a d1 n d
  = let tree := build_tree_stage2 E d1 d (_make_quad_stage2_discr E d) in
    record_violation (Stage2.visualize a) n 2
      "insufficient quadrature resolution" "quad-resolution"
      (has_insufficient_quad_resolution E d1 d)
      (mkIter []
         (check_sufficient_source_quadrature_resolution E d tree
            (find_peer_lists E tree) (make_empty_refine_flags E d)).1
         [EvMakeQuadStage2Discr; EvBuildTree; EvFindPeerLists;
          EvCheckQuadResolution]).
Proof.
  unfold Stage2.checks, has_insufficient_quad_resolution. cbv zeta.
  rewrite <- (quadres_result E d _ _ (make_empty_refine_flags E d)).
  destruct (check_sufficient_source_quadrature_resolution E d _ _ _).
  reflexivity.
Qed.

(** Unfolds the criteria part of a stage-1 pass into its cases. *)
Ltac stage1_cases a d :=
  unfold Stage1.checks, Stage1.kernel_length_scale_step,
    Stage1.curvature_step, stage1_verdict, violates_kernel_length_scale,
    violates_scaled_max_curv;
  rewrite disturbed_expansions_step_eq;
  destruct (Stage1.kernel_length_scale a) as [kls|],
           (Stage1.scaled_max_curvature_threshold a) as [thr|];
  rewrite ?threshold_step_eq; unfold record_violation;
  repeat match goal with
         | |- context [any_over_threshold ?P ?T] =>
             destruct (any_over_threshold P T)
         end;
  cbn [it_violated it_flags it_events app];
  rewrite ?threshold_step_eq; unfold record_violation;
  repeat match goal with
         | |- context [any_over_threshold ?P ?T] =>
             destruct (any_over_threshold P T)
         end;
  cbn [it_violated it_flags it_events app];
  destruct (has_disturbed_expansions E a d), (Stage1.visualize a);
  cbn [it_violated it_flags it_events app].

Lemma stage1_checks_violated (a : Stage1.Args Refiner) (n : Z) (d : Discr) :
  it_violated (Stage1.checks E a n d) = stage1_verdict E a d.
Proof. stage1_cases a d; reflexivity. Qed.

Lemma stage1_checks_quiet (a : Stage1.Args Refiner) (n : Z) (d : Discr) :
  quiet (it_events (Stage1.checks E a n d)).
Proof. stage1_cases a d; split; reflexivity. Qed.

Lemma stage2_checks_violated (a : Stage2.Args Refiner) (d1 : Discr) (n : Z)
    (d : Discr) :
  it_violated (Stage2.checks E a d1 n d) = stage2_verdict E d1 d.
Proof.
  rewrite stage2_checks_eq. unfold stage2_verdict, record_violation. cbv zeta.
  destruct (has_insufficient_quad_resolution E d1 d); reflexivity.
Qed.

Lemma stage2_checks_quiet (a : Stage2.Args Refiner) (d1 : Discr) (n : Z)
    (d : Discr) :
  quiet (it_events (Stage2.checks E a d1 n d)).
Proof.
  rewrite stage2_checks_eq. unfold record_violation. cbv zeta.
  destruct (has_insufficient_quad_resolution E d1 d), (Stage2.visualize a);
    split; reflexivity.
Qed.

Lemma stage1_verdict_sublist (a : Stage1.Args Refiner) (d : Discr) :
  sublist (stage1_verdict E a d) stage1_criteria.
Proof.
  unfold stage1_verdict, stage1_criteria.
  destruct (violates_kernel_length_scale E a d),
    (violates_scaled_max_curv E a d), (has_disturbed_expansions E a d);
    cbn; repeat constructor.
Qed.

(** C3. In a pass of the stage-1 loop on discretization [d], the tree is
    built, the peer lists are found and the Condition-1 check is run exactly
    when neither the kernel-length-scale check nor the curvature check has
    reported a violation in that pass (a check that is not configured
    reports none); each of these is done at most once per pass.  So
    Condition 1 can be evaluated in strictly fewer passes than the threshold
    criteria: with a kernel length scale of 1 on the line world, the
    threshold check runs in three passes and Condition 1 in one. *)
Theorem C3_tree_only_after_cheap_checks (a : Stage1.Args Refiner)
    (niter : Z) (d : Discr) :
  let it := Stage1.checks E a niter d in
  let cheap_checks_pass :=
    violates_kernel_length_scale E a d = false
    /\ violates_scaled_max_curv E a d = false in
  (violates_kernel_length_scale E a d = true
   <-> In "kernel length scale"%string (it_violated it))
  /\ (violates_scaled_max_curv E a d = true
      <-> In "curvature"%string (it_violated it))
  /\ (In EvBuildTree (it_events it) <-> cheap_checks_pass)
  /\ (In EvFindPeerLists (it_events it) <-> cheap_checks_pass)
  /\ (In EvCheckExpansionDisks (it_events it) <-> cheap_checks_pass)
  /\ (count_events is_event_build_tree (it_events it) <= 1)%nat
  /\ (count_events is_event_check_disks (it_events it) <= 1)%nat
  /\ (exists discr conn tr,
        Stage1.refine_qbx_stage1 Line.world Line.stage1_args_kls 0%nat
        = Some (discr, conn, tr)
        /\ count_events is_event_check_threshold tr = 3%nat
        /\ count_events is_event_check_disks tr = 1%nat).
Proof.
  cbv zeta. split_and!.
  1-7: stage1_cases a d; cbn;
    try lia; intuition (try discriminate; try congruence).
  eexists _, _, _. split; [vm_compute; reflexivity|]. split; reflexivity.
Qed.

End ChecksFacts.

(** ** The two loops *)

Lemma last_discr_cons {Discr Conn : Type} (to_discr : Conn -> Discr)
    (d0 : Discr) (c : Conn) (conns : list Conn) :
  last_discr to_discr d0 (c :: conns)
  = last_discr to_discr (to_discr c) conns.
Proof.
  unfold last_discr. destruct conns as [|c' conns]; [reflexivity|].
  rewrite last_cons_cons.
  destruct (last (c' :: conns)) eqn:Hl; [reflexivity|].
  apply last_None in Hl. discriminate.
Qed.

Lemma last_discr_app {Discr Conn : Type} (to_discr : Conn -> Discr)
    (d0 : Discr) (l1 l2 : list Conn) :
  last_discr to_discr d0 (l1 ++ l2)
  = last_discr to_discr (last_discr to_discr d0 l1) l2.
Proof.
  revert d0. induction l1 as [|c l1 IH]; intros d0; [reflexivity|].
  cbn [app]. rewrite !last_discr_cons. apply IH.
Qed.

Section DriverFacts.
Context {Mesh Discr Conn Refiner PeerLists : Type}.
Context (E : Collaborators Mesh Discr Conn Refiner PeerLists).

Lemma stage1_loop_exit (a : Stage1.Args Refiner) (d : Discr) :
  let init := initial_state d (Stage1.the_refiner E a d) in
  exists st,
    Stage1.run_loop E a d = Some st
    /\ capped_loop_exit (to_discr E) (Stage1.body E a)
         (Stage1.the_maxiter a) init st
    /\ history_per_refinement (Stage1.body E a) (Stage1.the_tolerance a)
         init st.
Proof.
  apply loop_exit_capped with (chk := Stage1.checks E a).
  - intros n d'. apply stage1_checks_quiet.
  - intros n n' d'. rewrite !stage1_checks_violated. reflexivity.
  - reflexivity.
Qed.

Lemma stage2_loop_exit (a : Stage2.Args Refiner) (d : Discr) :
  let init := initial_state d (Stage2.the_refiner E a d) in
  exists st,
    Stage2.run_loop E a d = Some st
    /\ capped_loop_exit (to_discr E) (Stage2.body E a d)
         (Stage2.the_maxiter a) init st
    /\ history_per_refinement (Stage2.body E a d) (Stage2.the_tolerance a)
         init st.
Proof.
  apply loop_exit_capped with (chk := Stage2.checks E a d).
  - intros n d'. apply stage2_checks_quiet.
  - intros n n' d'. rewrite !stage2_checks_violated. reflexivity.
  - reflexivity.
Qed.

(** The forced rounds, whatever list drives them. *)
Lemma uniform_rounds_spec (a : Stage2.Args Refiner)
    (rounds : list nat) (st : LoopState Discr Conn Refiner) :
  let st' := foldl (Stage2.uniform_round E) st rounds in
  exists new : list Conn,
    connections st' = connections st ++ new
    /\ length new = length rounds
    /\ trace st'
       = trace st
         ++ map (fun d => EvRefine (replicate (nelements E (mesh E d)) true))
              (take (length rounds) (cur_discr st :: map (to_discr E) new))
    /\ cur_discr st' = last_discr (to_discr E) (cur_discr st) new
    /\ violated_criteria st' = violated_criteria st.
Proof.
  cbv zeta. revert st. induction rounds as [|round rounds IH]; intros st.
  - exists []. cbn. rewrite !app_nil_r. auto.
  - cbn [foldl].
    destruct (IH (Stage2.uniform_round E st round))
      as (new & Hc & Hlen & Htr & Hd & Hvc).
    set (c := make_refinement_connection E
                (refiner_refine E (cur_refiner st)
                   (replicate (nelements E (mesh E (cur_discr st))) true))
                (cur_discr st)) in *.
    exists (c :: new). rewrite Hc, Htr, Hd, Hvc. cbn.
    rewrite <- !app_assoc, last_discr_cons. cbn.
    rewrite Hlen. auto.
Qed.

(** The forced rounds one by one: the refiner each round starts from and the
    connection it makes. *)
Lemma uniform_rounds_steps (rounds : list nat)
    (st : LoopState Discr Conn Refiner) :
  let st' := foldl (Stage2.uniform_round E) st rounds in
  exists (new : list Conn) (refiners : list Refiner),
    connections st' = connections st ++ new
    /\ length new = length rounds
    /\ length refiners = S (length rounds)
    /\ refiners !! 0%nat = Some (cur_refiner st)
    /\ forall i d_i r_i,
         (i < length rounds)%nat ->
         (cur_discr st :: map (to_discr E) new) !! i = Some d_i ->
         refiners !! i = Some r_i ->
         refiners !! S i
         = Some (refiner_refine E r_i
                   (replicate (nelements E (mesh E d_i)) true))
         /\ new !! i
            = Some (make_refinement_connection E
                      (refiner_refine E r_i
                         (replicate (nelements E (mesh E d_i)) true))
                      d_i).
Proof.
  cbv zeta. revert st. induction rounds as [|round rounds IH]; intros st.
  - exists [], [cur_refiner st]. cbn. rewrite app_nil_r.
    split_and!; try reflexivity. intros i d_i r_i Hi. lia.
  - cbn [foldl].
    destruct (IH (Stage2.uniform_round E st round))
      as (new & refiners & Hc & Hlen & Hrl & Hr0 & Hstep).
    set (r' := refiner_refine E (cur_refiner st)
                 (replicate (nelements E (mesh E (cur_discr st))) true))
      in *.
    set (c := make_refinement_connection E r' (cur_discr st)) in *.
    exists (c :: new), (cur_refiner st :: refiners).
    split_and!.
    + rewrite Hc. cbn. rewrite <- app_assoc. reflexivity.
    + cbn. rewrite Hlen. reflexivity.
    + cbn. rewrite Hrl. reflexivity.
    + reflexivity.
    + intros [|i] d_i r_i Hi Hdi Hri.
      * cbn in Hdi, Hri. injection Hdi as <-. injection Hri as <-.
        cbn. split; [exact Hr0|reflexivity].
      * cbn in Hi. cbn [lookup list_lookup map] in Hdi, Hri |- *.
        apply Hstep; [lia|exact Hdi|exact Hri].
Qed.

(** A trace of forced rounds holds refinements only. *)
Lemma rounds_trace_counts (discrs : list Discr) :
  let rounds_trace :=
    map (fun d' => EvRefine (replicate (nelements E (mesh E d')) true))
      discrs in
  count_events is_event_refine rounds_trace = length discrs
  /\ count_events is_event_check rounds_trace = 0%nat.
Proof.
  cbv zeta. induction discrs as [|x l [IHr IHc]]; [split; reflexivity|].
  unfold count_events in *. split; cbn in *; lia.
Qed.

Lemma rounds_discrs_length (k : nat) (d0 : Discr) (new : list Conn) :
  length new = k ->
  length (take k (d0 :: map (to_discr E) new)) = k.
Proof.
  intros Hlen. rewrite length_take. cbn [length]. rewrite length_map. lia.
Qed.

Lemma stage1_pass_verdict (a : Stage1.Args Refiner) (d : Discr) (k : nat) :
  let init := initial_state d (Stage1.the_refiner E a d) in
  criteria_violated_in_pass (Stage1.body E a) init (S k)
  = stage1_verdict E a (cur_discr (after_passes (Stage1.body E a) init k)).
Proof.
  cbv zeta. cbn [criteria_violated_in_pass]. rewrite after_passes_S.
  rewrite (pass_ivc E (Stage1.checks E a) (Stage1.body E a)) by reflexivity.
  apply stage1_checks_violated.
Qed.

(** C1, as the code has it.  Both loops exit; the loop has then applied as
    many refinements as it collected connections, at most [max 0 maxiter] of
    them; for [maxiter >= 1] the warning is given exactly when pass number
    [maxiter] found a criterion violated, and for [maxiter <= 0] it is given
    unconditionally; the discretization the loop ends with is the target of
    the last connection (the input when there is none), and it is what
    stage 1 returns and what the forced rounds of stage 2 start from. *)
Theorem C1_loops_capped (a1 : Stage1.Args Refiner) (a2 : Stage2.Args Refiner)
    (d : Discr) :
  (exists st,
     Stage1.run_loop E a1 d = Some st
     /\ capped_loop_exit (to_discr E) (Stage1.body E a1)
          (Stage1.the_maxiter a1)
          (initial_state d (Stage1.the_refiner E a1 d)) st
     /\ Stage1.refine_qbx_stage1 E a1 d
        = Some (cur_discr st, mkChained (connections st) d, trace st))
  /\ (exists st,
        Stage2.run_loop E a2 d = Some st
        /\ capped_loop_exit (to_discr E) (Stage2.body E a2 d)
             (Stage2.the_maxiter a2)
             (initial_state d (Stage2.the_refiner E a2 d)) st
        /\ let st' := Stage2.uniform_rounds E a2 st in
           Stage2.refine_qbx_stage2 E a2 d
           = Some (cur_discr st', mkChained (connections st') d, trace st')
           /\ cur_discr st' = last_discr (to_discr E) d (connections st')
           /\ (Stage2.the_rounds a2 <= 0 -> st' = st)).
Proof.
  split.
  - destruct (stage1_loop_exit a1 d) as (st & Hrun & Hexit & _).
    exists st. split; [exact Hrun|]. split; [exact Hexit|].
    unfold Stage1.refine_qbx_stage1. rewrite Hrun. reflexivity.
  - destruct (stage2_loop_exit a2 d) as (st & Hrun & Hexit & _).
    exists st. split; [exact Hrun|]. split; [exact Hexit|].
    cbv zeta. split; [|split].
    + unfold Stage2.refine_qbx_stage2. rewrite Hrun. reflexivity.
    + unfold Stage2.uniform_rounds.
      destruct (uniform_rounds_spec a2 (seq 0 (Z.to_nat (Stage2.the_rounds a2)))
                  st) as (new & -> & _ & _ & -> & _).
      destruct Hexit as (_ & _ & _ & _ & _ & ->).
      rewrite last_discr_app. reflexivity.
    + intros Hk. unfold Stage2.uniform_rounds.
      replace (Z.to_nat (Stage2.the_rounds a2)) with 0%nat by lia.
      reflexivity.
Qed.

(** C6. With [force_stage2_uniform_refinement_rounds = k] (0 when the
    argument is not given), stage 2 applies, after its loop has exited,
    exactly [k] further refinements (none when [k] is negative).  Round [i]
    hands the refiner left by the round before it (by the loop, for the
    first round) a flag array with one [true] for every element of the mesh
    of the discretization current at that round, and builds its connection
    from that discretization with the refiner so refined; no checker is
    called in between; the connections of these rounds follow those of the
    loop in the chained connection that is returned, and the returned
    discretization is the target of the last of them. *)
Theorem C6_forced_uniform_rounds (a : Stage2.Args Refiner) (d : Discr)
    (k : Z) :
  default 0 (Stage2.force_stage2_uniform_refinement_rounds a) = k ->
  let n := Z.to_nat k in
  exists (st0 : LoopState Discr Conn Refiner) (new : list Conn)
         (refiners : list Refiner),
    Stage2.run_loop E a d = Some st0
    /\ Z.of_nat n = Z.max 0 k
    /\ length new = n
    /\ length refiners = S n
    /\ refiners !! 0%nat = Some (cur_refiner st0)
    /\ let discrs := cur_discr st0 :: map (to_discr E) new in
       (forall i d_i r_i,
          (i < n)%nat ->
          discrs !! i = Some d_i ->
          refiners !! i = Some r_i ->
          let every_element := replicate (nelements E (mesh E d_i)) true in
          let refined := refiner_refine E r_i every_element in
          refiners !! S i = Some refined
          /\ new !! i = Some (make_refinement_connection E refined d_i))
       /\ let rounds_trace :=
            map (fun d_i =>
                   EvRefine (replicate (nelements E (mesh E d_i)) true))
              (take n discrs) in
          Stage2.refine_qbx_stage2 E a d
          = Some (last_discr (to_discr E) (cur_discr st0) new,
                  mkChained (connections st0 ++ new) d,
                  trace st0 ++ rounds_trace)
          /\ length rounds_trace = n
          /\ count_events is_event_refine rounds_trace = n
          /\ count_events is_event_check rounds_trace = 0%nat.
Proof.
  intros Hk n.
  assert (Z.to_nat (Stage2.the_rounds a) = n) as Hrounds.
  { unfold Stage2.the_rounds. rewrite Hk. reflexivity. }
  destruct (stage2_loop_exit a d) as (st0 & Hrun & _ & _).
  destruct (uniform_rounds_spec a (seq 0 n) st0)
    as (new & Hc & Hlen & Htr & Hd & _).
  destruct (uniform_rounds_steps (seq 0 n) st0)
    as (new' & refiners & Hc' & Hlen' & Hrl & Hr0 & Hstep).
  rewrite Hc in Hc'. apply app_inv_head in Hc'. subst new'.
  rewrite length_seq in Hlen, Htr, Hrl, Hstep.
  exists st0, new, refiners.
  split_and!; try assumption.
  - unfold n. lia.
  - cbv zeta. split; [|split_and!].
    + intros i d_i r_i Hi Hdi Hri. exact (Hstep i d_i r_i Hi Hdi Hri).
    + unfold Stage2.refine_qbx_stage2, Stage2.uniform_rounds.
      rewrite Hrun, Hrounds, Hc, Htr, Hd. reflexivity.
    + rewrite length_map. apply rounds_discrs_length, Hlen.
    + destruct (rounds_trace_counts
                  (take n (cur_discr st0 :: map (to_discr E) new)))
        as [Hr _].
      rewrite Hr. apply rounds_discrs_length, Hlen.
    + apply rounds_trace_counts.
Qed.

(** C8. When the first pass finds no criterion violated, stage 1 returns
    the input discretization with a chained connection that has no steps and
    starts at that input; stage 2 does the same when, in addition, no forced
    round is asked for. *)
Theorem C8_no_violation_identity (a1 : Stage1.Args Refiner)
    (a2 : Stage2.Args Refiner) (d : Discr) :
  (it_violated (Stage1.checks E a1 1 d) = [] ->
   exists tr,
     Stage1.refine_qbx_stage1 E a1 d = Some (d, mkChained [] d, tr))
  /\ (it_violated (Stage2.checks E a2 d 1 d) = [] ->
      Stage2.the_rounds a2 = 0 ->
      exists tr,
        Stage2.refine_qbx_stage2 E a2 d = Some (d, mkChained [] d, tr)).
Proof.
  split.
  - intros Hok.
    destruct (loop_exit E (Stage1.checks E a1) (Stage1.the_maxiter a1)
                (Stage1.the_tolerance a1) (Stage1.body E a1)
                (fun _ => eq_refl) d (Stage1.the_refiner E a1 d))
      as (N & st & Hrun & _ & Hviol & Hco & _ & Hd & _).
    assert (N = 0%nat) as ->.
    { destruct N as [|N]; [reflexivity|]. exfalso.
      apply (Hviol 1%nat); [lia|]. rewrite after_passes_S.
      rewrite (pass_ivc E (Stage1.checks E a1)) by reflexivity.
      exact Hok. }
    cbn in Hco, Hd. unfold Stage1.refine_qbx_stage1, Stage1.run_loop,
      Stage1.loop. rewrite Hrun, Hco, Hd. eexists. reflexivity.
  - intros Hok Hk.
    destruct (loop_exit E (Stage2.checks E a2 d) (Stage2.the_maxiter a2)
                (Stage2.the_tolerance a2) (Stage2.body E a2 d)
                (fun _ => eq_refl) d (Stage2.the_refiner E a2 d))
      as (N & st & Hrun & _ & Hviol & Hco & _ & Hd & _).
    assert (N = 0%nat) as ->.
    { destruct N as [|N]; [reflexivity|]. exfalso.
      apply (Hviol 1%nat); [lia|]. rewrite after_passes_S.
      rewrite (pass_ivc E (Stage2.checks E a2 d)) by reflexivity.
      exact Hok. }
    cbn in Hco, Hd. unfold Stage2.refine_qbx_stage2, Stage2.run_loop,
      Stage2.loop, Stage2.uniform_rounds. rewrite Hrun, Hk.
    change (Z.to_nat 0) with 0%nat. cbn [seq foldl].
    rewrite Hco, Hd. eexists. reflexivity.
Qed.

(** C9, as the code has it.  With [maxiter <= 0] the first pass of either
    loop gives the warning, with an empty history, before any criterion is
    evaluated, and the loop applies no refinement.  Stage 1 then returns the
    input unchanged.  Stage 2 goes on to its forced rounds: it returns the
    input unchanged when none is asked for, and otherwise the warning is
    followed by those refinements and by nothing else. *)
Theorem C9_nonpositive_maxiter (a1 : Stage1.Args Refiner)
    (a2 : Stage2.Args Refiner) (d : Discr) :
  (Stage1.the_maxiter a1 <= 0 ->
   Stage1.refine_qbx_stage1 E a1 d
   = Some (d, mkChained [] d, [EvWarn [] (Stage1.the_tolerance a1)]))
  /\ (Stage2.the_maxiter a2 <= 0 ->
      Stage2.run_loop E a2 d
      = Some (mkLoop [] [] [] 1 d (Stage2.the_refiner E a2 d)
                [EvWarn [] (Stage2.the_tolerance a2)])
      /\ (Stage2.the_rounds a2 <= 0 ->
          Stage2.refine_qbx_stage2 E a2 d
          = Some (d, mkChained [] d, [EvWarn [] (Stage2.the_tolerance a2)]))
      /\ (exists discr conns tr,
            Stage2.refine_qbx_stage2 E a2 d
            = Some (discr, mkChained conns d,
                    EvWarn [] (Stage2.the_tolerance a2) :: tr)
            /\ length conns = Z.to_nat (Stage2.the_rounds a2)
            /\ count_events is_event_refine tr
               = Z.to_nat (Stage2.the_rounds a2)
            /\ count_events is_event_check tr = 0%nat)).
Proof.
  split.
  - intros Hmax. unfold Stage1.refine_qbx_stage1, Stage1.run_loop, Stage1.loop.
    cbn [while_violated initial_state iter_violated_criteria begin_pass niter].
    destruct (Z.gtb_spec (0 + 1) (Stage1.the_maxiter a1)); [reflexivity|lia].
  - intros Hmax.
    assert (Stage2.run_loop E a2 d
            = Some (mkLoop [] [] [] 1 d (Stage2.the_refiner E a2 d)
                      [EvWarn [] (Stage2.the_tolerance a2)])) as Hrun.
    { unfold Stage2.run_loop, Stage2.loop.
      cbn [while_violated initial_state iter_violated_criteria begin_pass
           niter].
      destruct (Z.gtb_spec (0 + 1) (Stage2.the_maxiter a2)); [reflexivity|lia]. }
    split; [exact Hrun|]. split.
    + intros Hk. unfold Stage2.refine_qbx_stage2, Stage2.uniform_rounds.
      rewrite Hrun. replace (Z.to_nat (Stage2.the_rounds a2)) with 0%nat by lia.
      reflexivity.
    + destruct (uniform_rounds_spec a2
                  (seq 0 (Z.to_nat (Stage2.the_rounds a2)))
                  (mkLoop [] [] [] 1 d (Stage2.the_refiner E a2 d)
                     [EvWarn [] (Stage2.the_tolerance a2)]))
        as (new & Hc & Hlen & Htr & _ & _).
      rewrite length_seq in Hlen, Htr.
      cbn [cur_discr connections trace app] in Hc, Htr.
      eexists _, new, _. split.
      * unfold Stage2.refine_qbx_stage2, Stage2.uniform_rounds.
        rewrite Hrun, Hc, Htr. reflexivity.
      * destruct (rounds_trace_counts
                    (take (Z.to_nat (Stage2.the_rounds a2))
                       (d :: map (to_discr E) new))) as [Hr Hchk].
        split; [exact Hlen|]. split; [|exact Hchk].
        rewrite Hr. apply rounds_discrs_length, Hlen.
Qed.

(** C10. When the stage-1 loop exits, its history has one entry per
    refinement applied; entry [k] is the names of the criteria that pass
    [k + 1] found violated, each followed by " and " except the last; these
    names are what the checks report for the discretization of that pass, a
    non-empty selection from "kernel length scale", "curvature", "disturbed
    expansions" in this order, so that the entry is one of "kernel length
    scale", "curvature", "kernel length scale and curvature" and "disturbed
    expansions"; and a warning in the trace carries exactly this history,
    hence one entry per refinement, and the tolerance. *)
Theorem C10_history_per_refinement (a : Stage1.Args Refiner) (d : Discr) :
  let init := initial_state d (Stage1.the_refiner E a d) in
  exists st,
    Stage1.run_loop E a d = Some st
    /\ Stage1.refine_qbx_stage1 E a d
       = Some (cur_discr st, mkChained (connections st) d, trace st)
    /\ length (violated_criteria st)
       = count_events is_event_refine (trace st)
    /\ (forall k entry,
          violated_criteria st !! k = Some entry ->
          let names := criteria_violated_in_pass (Stage1.body E a) init (S k) in
          let d_k := cur_discr (after_passes (Stage1.body E a) init k) in
          entry = join_and names
          /\ names <> []
          /\ names = stage1_verdict E a d_k
          /\ sublist names stage1_criteria
          /\ (In "kernel length scale"%string names
              <-> violates_kernel_length_scale E a d_k = true)
          /\ (In "curvature"%string names
              <-> violates_scaled_max_curv E a d_k = true)
          /\ (In "disturbed expansions"%string names
              <-> violates_kernel_length_scale E a d_k = false
                  /\ violates_scaled_max_curv E a d_k = false
                  /\ has_disturbed_expansions E a d_k = true)
          /\ ((names = ["kernel length scale"%string]
               /\ entry = "kernel length scale"%string)
              \/ (names = ["curvature"%string]
                  /\ entry = "curvature"%string)
              \/ (names = ["kernel length scale"%string; "curvature"%string]
                  /\ entry = "kernel length scale and curvature"%string)
              \/ (names = ["disturbed expansions"%string]
                  /\ entry = "disturbed expansions"%string)))
    /\ (forall name, join_and [name] = name)
    /\ (forall name name' names,
          join_and (name :: name' :: names)
          = (name ++ " and " ++ join_and (name' :: names))%string)
    /\ (forall vc tol,
          In (EvWarn vc tol) (trace st) ->
          vc = violated_criteria st
          /\ tol = Stage1.the_tolerance a
          /\ length vc = count_events is_event_refine (trace st)).
Proof.
  cbv zeta.
  destruct (stage1_loop_exit a d) as (st & Hrun & _ & Hlen & Hentry & Hwarn).
  exists st. split; [exact Hrun|]. split.
  { unfold Stage1.refine_qbx_stage1. rewrite Hrun. reflexivity. }
  split; [exact Hlen|]. split_and!.
  - intros k entry Hk. destruct (Hentry k entry Hk) as [Hne ->].
    rewrite stage1_pass_verdict in Hne |- *.
    split; [reflexivity|]. split; [exact Hne|].
    split; [reflexivity|]. split; [apply stage1_verdict_sublist|].
    unfold stage1_verdict in Hne |- *.
    destruct (violates_kernel_length_scale E a _),
      (violates_scaled_max_curv E a _), (has_disturbed_expansions E a _);
      cbn in Hne |- *; try congruence; split_and!;
      intuition (first [discriminate|eauto 10]).
  - intros name. cbn. reflexivity.
  - intros name name' names. reflexivity.
  - intros vc tol Hin. destruct (Hwarn vc tol Hin) as [-> ->]. auto.
Qed.

End DriverFacts.

(** ** The claims on the line world *)

Lemma C1_loops_capped_witness :
  exists st,
    Stage1.run_loop Line.world (Line.stage1_args 1) 0%nat = Some st
    /\ warned (trace st) = true.
Proof.
  destruct (proj1 (C1_loops_capped Line.world (Line.stage1_args 1)
                     (Line.stage2_args 1 0) 0%nat))
    as (st & Hrun & Hexit & _).
  exists st. split; [exact Hrun|].
  destruct Hexit as (_ & _ & _ & Hbound & _).
  apply Hbound; [vm_compute; discriminate|].
  vm_compute. discriminate.
Defined.

(** Two forced rounds on the line.  The loop ends on level 1 with the
    refiner at 1; the first round refines that refiner with two [true]
    flags and makes connection 2. *)
Lemma C6_forced_uniform_rounds_witness :
  exists new : list nat,
    length new = 2%nat
    /\ new !! 0%nat = Some 2%nat
    /\ Stage2.refine_qbx_stage2 Line.world (Line.stage2_args 10 2) 0%nat
       = Some (last_discr (fun c => c) 1%nat new,
               mkChained ([1%nat] ++ new) 0%nat,
               [EvMakeQuadStage2Discr; EvBuildTree; EvFindPeerLists;
                EvCheckQuadResolution; EvRefine [true];
                EvMakeQuadStage2Discr; EvBuildTree; EvFindPeerLists;
                EvCheckQuadResolution]
               ++ map (fun d_i => EvRefine (replicate (S d_i) true))
                    (take 2 (1%nat :: map (fun c => c) new))).
Proof.
  destruct (C6_forced_uniform_rounds Line.world (Line.stage2_args 10 2)
              0%nat 2 eq_refl)
    as (st0 & new & refiners & Hrun & _ & Hlen & _ & Hr0 & Hstep & Hres & _).
  vm_compute in Hrun. injection Hrun as <-.
  exists new. split; [exact Hlen|]. split; [|exact Hres].
  exact (proj2 (Hstep 0%nat 1%nat 1%nat ltac:(cbn; lia) eq_refl Hr0)).
Defined.

(** C1, as worded, fails for [maxiter <= 0].  With [maxiter = 0] on a
    discretization where no criterion is violated, the warning is given
    although no check was run and none would report anything; with
    [maxiter = -1] the number of refinements, zero, is above [maxiter]. *)
Lemma C1_counterexample :
  (exists st,
     Stage1.run_loop Line.world (Line.stage1_args 0) 1%nat = Some st
     /\ ~ claimed_loop_exit (Stage1.body Line.world (Line.stage1_args 0)) 0
            (initial_state 1%nat
               (Stage1.the_refiner Line.world (Line.stage1_args 0) 1%nat))
            st
     /\ warned (trace st) = true
     /\ count_events is_event_check (trace st) = 0%nat
     /\ stage1_verdict Line.world (Line.stage1_args 0) 1%nat = [])
  /\ (exists st,
        Stage1.run_loop Line.world (Line.stage1_args (-1)) 1%nat = Some st
        /\ ~ claimed_loop_exit
               (Stage1.body Line.world (Line.stage1_args (-1))) (-1)
               (initial_state 1%nat
                  (Stage1.the_refiner Line.world (Line.stage1_args (-1))
                     1%nat))
               st).
Proof.
  split.
  - eexists. split; [vm_compute; reflexivity|]. split; [|split; [|split]].
    + intros [_ [Hwarn _]]. apply Hwarn; reflexivity.
    + reflexivity.
    + reflexivity.
    + vm_compute. reflexivity.
  - eexists. split; [vm_compute; reflexivity|].
    intros [Hle _]. vm_compute in Hle. apply Hle. reflexivity.
Qed.

Lemma C8_no_violation_identity_witness :
  exists tr,
    Stage1.refine_qbx_stage1 Line.world (Line.stage1_args 10) 1%nat
    = Some (1%nat, mkChained [] 1%nat, tr).
Proof.
  apply (proj1 (C8_no_violation_identity Line.world (Line.stage1_args 10)
                  (Line.stage2_args 10 0) 1%nat)).
  vm_compute. reflexivity.
Defined.

Lemma C9_nonpositive_maxiter_witness :
  Stage1.refine_qbx_stage1 Line.world (Line.stage1_args 0) 0%nat
  = Some (0%nat, mkChained [] 0%nat, [EvWarn []
      default_expansion_disturbance_tolerance]).
Proof.
  apply (proj1 (C9_nonpositive_maxiter Line.world (Line.stage1_args 0)
                  (Line.stage2_args 0 0) 0%nat)).
  vm_compute. discriminate.
Defined.

(** C9, as worded, fails for stage 2 when forced rounds are asked for: with
    [maxiter = 0] and one forced round, a refinement is applied after the
    warning and the discretization returned is not the input. *)
Lemma C9_counterexample :
  Stage2.the_maxiter (Line.stage2_args 0 1) <= 0
  /\ Stage2.refine_qbx_stage2 Line.world (Line.stage2_args 0 1) 0%nat
     = Some (1%nat, mkChained [1%nat] 0%nat,
             [EvWarn []
                 default_expansion_disturbance_tolerance; EvRefine [true]])
  /\ ~ (exists tr,
          Stage2.refine_qbx_stage2 Line.world (Line.stage2_args 0 1) 0%nat
          = Some (0%nat, mkChained [] 0%nat, tr)).
Proof.
  split; [vm_compute; discriminate|]. split; [vm_compute; reflexivity|].
  intros [tr Htr]. vm_compute in Htr. discriminate.
Qed.

Lemma C10_history_per_refinement_witness :
  exists st,
    Stage1.run_loop Line.world (Line.stage1_args_both 2) 0%nat = Some st
    /\ violated_criteria st
       = ["kernel length scale and curvature"%string;
          "kernel length scale and curvature"%string]
    /\ join_and ["kernel length scale"%string; "curvature"%string]
       = "kernel length scale and curvature"%string
    /\ count_events is_event_refine (trace st) = 2%nat.
Proof.
  destruct (C10_history_per_refinement Line.world (Line.stage1_args_both 2)
              0%nat)
    as (st & Hrun & _ & Hlen & _ & _ & Hjoin & _).
  exists st. split; [exact Hrun|].
  vm_compute in Hrun. injection Hrun as <-.
  split; [reflexivity|]. split; [|reflexivity].
  rewrite Hjoin. reflexivity.
Defined.

(** * Further properties of the loops and the checkers *)

(** ** A rule for the capped loop *)

Section LoopRule.
Context {Mesh Discr Conn Refiner PeerLists : Type}.
Context (E : Collaborators Mesh Discr Conn Refiner PeerLists).
Variable chk : Z -> Discr -> IterState.
Variables (maxiter : Z) (tol : Q).
Variable body : LoopState Discr Conn Refiner -> LoopState Discr Conn Refiner.
Hypothesis body_def : forall st,
  body st = apply_iteration E (chk (niter st) (cur_discr st)) st.
Variable I : LoopState Discr Conn Refiner -> Prop.

(** A property that holds at the start and is kept by every pass that the
    loop enters holds at the exit: either before the warning, or after a
    pass that found nothing violated. *)
Lemma loop_rule (d0 : Discr) (r : Refiner) :
  I (initial_state d0 r) ->
  (forall st, I st -> iter_violated_criteria st <> [] ->
     I (body (begin_pass st))) ->
  forall st,
    while_violated body maxiter tol (S (Z.to_nat maxiter))
      (initial_state d0 r) = Some st ->
    exists st0,
      I st0 /\ iter_violated_criteria st0 <> []
      /\ (st = warn_and_break tol (begin_pass st0)
          \/ (st = body (begin_pass st0)
              /\ I st /\ iter_violated_criteria st = [])).
Proof.
  intros Hinit Hstep st Hrun.
  set (init := initial_state d0 r) in *.
  rewrite (while_violated_unrolled E chk maxiter tol body body_def) in Hrun.
  2: discriminate.
  2: { cbn [init initial_state niter]. rewrite Z.sub_0_r. lia. }
  injection Hrun as <-.
  cbn [init initial_state niter]. rewrite Z.sub_0_r. fold init.
  destruct (unrolled_cases tol body init (Z.to_nat maxiter) 0)
    as (N & HN & Hviol & Hexit).
  change (after_passes body init 0) with init in Hexit.
  assert (forall j, (j <= N)%nat ->
            I (after_passes body init j)
            /\ iter_violated_criteria (after_passes body init j) <> [])
    as Hall.
  { induction j as [|j IH]; intros Hj.
    - split; [exact Hinit|discriminate].
    - destruct IH as [IHi IHv]; [lia|].
      split; [|apply Hviol; lia].
      rewrite after_passes_S. apply Hstep; assumption. }
  destruct (Hall N) as [HI Hne]; [lia|].
  exists (after_passes body init N). split; [exact HI|]. split; [exact Hne|].
  destruct Hexit as [[_ ->]|(_ & Hc & ->)].
  - left. reflexivity.
  - right. rewrite after_passes_S in Hc |- *.
    split; [reflexivity|]. split; [|exact Hc].
    apply Hstep; assumption.
Qed.

End LoopRule.

(** ** A run without warning ends on a discretization that passes *)

Lemma any_over_threshold_false (P : list Q) (T : Q) :
  any_over_threshold P T = false ->
  forall e p, P !! e = Some p -> (p <= T)%Q.
Proof.
  intros Hnone e p He. apply Qnot_lt_le. intros Hlt.
  assert (any_over_threshold P T = true) as Hsome; [|congruence].
  apply any_over_threshold_spec. exists e.
  apply over_threshold_spec. eauto.
Qed.

Lemma existsb_seq_false (hit : nat -> bool) (n : nat) :
  existsb hit (seq 0 n) = false ->
  forall i, (i < n)%nat -> hit i = false.
Proof.
  intros Hnone i Hi. destruct (hit i) eqn:Hh; [|reflexivity].
  assert (existsb hit (seq 0 n) = true) as Hsome; [|congruence].
  apply existsb_exists. exists i. split; [apply in_seq; lia|exact Hh].
Qed.

Lemma warned_warn_and_break {Discr Conn Refiner : Type} (tol : Q)
    (st : LoopState Discr Conn Refiner) :
  warned (trace (warn_and_break tol st)) = true.
Proof.
  cbn [warn_and_break trace]. rewrite warned_app. cbn.
  apply orb_true_r.
Qed.

Section Convergence.
Context {Mesh Discr Conn Refiner PeerLists : Type}.
Context (E : Collaborators Mesh Discr Conn Refiner PeerLists).

Lemma stage1_verdict_nil (a : Stage1.Args Refiner) (d : Discr) :
  stage1_verdict E a d = [] ->
  violates_kernel_length_scale E a d = false
  /\ violates_scaled_max_curv E a d = false
  /\ has_disturbed_expansions E a d = false.
Proof.
  unfold stage1_verdict.
  destruct (violates_kernel_length_scale E a d),
    (violates_scaled_max_curv E a d), (has_disturbed_expansions E a d);
    cbn; intros H; try discriminate; auto.
Qed.

Lemma stage1_loop_without_warning (a : Stage1.Args Refiner) (d : Discr)
    (st : LoopState Discr Conn Refiner) :
  Stage1.run_loop E a d = Some st ->
  warned (trace st) = false ->
  stage1_verdict E a (cur_discr st) = [].
Proof.
  intros Hrun Hquiet.
  destruct (loop_rule E (Stage1.checks E a) (Stage1.the_maxiter a)
              (Stage1.the_tolerance a) (Stage1.body E a) (fun _ => eq_refl)
              (fun _ => True) d (Stage1.the_refiner E a d) I
              (fun _ _ _ => I) st Hrun)
    as (st0 & _ & _ & [->|(Hst & _ & Hnil)]).
  - rewrite warned_warn_and_break in Hquiet. discriminate.
  - rewrite Hst in Hnil |- *.
    destruct (pass_converged E (Stage1.checks E a) (Stage1.body E a)
                (fun _ => eq_refl) st0 Hnil) as (_ & _ & -> & _).
    rewrite (pass_ivc E (Stage1.checks E a)) in Hnil by reflexivity.
    rewrite stage1_checks_violated in Hnil. exact Hnil.
Qed.

Lemma stage2_loop_without_warning (a : Stage2.Args Refiner) (d : Discr)
    (st : LoopState Discr Conn Refiner) :
  Stage2.run_loop E a d = Some st ->
  warned (trace st) = false ->
  stage2_verdict E d (cur_discr st) = [].
Proof.
  intros Hrun Hquiet.
  destruct (loop_rule E (Stage2.checks E a d) (Stage2.the_maxiter a)
              (Stage2.the_tolerance a) (Stage2.body E a d) (fun _ => eq_refl)
              (fun _ => True) d (Stage2.the_refiner E a d) I
              (fun _ _ _ => I) st Hrun)
    as (st0 & _ & _ & [->|(Hst & _ & Hnil)]).
  - rewrite warned_warn_and_break in Hquiet. discriminate.
  - rewrite Hst in Hnil |- *.
    destruct (pass_converged E (Stage2.checks E a d) (Stage2.body E a d)
                (fun _ => eq_refl) st0 Hnil) as (_ & _ & -> & _).
    rewrite (pass_ivc E (Stage2.checks E a d)) in Hnil by reflexivity.
    rewrite stage2_checks_violated in Hnil. exact Hnil.
Qed.

(** X1. When [refine_qbx_stage1] finishes without the non-convergence
    warning, the discretization it returns passes every configured check:
    no element's quadrature resolution is above the kernel length scale, no
    element's scaled maximum curvature is above its threshold, and every
    source in the candidate boxes of a center lies strictly farther from it
    than the bound the kernel computes for [(1 - tol) * radius] with the
    device's rounded subtraction and multiplication. *)
Theorem X1_stage1_result_passes_checks (a : Stage1.Args Refiner)
    (d discr : Discr) (conn : ChainedDiscretizationConnection Discr Conn)
    (tr : list Event) :
  Stage1.refine_qbx_stage1 E a d = Some (discr, conn, tr) ->
  warned tr = false ->
  let tree := build_tree_stage1 E discr in
  let peer_lists := find_peer_lists E tree in
  let radii := expansion_radii E discr in
  let tol := Stage1.the_tolerance a in
  (forall kls e p,
     Stage1.kernel_length_scale a = Some kls ->
     quad_resolution E discr !! e = Some p -> (p <= kls)%Q)
  /\ (forall thr e p,
        Stage1.scaled_max_curvature_threshold a = Some thr ->
        scaled_max_curv E discr !! e = Some p -> (p <= thr)%Q)
  /\ (forall icenter source_idx,
        (icenter < nqbxcenters tree)%nat ->
        In source_idx
          (Condition1.candidate_source_idxs (tree_code E) tree peer_lists
             radii tol icenter) ->
        (coord_mul (tree_code E) (coord_sub (tree_code E) 1 tol)
           (radii !!! icenter)
         < distance (tree_code E)
             (load_center_particle (tree_code E) tree icenter)
             (load_source_particle (tree_code E) tree
                (box_to_qbx_source_lists tree !!! source_idx)))%Q).
Proof.
  unfold Stage1.refine_qbx_stage1.
  destruct (Stage1.run_loop E a d) as [st|] eqn:Hrun; [|discriminate].
  intros [= <- <- <-] Hquiet. cbv zeta.
  pose proof (stage1_loop_without_warning a d st Hrun Hquiet) as Hv.
  apply stage1_verdict_nil in Hv as (Hk & Hc & Hd).
  split_and!.
  - intros kls e p Hkls. unfold violates_kernel_length_scale in Hk.
    rewrite Hkls in Hk. apply any_over_threshold_false, Hk.
  - intros thr e p Hthr. unfold violates_scaled_max_curv in Hc.
    rewrite Hthr in Hc. apply any_over_threshold_false, Hc.
  - intros icenter source_idx Hi Hin. apply Qnot_le_lt. intros Hle.
    unfold has_disturbed_expansions in Hd. cbv zeta in Hd.
    pose proof (existsb_seq_false _ _ Hd icenter Hi) as Hnot.
    assert (Condition1.disturbed (tree_code E)
              (build_tree_stage1 E (cur_discr st))
              (find_peer_lists E (build_tree_stage1 E (cur_discr st)))
              (expansion_radii E (cur_discr st)) (Stage1.the_tolerance a)
              icenter = true) as Hyes; [|congruence].
    apply cond1_disturbed_spec. eauto.
Qed.

(** X2. When the stage-2 loop ends without the warning, the discretization
    it ends on has sufficient quadrature resolution: every center in the
    candidate boxes of a source lies strictly farther from it than the
    danger-zone radius of the source's panel.  When no forced round is asked
    for, this is the discretization [refine_qbx_stage2] returns. *)
Theorem X2_stage2_result_passes_check (a : Stage2.Args Refiner)
    (d : Discr) (st : LoopState Discr Conn Refiner) :
  Stage2.run_loop E a d = Some st ->
  warned (trace st) = false ->
  let discr := cur_discr st in
  let tree := build_tree_stage2 E d discr (_make_quad_stage2_discr E discr) in
  let peer_lists := find_peer_lists E tree in
  let radii := source_danger_zone_radii E discr in
  (forall i center_idx,
     (i < nqbxsources tree)%nat ->
     In center_idx
       (Condition2.candidate_center_idxs (tree_code E) tree peer_lists
          radii i) ->
     (radii !!! Condition2.my_panel (tree_code E) tree i
      < distance (tree_code E)
          (load_source_particle (tree_code E) tree i)
          (load_center_particle (tree_code E) tree
             (box_to_qbx_center_lists tree !!! center_idx)))%Q)
  /\ (Stage2.the_rounds a <= 0 ->
      Stage2.refine_qbx_stage2 E a d
      = Some (discr, mkChained (connections st) d, trace st)).
Proof.
  intros Hrun Hquiet. cbv zeta. split.
  - intros i center_idx Hi Hin. apply Qnot_le_lt. intros Hle.
    pose proof (stage2_loop_without_warning a d st Hrun Hquiet) as Hv.
    unfold stage2_verdict in Hv.
    destruct (has_insufficient_quad_resolution E d (cur_discr st)) eqn:Hd;
      [discriminate|].
    unfold has_insufficient_quad_resolution in Hd. cbv zeta in Hd.
    pose proof (existsb_seq_false _ _ Hd i Hi) as Hnot.
    assert (Condition2.under_resolved (tree_code E)
              (build_tree_stage2 E d (cur_discr st)
                 (_make_quad_stage2_discr E (cur_discr st)))
              (find_peer_lists E
                 (build_tree_stage2 E d (cur_discr st)
                    (_make_quad_stage2_discr E (cur_discr st))))
              (source_danger_zone_radii E (cur_discr st)) i = true)
      as Hyes; [|congruence].
    apply cond2_under_resolved_spec. eauto.
  - intros Hk. unfold Stage2.refine_qbx_stage2, Stage2.uniform_rounds.
    rewrite Hrun. replace (Z.to_nat (Stage2.the_rounds a)) with 0%nat by lia.
    reflexivity.
Qed.

End Convergence.

Lemma X1_stage1_result_passes_checks_witness :
  Stage1.refine_qbx_stage1 Line.world Line.stage1_args_kls 0%nat
  = Some (2%nat, mkChained [1%nat; 2%nat] 0%nat,
          [EvCheckThreshold "kernel length scale"; EvRefine [true];
           EvCheckThreshold "kernel length scale"; EvRefine [true; true];
           EvCheckThreshold "kernel length scale"; EvBuildTree;
           EvFindPeerLists; EvCheckExpansionDisks])
  /\ (1 <= 1)%Q.
Proof.
  assert (Stage1.refine_qbx_stage1 Line.world Line.stage1_args_kls 0%nat
          = Some (2%nat, mkChained [1%nat; 2%nat] 0%nat,
                  [EvCheckThreshold "kernel length scale"; EvRefine [true];
                   EvCheckThreshold "kernel length scale";
                   EvRefine [true; true];
                   EvCheckThreshold "kernel length scale"; EvBuildTree;
                   EvFindPeerLists; EvCheckExpansionDisks])) as Hrun
    by (vm_compute; reflexivity).
  split; [exact Hrun|].
  exact (proj1 (X1_stage1_result_passes_checks Line.world
                  Line.stage1_args_kls 0%nat 2%nat _ _ Hrun eq_refl)
           1%Q 0%nat 1%Q eq_refl eq_refl).
Defined.

Lemma X2_stage2_result_passes_check_witness :
  exists st,
    Stage2.run_loop Line.world (Line.stage2_args 10 0) 0%nat = Some st
    /\ Stage2.refine_qbx_stage2 Line.world (Line.stage2_args 10 0) 0%nat
       = Some (cur_discr st, mkChained (connections st) 0%nat, trace st).
Proof.
  eexists. split; [vm_compute; reflexivity|].
  refine (proj2 (X2_stage2_result_passes_check Line.world
                   (Line.stage2_args 10 0) 0%nat _ _ _) _).
  - vm_compute. reflexivity.
  - reflexivity.
  - vm_compute. discriminate.
Defined.

(** ** The flags a pass hands to the refiner *)

Lemma record_violation_flags (visualize : bool) (niter stage_nr : Z)
    (criterion stage_name : string) (violates : bool) (it : IterState) :
  it_flags (record_violation visualize niter stage_nr criterion stage_name
              violates it)
  = it_flags it.
Proof. unfold record_violation. destruct violates; reflexivity. Qed.

Lemma record_violation_violated (visualize : bool) (niter stage_nr : Z)
    (criterion stage_name : string) (violates : bool) (it : IterState) :
  it_violated (record_violation visualize niter stage_nr criterion stage_name
                 violates it)
  = it_violated it ++ (if violates then [criterion] else []).
Proof.
  unfold record_violation. destruct violates; [reflexivity|].
  rewrite app_nil_r. reflexivity.
Qed.

Lemma astype_bool_lookup (flags : list Z) (e : nat) :
  astype_bool flags !! e = (fun z => negb (z =? 0)) <$> (flags !! e).
Proof. unfold astype_bool. apply list_lookup_fmap. Qed.

Section PassFlags.
Context {Mesh Discr Conn Refiner PeerLists : Type}.
Context (E : Collaborators Mesh Discr Conn Refiner PeerLists).

Lemma kernel_length_scale_step_flags (a : Stage1.Args Refiner) (n : Z)
    (d : Discr) (it : IterState) (e : nat) :
  it_flags (Stage1.kernel_length_scale_step E a n d it) !! e
  = if over_kernel_length_scale E a d e
    then (fun _ => 1) <$> (it_flags it !! e)
    else it_flags it !! e.
Proof.
  unfold Stage1.kernel_length_scale_step, over_kernel_length_scale.
  destruct (Stage1.kernel_length_scale a) as [kls|]; [|reflexivity].
  rewrite threshold_step_eq, record_violation_flags. cbn [it_flags].
  apply threshold_flags_lookup.
Qed.

Lemma kernel_length_scale_step_violated (a : Stage1.Args Refiner) (n : Z)
    (d : Discr) (it : IterState) :
  it_violated (Stage1.kernel_length_scale_step E a n d it)
  = it_violated it
    ++ (if violates_kernel_length_scale E a d
        then ["kernel length scale"%string] else []).
Proof.
  unfold Stage1.kernel_length_scale_step, violates_kernel_length_scale.
  destruct (Stage1.kernel_length_scale a) as [kls|].
  - rewrite threshold_step_eq, record_violation_violated. reflexivity.
  - rewrite app_nil_r. reflexivity.
Qed.

Lemma curvature_step_flags (a : Stage1.Args Refiner) (n : Z)
    (d : Discr) (it : IterState) (e : nat) :
  it_flags (Stage1.curvature_step E a n d it) !! e
  = if over_scaled_max_curv E a d e
    then (fun _ => 1) <$> (it_flags it !! e)
    else it_flags it !! e.
Proof.
  unfold Stage1.curvature_step, over_scaled_max_curv.
  destruct (Stage1.scaled_max_curvature_threshold a) as [thr|];
    [|reflexivity].
  rewrite threshold_step_eq, record_violation_flags. cbn [it_flags].
  apply threshold_flags_lookup.
Qed.

Lemma curvature_step_violated (a : Stage1.Args Refiner) (n : Z)
    (d : Discr) (it : IterState) :
  it_violated (Stage1.curvature_step E a n d it)
  = it_violated it
    ++ (if violates_scaled_max_curv E a d then ["curvature"%string] else []).
Proof.
  unfold Stage1.curvature_step, violates_scaled_max_curv.
  destruct (Stage1.scaled_max_curvature_threshold a) as [thr|].
  - rewrite threshold_step_eq, record_violation_violated. reflexivity.
  - rewrite app_nil_r. reflexivity.
Qed.

Lemma disturbed_expansions_step_flags (a : Stage1.Args Refiner) (n : Z)
    (d : Discr) (it : IterState) (e : nat) :
  it_flags (Stage1.disturbed_expansions_step E a n d it) !! e
  = match it_violated it with
    | [] =>
        if owns_disturbed_center E a d e
        then (fun _ => 1) <$> (it_flags it !! e)
        else it_flags it !! e
    | _ :: _ => it_flags it !! e
    end.
Proof.
  rewrite disturbed_expansions_step_eq.
  destruct (it_violated it); [|reflexivity]. cbv zeta.
  rewrite record_violation_flags. cbn [it_flags].
  apply disks_flags_lookup.
Qed.

Lemma stage1_checks_flags_lookup (a : Stage1.Args Refiner) (n : Z)
    (d : Discr) (e : nat) :
  it_flags (Stage1.checks E a n d) !! e
  = if stage1_flagged E a d e
    then (fun _ => 1) <$> (make_empty_refine_flags E d !! e)
    else make_empty_refine_flags E d !! e.
Proof.
  unfold Stage1.checks, stage1_flagged.
  rewrite disturbed_expansions_step_flags, curvature_step_violated,
    kernel_length_scale_step_violated, curvature_step_flags,
    kernel_length_scale_step_flags.
  cbn [it_violated it_flags app].
  destruct (violates_kernel_length_scale E a d),
    (violates_scaled_max_curv E a d), (over_kernel_length_scale E a d e),
    (over_scaled_max_curv E a d e), (owns_disturbed_center E a d e),
    (make_empty_refine_flags E d !! e); reflexivity.
Qed.

Lemma stage2_checks_flags_lookup (a : Stage2.Args Refiner) (d1 : Discr)
    (n : Z) (d : Discr) (e : nat) :
  it_flags (Stage2.checks E a d1 n d) !! e
  = if owns_under_resolved_source E d1 d e
    then (fun _ => 1) <$> (make_empty_refine_flags E d !! e)
    else make_empty_refine_flags E d !! e.
Proof.
  rewrite stage2_checks_eq. cbv zeta.
  rewrite record_violation_flags. cbn [it_flags].
  apply quadres_flags_lookup.
Qed.

Lemma make_empty_refine_flags_lookup (d : Discr) (e : nat) :
  (e < nelements E (mesh E d))%nat ->
  make_empty_refine_flags E d !! e = Some 0.
Proof. intros He. apply lookup_replicate_2, He. Qed.

Lemma flags_length_from_lookup (flags zeros : list Z) (M : nat -> bool) :
  (forall e, flags !! e
     = if M e then (fun _ => 1) <$> (zeros !! e) else zeros !! e) ->
  length flags = length zeros.
Proof.
  intros Hlookup.
  destruct (Nat.lt_trichotomy (length flags) (length zeros))
    as [Hlt|[Heq|Hgt]]; [|exact Heq|]; exfalso.
  - pose proof (Hlookup (length flags)) as H.
    rewrite (lookup_ge_None_2 flags) in H by lia.
    destruct (lookup_lt_is_Some_2 zeros (length flags) Hlt) as [z Hz].
    rewrite Hz in H. destruct (M (length flags)); discriminate.
  - pose proof (Hlookup (length zeros)) as H.
    rewrite (lookup_ge_None_2 zeros) in H by lia.
    destruct (lookup_lt_is_Some_2 flags (length zeros) Hgt) as [z Hz].
    rewrite Hz in H. destruct (M (length zeros)); discriminate.
Qed.

Lemma stage1_checks_flags_length (a : Stage1.Args Refiner) (n : Z)
    (d : Discr) :
  length (it_flags (Stage1.checks E a n d)) = nelements E (mesh E d).
Proof.
  rewrite (flags_length_from_lookup _ (make_empty_refine_flags E d)
             (stage1_flagged E a d)).
  - apply length_replicate.
  - intros e. apply stage1_checks_flags_lookup.
Qed.

Lemma stage2_checks_flags_length (a : Stage2.Args Refiner) (d1 : Discr)
    (n : Z) (d : Discr) :
  length (it_flags (Stage2.checks E a d1 n d)) = nelements E (mesh E d).
Proof.
  rewrite (flags_length_from_lookup _ (make_empty_refine_flags E d)
             (owns_under_resolved_source E d1 d)).
  - apply length_replicate.
  - intros e. apply stage2_checks_flags_lookup.
Qed.

End PassFlags.

Section PassFlagsProperties.
Context {Mesh Discr Conn Refiner PeerLists : Type}.
Context (E : Collaborators Mesh Discr Conn Refiner PeerLists).

Lemma over_kernel_length_scale_spec (a : Stage1.Args Refiner) (d : Discr)
    (e : nat) :
  over_kernel_length_scale E a d e = true
  <-> exists kls p,
        Stage1.kernel_length_scale a = Some kls
        /\ quad_resolution E d !! e = Some p /\ (kls < p)%Q.
Proof.
  unfold over_kernel_length_scale.
  destruct (Stage1.kernel_length_scale a) as [kls|].
  - rewrite over_threshold_spec. split.
    + intros (p & Hp & Hlt). eauto.
    + intros (kls' & p & [= <-] & Hp & Hlt). eauto.
  - split; [discriminate|]. intros (kls & p & Hk & _). discriminate.
Qed.

Lemma over_scaled_max_curv_spec (a : Stage1.Args Refiner) (d : Discr)
    (e : nat) :
  over_scaled_max_curv E a d e = true
  <-> exists thr p,
        Stage1.scaled_max_curvature_threshold a = Some thr
        /\ scaled_max_curv E d !! e = Some p /\ (thr < p)%Q.
Proof.
  unfold over_scaled_max_curv.
  destruct (Stage1.scaled_max_curvature_threshold a) as [thr|].
  - rewrite over_threshold_spec. split.
    + intros (p & Hp & Hlt). eauto.
    + intros (thr' & p & [= <-] & Hp & Hlt). eauto.
  - split; [discriminate|]. intros (thr & p & Hk & _). discriminate.
Qed.

Lemma marked_seq_spec (hit : nat -> bool) (target : nat -> nat) (n p : nat) :
  marked hit target (seq 0 n) p = true
  <-> exists i, (i < n)%nat /\ target i = p /\ hit i = true.
Proof.
  rewrite marked_spec. split.
  - intros (i & Hin & Hh & Ht). apply in_seq in Hin.
    exists i. split; [lia|auto].
  - intros (i & Hi & Ht & Hh). exists i. split; [apply in_seq; lia|auto].
Qed.

Lemma stage1_flags_bool_lookup (a : Stage1.Args Refiner) (n : Z)
    (d : Discr) (e : nat) :
  (e < nelements E (mesh E d))%nat ->
  it_flags (Stage1.checks E a n d) !! e
  = Some (if stage1_flagged E a d e then 1 else 0)
  /\ astype_bool (it_flags (Stage1.checks E a n d)) !! e
     = Some (stage1_flagged E a d e).
Proof.
  intros He.
  assert (it_flags (Stage1.checks E a n d) !! e
          = Some (if stage1_flagged E a d e then 1 else 0)) as Hflag.
  { rewrite stage1_checks_flags_lookup,
      (make_empty_refine_flags_lookup E d e He).
    destruct (stage1_flagged E a d e); reflexivity. }
  split; [exact Hflag|].
  rewrite astype_bool_lookup, Hflag.
  destruct (stage1_flagged E a d e); reflexivity.
Qed.

(** X3. The flag array a stage-1 pass ends with has one entry per element
    of the current mesh, each 0 or 1, and the boolean array made from it for
    the refiner is true exactly at the elements that the pass flags: those
    above the kernel length scale, those above the curvature threshold, and,
    only when no element is above either, those owning a disturbed
    center. *)
Theorem X3_stage1_pass_flags (a : Stage1.Args Refiner) (n : Z) (d : Discr) :
  let it := Stage1.checks E a n d in
  let tree := build_tree_stage1 E d in
  length (it_flags it) = nelements E (mesh E d)
  /\ length (astype_bool (it_flags it)) = nelements E (mesh E d)
  /\ (forall e, (e < nelements E (mesh E d))%nat ->
        it_flags it !! e = Some (if stage1_flagged E a d e then 1 else 0)
        /\ astype_bool (it_flags it) !! e = Some (stage1_flagged E a d e))
  /\ (forall e,
        stage1_flagged E a d e = true
        <-> (exists kls p,
               Stage1.kernel_length_scale a = Some kls
               /\ quad_resolution E d !! e = Some p /\ (kls < p)%Q)
            \/ (exists thr p,
                  Stage1.scaled_max_curvature_threshold a = Some thr
                  /\ scaled_max_curv E d !! e = Some p /\ (thr < p)%Q)
            \/ (violates_kernel_length_scale E a d = false
                /\ violates_scaled_max_curv E a d = false
                /\ exists icenter,
                     (icenter < nqbxcenters tree)%nat
                     /\ Condition1.center_panel (tree_code E) tree icenter = e
                     /\ Condition1.disturbed (tree_code E) tree
                          (find_peer_lists E tree) (expansion_radii E d)
                          (Stage1.the_tolerance a) icenter = true)).
Proof.
  cbv zeta. split_and!.
  - apply stage1_checks_flags_length.
  - unfold astype_bool. rewrite length_map. apply stage1_checks_flags_length.
  - intros e He. apply stage1_flags_bool_lookup, He.
  - intros e. unfold stage1_flagged.
    rewrite !orb_true_iff, !andb_true_iff, !negb_true_iff.
    rewrite over_kernel_length_scale_spec, over_scaled_max_curv_spec.
    unfold owns_disturbed_center. cbv zeta. rewrite marked_seq_spec.
    tauto.
Qed.

(** X4. The flag array a stage-2 pass ends with has one entry per element
    of the current stage-2 mesh, and the boolean array made from it is true
    exactly at the panels owning a source with a center within the panel's
    danger-zone radius. *)
Theorem X4_stage2_pass_flags (a : Stage2.Args Refiner) (d1 : Discr) (n : Z)
    (d : Discr) :
  let it := Stage2.checks E a d1 n d in
  let tree := build_tree_stage2 E d1 d (_make_quad_stage2_discr E d) in
  length (it_flags it) = nelements E (mesh E d)
  /\ (forall e, (e < nelements E (mesh E d))%nat ->
        astype_bool (it_flags it) !! e
        = Some (owns_under_resolved_source E d1 d e))
  /\ (forall e,
        owns_under_resolved_source E d1 d e = true
        <-> exists i,
              (i < nqbxsources tree)%nat
              /\ Condition2.my_panel (tree_code E) tree i = e
              /\ Condition2.under_resolved (tree_code E) tree
                   (find_peer_lists E tree) (source_danger_zone_radii E d)
                   i = true).
Proof.
  cbv zeta. split_and!.
  - apply stage2_checks_flags_length.
  - intros e He.
    rewrite astype_bool_lookup, stage2_checks_flags_lookup,
      (make_empty_refine_flags_lookup E d e He).
    destruct (owns_under_resolved_source E d1 d e); reflexivity.
  - intros e. unfold owns_under_resolved_source. cbv zeta.
    apply marked_seq_spec.
Qed.

(** X5. A stage-1 pass that records a violation hands the refiner at least
    one set flag, provided the property arrays have no more entries than the
    mesh has elements and every center's panel is an element of the mesh. *)
Theorem X5_stage1_violation_flags_an_element (a : Stage1.Args Refiner)
    (n : Z) (d : Discr) :
  let tree := build_tree_stage1 E d in
  (length (quad_resolution E d) <= nelements E (mesh E d))%nat ->
  (length (scaled_max_curv E d) <= nelements E (mesh E d))%nat ->
  (forall icenter, (icenter < nqbxcenters tree)%nat ->
     (Condition1.center_panel (tree_code E) tree icenter
      < nelements E (mesh E d))%nat) ->
  it_violated (Stage1.checks E a n d) <> [] ->
  exists e,
    (e < nelements E (mesh E d))%nat
    /\ astype_bool (it_flags (Stage1.checks E a n d)) !! e = Some true.
Proof.
  cbv zeta. intros Hq Hc Hp Hviol.
  rewrite stage1_checks_violated in Hviol.
  assert (exists e, (e < nelements E (mesh E d))%nat
                    /\ stage1_flagged E a d e = true) as (e & He & Hf).
  { unfold stage1_verdict in Hviol. unfold stage1_flagged.
    destruct (violates_kernel_length_scale E a d) eqn:Hvk.
    - unfold violates_kernel_length_scale in Hvk.
      destruct (Stage1.kernel_length_scale a) as [kls|] eqn:Hk;
        [|discriminate].
      apply any_over_threshold_spec in Hvk as (e & He).
      exists e. split.
      + apply over_threshold_spec in He as (p & Hlook & _).
        apply lookup_lt_Some in Hlook. lia.
      + unfold over_kernel_length_scale. rewrite Hk, He. reflexivity.
    - destruct (violates_scaled_max_curv E a d) eqn:Hvc.
      + unfold violates_scaled_max_curv in Hvc.
        destruct (Stage1.scaled_max_curvature_threshold a) as [thr|] eqn:Ht;
          [|discriminate].
        apply any_over_threshold_spec in Hvc as (e & He).
        exists e. split.
        * apply over_threshold_spec in He as (p & Hlook & _).
          apply lookup_lt_Some in Hlook. lia.
        * unfold over_scaled_max_curv. rewrite Ht, He.
          apply orb_true_iff. left. apply orb_true_r.
      + cbn [app] in Hviol.
        destruct (has_disturbed_expansions E a d) eqn:Hd; [|congruence].
        unfold has_disturbed_expansions in Hd. cbv zeta in Hd.
        apply existsb_exists in Hd as (c & Hin & Hdist).
        apply in_seq in Hin.
        exists (Condition1.center_panel (tree_code E)
                  (build_tree_stage1 E d) c).
        split; [apply Hp; lia|].
        apply orb_true_iff. right. cbn [negb andb].
        unfold owns_disturbed_center. cbv zeta. apply marked_seq_spec.
        exists c. split; [lia|auto]. }
  exists e. split; [exact He|].
  destruct (stage1_flags_bool_lookup a n d e He) as [_ ->].
  rewrite Hf. reflexivity.
Qed.

End PassFlagsProperties.

(** ** What the trace says about the connections *)

Lemma refine_flags_of_app (t1 t2 : list Event) :
  refine_flags_of (t1 ++ t2) = refine_flags_of t1 ++ refine_flags_of t2.
Proof. apply flat_map_app. Qed.

Lemma refine_flags_of_quiet (events : list Event) :
  quiet events -> refine_flags_of events = [].
Proof.
  intros [Hcount _]. induction events as [|ev events IH]; [reflexivity|].
  unfold count_events in *.
  destruct ev; cbn in Hcount |- *; try (apply IH; exact Hcount).
  discriminate.
Qed.

Lemma connection_sources_cons {Discr Conn : Type} (to_discr : Conn -> Discr)
    (d0 : Discr) (c : Conn) (conns : list Conn) :
  connection_sources to_discr d0 (c :: conns)
  = d0 :: connection_sources to_discr (to_discr c) conns.
Proof. reflexivity. Qed.

Lemma connection_sources_snoc {Discr Conn : Type} (to_discr : Conn -> Discr)
    (d0 : Discr) (conns : list Conn) (c : Conn) :
  connection_sources to_discr d0 (conns ++ [c])
  = connection_sources to_discr d0 conns ++ [last_discr to_discr d0 conns].
Proof.
  revert d0. induction conns as [|c' conns IH]; intros d0; [reflexivity|].
  cbn [app]. rewrite !connection_sources_cons, IH, last_discr_cons.
  reflexivity.
Qed.

Lemma connection_sources_app {Discr Conn : Type} (to_discr : Conn -> Discr)
    (d0 : Discr) (l1 l2 : list Conn) :
  connection_sources to_discr d0 (l1 ++ l2)
  = connection_sources to_discr d0 l1
    ++ connection_sources to_discr (last_discr to_discr d0 l1) l2.
Proof.
  revert d0. induction l1 as [|c l1 IH]; intros d0; [reflexivity|].
  cbn [app]. rewrite !connection_sources_cons, IH, last_discr_cons.
  reflexivity.
Qed.

Section TraceFacts.
Context {Mesh Discr Conn Refiner PeerLists : Type}.
Context (E : Collaborators Mesh Discr Conn Refiner PeerLists).
Variable chk : Z -> Discr -> IterState.
Hypothesis chk_quiet : forall n d, quiet (it_events (chk n d)).
Hypothesis chk_length : forall n d,
  length (it_flags (chk n d)) = nelements E (mesh E d).
Variable body : LoopState Discr Conn Refiner -> LoopState Discr Conn Refiner.
Hypothesis body_def : forall st,
  body st = apply_iteration E (chk (niter st) (cur_discr st)) st.
Variables (d0 : Discr) (r0 : Refiner).

Lemma trace_invariant_initial : trace_invariant E d0 r0 (initial_state d0 r0).
Proof. split; [reflexivity|]. split; [constructor|reflexivity]. Qed.

Lemma trace_invariant_refined (st : LoopState Discr Conn Refiner)
    (events : list Event) (flags : list bool)
    (vc ivc : list string) (n : Z) :
  trace_invariant E d0 r0 st ->
  refine_flags_of events = [] ->
  length flags = nelements E (mesh E (cur_discr st)) ->
  let r' := refiner_refine E (cur_refiner st) flags in
  let c := make_refinement_connection E r' (cur_discr st) in
  trace_invariant E d0 r0
    (mkLoop (connections st ++ [c]) vc ivc n (to_discr E c) r'
       (trace st ++ events ++ [EvRefine flags])).
Proof.
  intros (Hreplay & Hfit & Hd) Hquiet Hlen. cbv zeta.
  unfold trace_invariant.
  cbn [trace connections cur_discr cur_refiner].
  rewrite !refine_flags_of_app, Hquiet. cbn [app refine_flags_of flat_map].
  split; [|split].
  - unfold replay in *. rewrite foldl_app, Hreplay. reflexivity.
  - rewrite connection_sources_snoc. apply Forall2_app; [exact Hfit|].
    constructor; [|constructor]. rewrite <- Hd. exact Hlen.
  - rewrite last_discr_snoc. reflexivity.
Qed.

Lemma trace_invariant_pass (st : LoopState Discr Conn Refiner) :
  trace_invariant E d0 r0 st ->
  trace_invariant E d0 r0 (body (begin_pass st)).
Proof.
  intros Hinv.
  pose proof (chk_quiet (niter st + 1) (cur_discr st)) as Hq.
  apply refine_flags_of_quiet in Hq.
  destruct (iter_violated_criteria (body (begin_pass st))) eqn:Hivc.
  - destruct Hinv as (Hreplay & Hfit & Hd).
    destruct (pass_converged E chk body body_def st Hivc)
      as (Hco & _ & Hdi & Hr & Htr).
    unfold trace_invariant.
    rewrite Htr, Hco, Hdi, Hr, refine_flags_of_app, Hq, app_nil_r. auto.
  - assert (iter_violated_criteria (body (begin_pass st)) <> [])
      as Hne by congruence.
    destruct (pass_violated E chk body body_def st Hne)
      as (Hco & _ & Hdi & Hr & Htr).
    pose proof (trace_invariant_refined st
                  (it_events (chk (niter st + 1) (cur_discr st)))
                  (astype_bool (it_flags (chk (niter st + 1) (cur_discr st))))
                  [] [] 0 Hinv Hq) as Hnew.
    cbv zeta in Hnew. unfold trace_invariant in Hnew |- *.
    cbn [trace connections cur_discr cur_refiner] in Hnew.
    rewrite Htr, Hco, Hdi, Hr. apply Hnew.
    unfold astype_bool. rewrite length_map. apply chk_length.
Qed.

Lemma trace_invariant_warn (tol : Q) (st : LoopState Discr Conn Refiner) :
  trace_invariant E d0 r0 st ->
  trace_invariant E d0 r0 (warn_and_break tol (begin_pass st)).
Proof.
  intros (Hreplay & Hfit & Hd). unfold trace_invariant.
  cbn [warn_and_break begin_pass trace connections cur_discr cur_refiner].
  rewrite refine_flags_of_app. cbn [refine_flags_of flat_map].
  rewrite app_nil_r. auto.
Qed.

Lemma trace_invariant_exit (maxiter : Z) (tol : Q)
    (st : LoopState Discr Conn Refiner) :
  while_violated body maxiter tol (S (Z.to_nat maxiter))
    (initial_state d0 r0) = Some st ->
  trace_invariant E d0 r0 st.
Proof.
  intros Hrun.
  destruct (loop_rule E chk maxiter tol body body_def
              (trace_invariant E d0 r0) d0 r0 trace_invariant_initial
              (fun st' Hst' _ => trace_invariant_pass st' Hst') st Hrun)
    as (st0 & Hinv & _ & [->|(_ & Hst & _)]).
  - apply trace_invariant_warn, Hinv.
  - exact Hst.
Qed.

Lemma trace_invariant_uniform_rounds (rounds : list nat)
    (st : LoopState Discr Conn Refiner) :
  trace_invariant E d0 r0 st ->
  trace_invariant E d0 r0 (foldl (Stage2.uniform_round E) st rounds).
Proof.
  revert st. induction rounds as [|round rounds IH]; intros st Hinv;
    [exact Hinv|].
  cbn [foldl]. apply IH. unfold Stage2.uniform_round. cbn.
  pose proof (trace_invariant_refined st []
                (replicate (nelements E (mesh E (cur_discr st))) true)
                (violated_criteria st) (iter_violated_criteria st)
                (niter st) Hinv eq_refl) as Hnew.
  cbv zeta in Hnew. cbn [app] in Hnew. apply Hnew.
  apply length_replicate.
Qed.

End TraceFacts.

Section TraceProperties.
Context {Mesh Discr Conn Refiner PeerLists : Type}.
Context (E : Collaborators Mesh Discr Conn Refiner PeerLists).

Lemma stage1_trace_invariant (a : Stage1.Args Refiner) (d : Discr)
    (st : LoopState Discr Conn Refiner) :
  Stage1.run_loop E a d = Some st ->
  trace_invariant E d (Stage1.the_refiner E a d) st.
Proof.
  apply trace_invariant_exit with (chk := Stage1.checks E a).
  - intros n d'. apply stage1_checks_quiet.
  - intros n d'. apply stage1_checks_flags_length.
  - reflexivity.
Qed.

Lemma stage2_trace_invariant (a : Stage2.Args Refiner) (d : Discr)
    (st : LoopState Discr Conn Refiner) :
  Stage2.run_loop E a d = Some st ->
  trace_invariant E d (Stage2.the_refiner E a d)
    (Stage2.uniform_rounds E a st).
Proof.
  intros Hrun. apply trace_invariant_uniform_rounds.
  revert Hrun. apply trace_invariant_exit with (chk := Stage2.checks E a d).
  - intros n d'. apply stage2_checks_quiet.
  - intros n d'. apply stage2_checks_flags_length.
  - reflexivity.
Qed.

(** X6. The connections a driver returns are exactly what the refiner calls
    recorded in its trace produce when replayed in order from the input
    discretization and the initial refiner: each call refines the refiner
    once and builds its connection from the discretization the call before
    it led to, and the discretization returned is the target of the last
    connection.  For stage 2 this includes the forced rounds. *)
Theorem X6_connections_replay_refiner_calls (a1 : Stage1.Args Refiner)
    (a2 : Stage2.Args Refiner) (d : Discr) :
  (forall discr conn tr,
     Stage1.refine_qbx_stage1 E a1 d = Some (discr, conn, tr) ->
     from_discr conn = d
     /\ discr = last_discr (to_discr E) d (chained_connections conn)
     /\ exists r',
          replay E d (Stage1.the_refiner E a1 d) (refine_flags_of tr)
          = (chained_connections conn, discr, r'))
  /\ (forall discr conn tr,
        Stage2.refine_qbx_stage2 E a2 d = Some (discr, conn, tr) ->
        from_discr conn = d
        /\ discr = last_discr (to_discr E) d (chained_connections conn)
        /\ exists r',
             replay E d (Stage2.the_refiner E a2 d) (refine_flags_of tr)
             = (chained_connections conn, discr, r')).
Proof.
  split; intros discr conn tr.
  - unfold Stage1.refine_qbx_stage1.
    destruct (Stage1.run_loop E a1 d) as [st|] eqn:Hrun; [|discriminate].
    intros [= <- <- <-].
    destruct (stage1_trace_invariant a1 d st Hrun) as (Hreplay & _ & Hd).
    cbn [from_discr chained_connections]. eauto.
  - unfold Stage2.refine_qbx_stage2.
    destruct (Stage2.run_loop E a2 d) as [st|] eqn:Hrun; [|discriminate].
    intros [= <- <- <-].
    destruct (stage2_trace_invariant a2 d st Hrun) as (Hreplay & _ & Hd).
    cbn [from_discr chained_connections]. eauto.
Qed.

(** X7. Every flag array a driver hands to the refiner has exactly one
    entry per element of the mesh of the discretization that is current at
    that call (the input for the first call, the target of the previous
    connection afterwards).  For stage 2 this includes the forced rounds. *)
Theorem X7_refine_flags_fit_mesh (a1 : Stage1.Args Refiner)
    (a2 : Stage2.Args Refiner) (d : Discr) :
  (forall discr conn tr,
     Stage1.refine_qbx_stage1 E a1 d = Some (discr, conn, tr) ->
     Forall2 (fun flags d' => length flags = nelements E (mesh E d'))
       (refine_flags_of tr)
       (connection_sources (to_discr E) d (chained_connections conn)))
  /\ (forall discr conn tr,
        Stage2.refine_qbx_stage2 E a2 d = Some (discr, conn, tr) ->
        Forall2 (fun flags d' => length flags = nelements E (mesh E d'))
          (refine_flags_of tr)
          (connection_sources (to_discr E) d (chained_connections conn))).
Proof.
  split; intros discr conn tr.
  - unfold Stage1.refine_qbx_stage1.
    destruct (Stage1.run_loop E a1 d) as [st|] eqn:Hrun; [|discriminate].
    intros [= <- <- <-].
    apply (stage1_trace_invariant a1 d st Hrun).
  - unfold Stage2.refine_qbx_stage2.
    destruct (Stage2.run_loop E a2 d) as [st|] eqn:Hrun; [|discriminate].
    intros [= <- <- <-].
    apply (stage2_trace_invariant a2 d st Hrun).
Qed.

End TraceProperties.

(** ** The warning and the number of passes *)

Section PassCounts.
Context {Mesh Discr Conn Refiner PeerLists : Type}.
Context (E : Collaborators Mesh Discr Conn Refiner PeerLists).
Variable chk : Z -> Discr -> IterState.
Variables (maxiter : Z) (tol : Q).
Hypothesis chk_quiet : forall n d, quiet (it_events (chk n d)).
Variable body : LoopState Discr Conn Refiner -> LoopState Discr Conn Refiner.
Hypothesis body_def : forall st,
  body st = apply_iteration E (chk (niter st) (cur_discr st)) st.
Variables (d0 : Discr) (r0 : Refiner).

(** The warning, when given, is the last event of the loop and carries the
    history as it stands. *)
Lemma loop_warning_last (st : LoopState Discr Conn Refiner) :
  while_violated body maxiter tol (S (Z.to_nat maxiter))
    (initial_state d0 r0) = Some st ->
  (warned (trace st) = false
   \/ exists tr0,
        trace st = tr0 ++ [EvWarn (violated_criteria st) tol]
        /\ warned tr0 = false).
Proof.
  intros Hrun.
  destruct (loop_rule E chk maxiter tol body body_def
              (loop_invariant (to_discr E) d0) d0 r0
              (loop_invariant_initial E d0 r0)
              (fun st' Hst' _ =>
                 loop_invariant_pass E chk chk_quiet body body_def d0 st' Hst')
              st Hrun)
    as (st0 & (_ & _ & Hw & _) & _ & [->|(_ & (_ & _ & Hw' & _) & _)]).
  - right. exists (trace st0). split; [reflexivity|exact Hw].
  - left. exact Hw'.
Qed.

Variable p : Event -> bool.
Hypothesis p_refine : forall flags, p (EvRefine flags) = false.
Hypothesis p_warn : forall vc t, p (EvWarn vc t) = false.

(** A kind of call made between [lo] and [hi] times per pass is made
    between [lo] and [hi] times the number of passes run. *)
Lemma loop_count_bounds (lo hi : nat) (st : LoopState Discr Conn Refiner) :
  (forall n d, (lo <= count_events p (it_events (chk n d)) <= hi)%nat) ->
  while_violated body maxiter tol (S (Z.to_nat maxiter))
    (initial_state d0 r0) = Some st ->
  (lo * passes_run st <= count_events p (trace st) <= hi * passes_run st)%nat.
Proof.
  intros Hper Hrun.
  set (I := fun s : LoopState Discr Conn Refiner =>
              loop_invariant (to_discr E) d0 s
              /\ let k := (length (connections s)
                           + match iter_violated_criteria s with
                             | [] => 1 | _ :: _ => 0 end)%nat in
                 (lo * k <= count_events p (trace s) <= hi * k)%nat).
  assert (I (initial_state d0 r0)) as Hinit.
  { split; [apply loop_invariant_initial|]. cbn. lia. }
  assert (forall s, I s -> iter_violated_criteria s <> [] ->
                    I (body (begin_pass s))) as Hstep.
  { intros s [Hinv Hk] Hne. cbv zeta in Hk.
    split; [apply (loop_invariant_pass E chk chk_quiet body body_def), Hinv|].
    cbv zeta. specialize (Hper (niter s + 1) (cur_discr s)).
    destruct (iter_violated_criteria s) as [|x l] eqn:Hs; [congruence|].
    destruct (iter_violated_criteria (body (begin_pass s))) eqn:Hivc.
    - destruct (pass_converged E chk body body_def s Hivc)
        as (-> & _ & _ & _ & ->).
      rewrite count_events_app. nia.
    - assert (iter_violated_criteria (body (begin_pass s)) <> [])
        as Hne' by congruence.
      destruct (pass_violated E chk body body_def s Hne')
        as (-> & _ & _ & _ & ->).
      rewrite !count_events_app, length_app.
      unfold count_events at 3 6. cbn [List.filter]. rewrite p_refine.
      cbn [length]. nia. }
  destruct (loop_rule E chk maxiter tol body body_def I d0 r0 Hinit Hstep
              st Hrun)
    as (st0 & [Hinv0 Hk0] & Hne0 & [->|(_ & [Hinv Hk] & Hnil)]).
  - unfold passes_run. rewrite warned_warn_and_break.
    cbn [warn_and_break begin_pass trace connections].
    rewrite count_events_app. unfold count_events at 2 4.
    cbn [List.filter]. rewrite p_warn. cbn [length]. cbv zeta in Hk0.
    destruct (iter_violated_criteria st0); [congruence|]. lia.
  - unfold passes_run. destruct Hinv as (_ & _ & -> & _).
    cbv zeta in Hk. rewrite Hnil in Hk. exact Hk.
Qed.

Variable q : Event -> bool.

(** A kind of call made no more often than another in every pass is made no
    more often over the whole loop. *)
Lemma loop_count_le (st : LoopState Discr Conn Refiner) :
  (forall n d, (count_events p (it_events (chk n d))
                <= count_events q (it_events (chk n d)))%nat) ->
  while_violated body maxiter tol (S (Z.to_nat maxiter))
    (initial_state d0 r0) = Some st ->
  (count_events p (trace st) <= count_events q (trace st))%nat.
Proof.
  intros Hper Hrun.
  set (I := fun s : LoopState Discr Conn Refiner =>
              (count_events p (trace s) <= count_events q (trace s))%nat).
  assert (I (initial_state d0 r0)) as Hinit by (unfold I; cbn; lia).
  assert (forall s, I s -> iter_violated_criteria s <> [] ->
                    I (body (begin_pass s))) as Hstep.
  { unfold I. intros s Hs _.
    specialize (Hper (niter s + 1) (cur_discr s)).
    destruct (iter_violated_criteria (body (begin_pass s))) eqn:Hivc.
    - destruct (pass_converged E chk body body_def s Hivc)
        as (_ & _ & _ & _ & ->).
      rewrite !count_events_app. lia.
    - assert (iter_violated_criteria (body (begin_pass s)) <> [])
        as Hne' by congruence.
      destruct (pass_violated E chk body body_def s Hne')
        as (_ & _ & _ & _ & ->).
      rewrite !count_events_app.
      unfold count_events at 3. cbn [List.filter]. rewrite p_refine.
      cbn [length]. lia. }
  destruct (loop_rule E chk maxiter tol body body_def I d0 r0 Hinit Hstep
              st Hrun)
    as (st0 & Hk0 & _ & [->|(_ & Hk & _)]).
  - unfold I in Hk0.
    cbn [warn_and_break begin_pass trace].
    rewrite !count_events_app. unfold count_events at 2. cbn [List.filter].
    rewrite p_warn. cbn [length]. lia.
  - exact Hk.
Qed.

End PassCounts.

(** Unfolds the criteria part of a stage-1 pass into its cases. *)
Ltac stage1_pass_cases E a d :=
  unfold Stage1.checks, Stage1.kernel_length_scale_step,
    Stage1.curvature_step, configured_thresholds;
  rewrite disturbed_expansions_step_eq;
  destruct (Stage1.kernel_length_scale a) as [?kls|],
           (Stage1.scaled_max_curvature_threshold a) as [?thr|];
  rewrite ?threshold_step_eq; unfold record_violation;
  repeat match goal with
         | |- context [any_over_threshold ?P ?T] =>
             destruct (any_over_threshold P T)
         end;
  cbn [it_violated it_flags it_events app];
  rewrite ?threshold_step_eq; unfold record_violation;
  repeat match goal with
         | |- context [any_over_threshold ?P ?T] =>
             destruct (any_over_threshold P T)
         end;
  cbn [it_violated it_flags it_events app];
  destruct (has_disturbed_expansions E a d), (Stage1.visualize a);
  cbn [it_violated it_flags it_events app].

Section PassCountProperties.
Context {Mesh Discr Conn Refiner PeerLists : Type}.
Context (E : Collaborators Mesh Discr Conn Refiner PeerLists).

Lemma stage1_pass_threshold_checks (a : Stage1.Args Refiner) (n : Z)
    (d : Discr) :
  count_events is_event_check_threshold (it_events (Stage1.checks E a n d))
  = configured_thresholds a.
Proof. stage1_pass_cases E a d; reflexivity. Qed.

Lemma stage1_pass_disks_checks (a : Stage1.Args Refiner) (n : Z) (d : Discr) :
  count_events is_event_check_disks (it_events (Stage1.checks E a n d))
  = count_events is_event_build_tree (it_events (Stage1.checks E a n d))
  /\ (count_events is_event_check_disks (it_events (Stage1.checks E a n d))
      <= 1)%nat.
Proof. stage1_pass_cases E a d; split; cbn; lia. Qed.

Lemma stage2_pass_checks (a : Stage2.Args Refiner) (d1 : Discr) (n : Z)
    (d : Discr) :
  count_events is_event_build_tree (it_events (Stage2.checks E a d1 n d))
  = 1%nat
  /\ count_events is_event_check (it_events (Stage2.checks E a d1 n d))
     = 1%nat.
Proof.
  rewrite stage2_checks_eq. unfold record_violation. cbv zeta.
  destruct (has_insufficient_quad_resolution E d1 d), (Stage2.visualize a);
    split; reflexivity.
Qed.

End PassCountProperties.

Section WarningProperties.
Context {Mesh Discr Conn Refiner PeerLists : Type}.
Context (E : Collaborators Mesh Discr Conn Refiner PeerLists).

Lemma rounds_trace_refine_only (discrs : list Discr) :
  let rounds_trace :=
    map (fun d' => EvRefine (replicate (nelements E (mesh E d')) true))
      discrs in
  Forall (fun e => is_event_refine e = true) rounds_trace
  /\ warned rounds_trace = false.
Proof.
  cbv zeta. induction discrs as [|x l [IHf IHw]]; [split; constructor|].
  split; [constructor; [reflexivity|exact IHf]|exact IHw].
Qed.

(** X8. The non-convergence warning is given at most once and is the last
    thing the loop does: in stage 1 nothing follows it, and in stage 2 only
    the refinements of the forced rounds follow it.  The history it carries,
    whose length the message reports as the number of iterations, has
    [max 0 maxiter] entries, as many as refinements were applied by the
    loop. *)
Theorem X8_warning_last_and_counts_maxiter (a1 : Stage1.Args Refiner)
    (a2 : Stage2.Args Refiner) (d : Discr) :
  (forall discr conn tr,
     Stage1.refine_qbx_stage1 E a1 d = Some (discr, conn, tr) ->
     warned tr = true ->
     exists tr0 vc,
       tr = tr0 ++ [EvWarn vc (Stage1.the_tolerance a1)]
       /\ warned tr0 = false
       /\ length vc = Z.to_nat (Stage1.the_maxiter a1)
       /\ length (chained_connections conn)
          = Z.to_nat (Stage1.the_maxiter a1))
  /\ (forall discr conn tr,
        Stage2.refine_qbx_stage2 E a2 d = Some (discr, conn, tr) ->
        warned tr = true ->
        exists tr0 vc rounds,
          tr = tr0 ++ EvWarn vc (Stage2.the_tolerance a2) :: rounds
          /\ warned tr0 = false
          /\ length vc = Z.to_nat (Stage2.the_maxiter a2)
          /\ Forall (fun e => is_event_refine e = true) rounds
          /\ length rounds = Z.to_nat (Stage2.the_rounds a2)).
Proof.
  split; intros discr conn tr.
  - unfold Stage1.refine_qbx_stage1.
    destruct (stage1_loop_exit E a1 d)
      as (st & Hrun & (Hn & _ & Hwarn & _) & (Hlen & _)).
    rewrite Hrun. intros [= <- <- <-] Hw.
    destruct (loop_warning_last E (Stage1.checks E a1) (Stage1.the_maxiter a1)
                (Stage1.the_tolerance a1)
                (fun n d' => stage1_checks_quiet E a1 n d')
                (Stage1.body E a1) (fun _ => eq_refl) d
                (Stage1.the_refiner E a1 d) st Hrun)
      as [Hno|(tr0 & Htr & Hw0)]; [congruence|].
    exists tr0, (violated_criteria st). split; [exact Htr|].
    split; [exact Hw0|]. apply Hwarn in Hw.
    cbn [chained_connections]. split; lia.
  - unfold Stage2.refine_qbx_stage2, Stage2.uniform_rounds.
    destruct (stage2_loop_exit E a2 d)
      as (st & Hrun & (Hn & _ & Hwarn & _) & (Hlen & _)).
    rewrite Hrun.
    destruct (uniform_rounds_spec E a2
                (seq 0 (Z.to_nat (Stage2.the_rounds a2))) st)
      as (new & _ & Hnew & Htr & _).
    rewrite length_seq in Hnew, Htr.
    intros [= <- <- <-] Hw. rewrite Htr in Hw |- *.
    destruct (rounds_trace_refine_only
                (take (Z.to_nat (Stage2.the_rounds a2))
                   (cur_discr st :: map (to_discr E) new)))
      as [Hrefine Hquiet].
    rewrite warned_app, Hquiet, orb_false_r in Hw.
    destruct (loop_warning_last E (Stage2.checks E a2 d)
                (Stage2.the_maxiter a2) (Stage2.the_tolerance a2)
                (fun n d' => stage2_checks_quiet E a2 d n d')
                (Stage2.body E a2 d) (fun _ => eq_refl) d
                (Stage2.the_refiner E a2 d) st Hrun)
      as [Hno|(tr0 & Htr0 & Hw0)]; [congruence|].
    eexists tr0, (violated_criteria st), _.
    split; [rewrite Htr0, <- app_assoc; reflexivity|].
    split; [exact Hw0|]. apply Hwarn in Hw.
    split; [lia|]. split; [exact Hrefine|].
    rewrite length_map. apply rounds_discrs_length, Hnew.
Qed.

(** X9. The stage-2 loop builds the tree and runs the Condition-2 check
    once in every pass: as often as it refines, plus once for the pass that
    found nothing when it ends without the warning; that is never more than
    [max 0 maxiter] times. *)
Theorem X9_stage2_tree_built_every_pass (a : Stage2.Args Refiner)
    (d : Discr) (st : LoopState Discr Conn Refiner) :
  Stage2.run_loop E a d = Some st ->
  count_events is_event_build_tree (trace st) = passes_run st
  /\ count_events is_event_check (trace st) = passes_run st
  /\ (passes_run st <= Z.to_nat (Stage2.the_maxiter a))%nat.
Proof.
  intros Hrun. split; [|split].
  3: { destruct (stage2_loop_exit E a d)
         as (st' & Hrun' & (Hn & Hle & Hwarn & _) & _).
       rewrite Hrun in Hrun'. injection Hrun' as <-.
       unfold passes_run. rewrite <- Hn.
       destruct (warned (trace st)); [lia|].
       assert (count_events is_event_refine (trace st)
               <> Z.to_nat (Stage2.the_maxiter a)) as Hne.
       { intros Heq. apply Hwarn in Heq. discriminate. }
       lia. }
  - pose proof (loop_count_bounds E (Stage2.checks E a d)
                  (Stage2.the_maxiter a) (Stage2.the_tolerance a)
                  (fun n d' => stage2_checks_quiet E a d n d')
                  (Stage2.body E a d) (fun _ => eq_refl) d
                  (Stage2.the_refiner E a d) is_event_build_tree
                  (fun _ => eq_refl) (fun _ _ => eq_refl) 1 1 st) as H.
    destruct H as [Hlo Hhi]; [|exact Hrun|lia].
    intros n d'. destruct (stage2_pass_checks E a d n d') as [-> _]. lia.
  - pose proof (loop_count_bounds E (Stage2.checks E a d)
                  (Stage2.the_maxiter a) (Stage2.the_tolerance a)
                  (fun n d' => stage2_checks_quiet E a d n d')
                  (Stage2.body E a d) (fun _ => eq_refl) d
                  (Stage2.the_refiner E a d) is_event_check
                  (fun _ => eq_refl) (fun _ _ => eq_refl) 1 1 st) as H.
    destruct H as [Hlo Hhi]; [|exact Hrun|lia].
    intros n d'. destruct (stage2_pass_checks E a d n d') as [_ ->]. lia.
Qed.

(** X10. Over a whole run of the stage-1 loop, each configured threshold
    check is run once in every pass, while the tree is built and Condition 1
    is checked (always together) in at most that many passes; so when a
    threshold is configured, Condition 1 is never evaluated more often than
    the threshold checks.  The criteria are evaluated in at most
    [max 0 maxiter] passes. *)
Theorem X10_stage1_check_counts (a : Stage1.Args Refiner) (d : Discr)
    (st : LoopState Discr Conn Refiner) :
  Stage1.run_loop E a d = Some st ->
  count_events is_event_check_threshold (trace st)
  = (configured_thresholds a * passes_run st)%nat
  /\ count_events is_event_check_disks (trace st)
     = count_events is_event_build_tree (trace st)
  /\ (count_events is_event_check_disks (trace st) <= passes_run st)%nat
  /\ ((1 <= configured_thresholds a)%nat ->
      (count_events is_event_check_disks (trace st)
       <= count_events is_event_check_threshold (trace st))%nat)
  /\ (passes_run st <= Z.to_nat (Stage1.the_maxiter a))%nat.
Proof.
  intros Hrun.
  assert (passes_run st <= Z.to_nat (Stage1.the_maxiter a))%nat as Hpasses.
  { destruct (stage1_loop_exit E a d)
      as (st' & Hrun' & (Hn & Hle & Hwarn & _) & _).
    rewrite Hrun in Hrun'. injection Hrun' as <-.
    unfold passes_run. rewrite <- Hn.
    destruct (warned (trace st)); [lia|].
    assert (count_events is_event_refine (trace st)
            <> Z.to_nat (Stage1.the_maxiter a)) as Hne.
    { intros Heq. apply Hwarn in Heq. discriminate. }
    lia. }
  assert (count_events is_event_check_threshold (trace st)
          = (configured_thresholds a * passes_run st)%nat) as Hthr.
  { pose proof (loop_count_bounds E (Stage1.checks E a)
                  (Stage1.the_maxiter a) (Stage1.the_tolerance a)
                  (fun n d' => stage1_checks_quiet E a n d')
                  (Stage1.body E a) (fun _ => eq_refl) d
                  (Stage1.the_refiner E a d) is_event_check_threshold
                  (fun _ => eq_refl) (fun _ _ => eq_refl)
                  (configured_thresholds a) (configured_thresholds a) st)
      as H.
    destruct H as [Hlo Hhi]; [|exact Hrun|lia].
    intros n d'. rewrite stage1_pass_threshold_checks. lia. }
  assert (count_events is_event_check_disks (trace st) <= passes_run st)%nat
    as Hdisks.
  { pose proof (loop_count_bounds E (Stage1.checks E a)
                  (Stage1.the_maxiter a) (Stage1.the_tolerance a)
                  (fun n d' => stage1_checks_quiet E a n d')
                  (Stage1.body E a) (fun _ => eq_refl) d
                  (Stage1.the_refiner E a d) is_event_check_disks
                  (fun _ => eq_refl) (fun _ _ => eq_refl) 0 1 st) as H.
    destruct H as [Hlo Hhi]; [|exact Hrun|lia].
    intros n d'. destruct (stage1_pass_disks_checks E a n d') as [_ H1]. lia. }
  split; [exact Hthr|]. split; [|split; [exact Hdisks|]].
  - apply Nat.le_antisymm.
    + apply (loop_count_le E (Stage1.checks E a) (Stage1.the_maxiter a)
               (Stage1.the_tolerance a) (Stage1.body E a) (fun _ => eq_refl)
               d (Stage1.the_refiner E a d) is_event_check_disks
               (fun _ => eq_refl) (fun _ _ => eq_refl) is_event_build_tree);
        [|exact Hrun].
      intros n d'. destruct (stage1_pass_disks_checks E a n d') as [-> _]. lia.
    + apply (loop_count_le E (Stage1.checks E a) (Stage1.the_maxiter a)
               (Stage1.the_tolerance a) (Stage1.body E a) (fun _ => eq_refl)
               d (Stage1.the_refiner E a d) is_event_build_tree
               (fun _ => eq_refl) (fun _ _ => eq_refl) is_event_check_disks);
        [|exact Hrun].
      intros n d'. destruct (stage1_pass_disks_checks E a n d') as [-> _]. lia.
  - split; [|exact Hpasses]. intros Hconf. rewrite Hthr. nia.
Qed.

End WarningProperties.

(** ** What the history can hold *)

Section HistoryProperties.
Context {Mesh Discr Conn Refiner PeerLists : Type}.
Context (E : Collaborators Mesh Discr Conn Refiner PeerLists).

Lemma stage2_pass_verdict (a : Stage2.Args Refiner) (d : Discr) (k : nat) :
  let init := initial_state d (Stage2.the_refiner E a d) in
  criteria_violated_in_pass (Stage2.body E a d) init (S k)
  = stage2_verdict E d (cur_discr (after_passes (Stage2.body E a d) init k)).
Proof.
  cbv zeta. cbn [criteria_violated_in_pass]. rewrite after_passes_S.
  rewrite (pass_ivc E (Stage2.checks E a d) (Stage2.body E a d))
    by reflexivity.
  apply stage2_checks_violated.
Qed.

(** X11. Every entry of the stage-1 history is one of "kernel length
    scale", "curvature", "kernel length scale and curvature" and "disturbed
    expansions": disturbed expansions are never reported together with a
    threshold criterion.  Every entry of the stage-2 history is
    "insufficient quadrature resolution". *)
Theorem X11_history_entries (a1 : Stage1.Args Refiner)
    (a2 : Stage2.Args Refiner) (d : Discr) :
  (forall st k entry,
     Stage1.run_loop E a1 d = Some st ->
     violated_criteria st !! k = Some entry ->
     entry = "kernel length scale"%string
     \/ entry = "curvature"%string
     \/ entry = "kernel length scale and curvature"%string
     \/ entry = "disturbed expansions"%string)
  /\ (forall st k entry,
        Stage2.run_loop E a2 d = Some st ->
        violated_criteria st !! k = Some entry ->
        entry = "insufficient quadrature resolution"%string).
Proof.
  split; intros st k entry Hrun Hk.
  - destruct (stage1_loop_exit E a1 d) as (st' & Hrun' & _ & _ & Hentry & _).
    rewrite Hrun in Hrun'. injection Hrun' as <-.
    destruct (Hentry k entry Hk) as [Hne ->].
    rewrite stage1_pass_verdict in Hne |- *.
    unfold stage1_verdict in Hne |- *.
    destruct (violates_kernel_length_scale E a1 _),
      (violates_scaled_max_curv E a1 _), (has_disturbed_expansions E a1 _);
      cbn in Hne |- *; auto; congruence.
  - destruct (stage2_loop_exit E a2 d) as (st' & Hrun' & _ & _ & Hentry & _).
    rewrite Hrun in Hrun'. injection Hrun' as <-.
    destruct (Hentry k entry Hk) as [Hne ->].
    rewrite stage2_pass_verdict in Hne |- *.
    unfold stage2_verdict in Hne |- *.
    destruct (has_insufficient_quad_resolution E d _);
      [reflexivity|congruence].
Qed.

End HistoryProperties.

(** ** How the checkers react to their parameters *)

(** X12. Raising the threshold of the threshold checker never flags more:
    an element flagged with the higher threshold is flagged with the lower
    one, and a call that reports a violation with the higher threshold
    reports one with the lower. *)
Theorem X12_threshold_monotone (P : list Q) (T T' : Q) (flags : list Z) :
  (T <= T')%Q ->
  (forall e, Threshold.over_threshold P T' e = true ->
             Threshold.over_threshold P T e = true)
  /\ (forall e,
        (Threshold.check_element_prop_threshold P T' flags).1 !! e = Some 1 ->
        (Threshold.check_element_prop_threshold P T flags).1 !! e = Some 1)
  /\ ((Threshold.check_element_prop_threshold P T' flags).2 = true ->
      (Threshold.check_element_prop_threshold P T flags).2 = true).
Proof.
  intros HT.
  assert (forall e, Threshold.over_threshold P T' e = true ->
                    Threshold.over_threshold P T e = true) as Hover.
  { intros e He. apply over_threshold_spec in He as (p & Hp & Hlt).
    apply over_threshold_spec. exists p. split; [exact Hp|].
    eapply Qle_lt_trans; eauto. }
  split; [exact Hover|]. split.
  - intros e. rewrite !threshold_flags_lookup.
    destruct (Threshold.over_threshold P T' e) eqn:He'.
    + rewrite (Hover e He'). auto.
    + intros Hf. rewrite Hf.
      destruct (Threshold.over_threshold P T e); reflexivity.
  - rewrite !threshold_result, !any_over_threshold_spec.
    intros (e & He). eauto.
Qed.

Lemma X12_threshold_monotone_witness :
  (Threshold.check_element_prop_threshold [5; 1]%Q 1%Q [0; 0]).2 = true.
Proof.
  refine (proj2 (proj2 (X12_threshold_monotone [5; 1]%Q 1%Q 2%Q [0; 0] _)) _).
  - vm_compute. discriminate.
  - reflexivity.
Defined.

Section ToleranceMonotone.
Context {PeerLists : Type} (C : TreeCode PeerLists).
Variables (tree : Tree) (peer_lists : PeerLists) (radii : list Q).

(** X13. Raising the expansion disturbance tolerance, as the warning
    advises, never disturbs more centers on a device whose rounded
    subtraction and multiplication are monotone (as round-to-nearest
    arithmetic is): when moreover the radii are not negative
    and the area query of the smaller ball visits no source that the one of
    the larger ball misses, every center disturbed at the higher tolerance
    is disturbed at the lower one, every panel flagged at the higher is
    flagged at the lower, and so is the check's result. *)
Theorem X13_tolerance_monotone (tol tol' : Q) :
  (forall x y, (x <= y)%Q -> (coord_sub C 1 y <= coord_sub C 1 x)%Q) ->
  (forall x y r, (x <= y)%Q -> (0 <= r)%Q ->
     (coord_mul C x r <= coord_mul C y r)%Q) ->
  (tol <= tol')%Q ->
  (forall icenter, (icenter < nqbxcenters tree)%nat ->
     (0 <= radii !!! icenter)%Q) ->
  (forall icenter idx, (icenter < nqbxcenters tree)%nat ->
     In idx (Condition1.candidate_source_idxs C tree peer_lists radii tol'
               icenter) ->
     In idx (Condition1.candidate_source_idxs C tree peer_lists radii tol
               icenter)) ->
  (forall icenter, (icenter < nqbxcenters tree)%nat ->
     Condition1.disturbed C tree peer_lists radii tol' icenter = true ->
     Condition1.disturbed C tree peer_lists radii tol icenter = true)
  /\ (forall flags p,
        panel_refine_flags
          (Condition1.check_center_closest_to_orig_panel C tree peer_lists
             radii tol' flags 0) !! p = Some 1 ->
        panel_refine_flags
          (Condition1.check_center_closest_to_orig_panel C tree peer_lists
             radii tol flags 0) !! p = Some 1)
  /\ (forall flags,
        found_panel_to_refine
          (Condition1.check_center_closest_to_orig_panel C tree peer_lists
             radii tol' flags 0) = 1 ->
        found_panel_to_refine
          (Condition1.check_center_closest_to_orig_panel C tree peer_lists
             radii tol flags 0) = 1).
Proof.
  intros Hsub Hmul Htol Hradii Hquery.
  assert (forall icenter, (icenter < nqbxcenters tree)%nat ->
            Condition1.disturbed C tree peer_lists radii tol' icenter = true ->
            Condition1.disturbed C tree peer_lists radii tol icenter = true)
    as Hdist.
  { intros icenter Hi Hd.
    apply cond1_disturbed_spec in Hd as (idx & Hin & Hle).
    apply cond1_disturbed_spec. exists idx.
    split; [apply Hquery; assumption|].
    eapply Qle_trans; [exact Hle|].
    apply Hmul; [apply Hsub, Htol|apply Hradii, Hi]. }
  split; [exact Hdist|]. split.
  - intros flags p.
    unfold Condition1.check_center_closest_to_orig_panel.
    rewrite !cond1_run_schedule_mark_if, !mark_if_flags_lookup.
    cbn [panel_refine_flags].
    set (m' := marked (Condition1.disturbed C tree peer_lists radii tol')
                 (Condition1.center_panel C tree)
                 (seq 0 (nqbxcenters tree)) p).
    set (m := marked (Condition1.disturbed C tree peer_lists radii tol)
                (Condition1.center_panel C tree)
                (seq 0 (nqbxcenters tree)) p).
    assert (m' = true -> m = true) as Hmm.
    { unfold m, m'. rewrite !marked_seq_spec.
      intros (i & Hi & Ht & Hd). exists i. auto. }
    destruct m'.
    + rewrite Hmm by reflexivity. auto.
    + intros Hf. rewrite Hf. destruct m; reflexivity.
  - intros flags.
    unfold Condition1.check_center_closest_to_orig_panel.
    rewrite !cond1_run_schedule_mark_if, !mark_if_found.
    cbn [found_panel_to_refine].
    set (f' := existsb (Condition1.disturbed C tree peer_lists radii tol')
                 (seq 0 (nqbxcenters tree))).
    set (f := existsb (Condition1.disturbed C tree peer_lists radii tol)
                (seq 0 (nqbxcenters tree))).
    assert (f' = true -> f = true) as Hff.
    { unfold f, f'. rewrite !existsb_exists.
      intros (i & Hin & Hd). exists i. split; [exact Hin|].
      apply Hdist; [apply in_seq in Hin; lia|exact Hd]. }
    destruct f'; [|discriminate].
    rewrite Hff by reflexivity. reflexivity.
Qed.

End ToleranceMonotone.

(** ** The order of the work inside the area-query kernels *)

Lemma in_concat_map_permutation {A B : Type} (f : A -> list B)
    (l l' : list A) (x : B) :
  Permutation l l' ->
  In x (concat (map f l)) -> In x (concat (map f l')).
Proof.
  intros Hp Hin. apply in_concat in Hin as (xs & Hxs & Hin).
  apply in_map_iff in Hxs as (y & <- & Hy).
  apply in_concat. exists (f y). split; [|exact Hin].
  apply in_map. eapply Permutation_in; eauto.
Qed.

Lemma existsb_concat_map_permutation {A B : Type} (f : A -> list B)
    (g : B -> bool) (l l' : list A) :
  Permutation l l' ->
  existsb g (concat (map f l)) = existsb g (concat (map f l')).
Proof.
  intros Hp. apply eq_true_iff_eq. rewrite !existsb_exists.
  split; intros (x & Hin & Hx); exists x; (split; [|exact Hx]).
  - apply (in_concat_map_permutation f l l' x Hp Hin).
  - apply (in_concat_map_permutation f l' l x (Permutation_sym Hp) Hin).
Qed.

Section KernelOrder.
Context {PeerLists : Type} (C : TreeCode PeerLists).
Variables (tree : Tree) (peer_lists : PeerLists).
Variables (center_radii : list Q) (tol : Q) (panel_radii : list Q).

Lemma cond1_leaves_spec (icenter : nat) (leaves : list nat)
    (st : KernelState) :
  foldl (fun st leaf =>
           Condition1.leaf_found_op C tree center_radii tol icenter leaf st)
    st leaves
  = if existsb (Condition1.is_close C tree center_radii tol icenter)
         (concat (map (box_range (box_to_qbx_source_starts tree)) leaves))
    then mark_panel (Condition1.center_panel C tree icenter) st
    else st.
Proof.
  revert st.
  induction leaves as [|leaf leaves IH]; intros st; cbn [foldl map concat].
  - reflexivity.
  - rewrite IH, existsb_app. unfold Condition1.leaf_found_op.
    rewrite cond1_leaf_loop_spec.
    set (here := existsb _ (box_range _ _)).
    set (later := existsb _ (concat _)).
    destruct here, later; cbn [orb]; try reflexivity.
    apply mark_panel_twice.
Qed.

Lemma cond2_leaves_spec (i : nat) (leaves : list nat) (st : KernelState) :
  foldl (fun st leaf =>
           Condition2.leaf_found_op C tree panel_radii i leaf st)
    st leaves
  = if existsb (Condition2.is_close C tree panel_radii i)
         (concat (map (box_range (box_to_qbx_center_starts tree)) leaves))
    then mark_panel (Condition2.my_panel C tree i) st
    else st.
Proof.
  revert st.
  induction leaves as [|leaf leaves IH]; intros st; cbn [foldl map concat].
  - reflexivity.
  - rewrite IH, existsb_app. unfold Condition2.leaf_found_op.
    rewrite cond2_leaf_loop_spec.
    set (here := existsb _ (box_range _ _)).
    set (later := existsb _ (concat _)).
    destruct here, later; cbn [orb]; try reflexivity.
    apply mark_panel_twice.
Qed.

(** X14. The result of the two area-query kernels does not depend on the
    order in which the work items run, nor, within a work item, on the order
    in which the leaf boxes are visited or the sources (centers) of a box
    are scanned, the early exit of the scan notwithstanding. *)
Theorem X14_area_query_kernels_order_independent :
  (forall schedule flags found,
     Permutation schedule (seq 0 (nqbxcenters tree)) ->
     Condition1.run_schedule C tree peer_lists center_radii tol schedule
       (mkKernelState flags found)
     = Condition1.check_center_closest_to_orig_panel C tree peer_lists
         center_radii tol flags found)
  /\ (forall icenter leaves leaves' st,
        Permutation leaves leaves' ->
        foldl (fun st leaf =>
                 Condition1.leaf_found_op C tree center_radii tol icenter
                   leaf st) st leaves
        = foldl (fun st leaf =>
                   Condition1.leaf_found_op C tree center_radii tol icenter
                     leaf st) st leaves')
  /\ (forall icenter idxs idxs' st,
        Permutation idxs idxs' ->
        Condition1.leaf_loop C tree center_radii tol icenter idxs st
        = Condition1.leaf_loop C tree center_radii tol icenter idxs' st)
  /\ (forall schedule flags found,
        Permutation schedule (seq 0 (nqbxsources tree)) ->
        Condition2.run_schedule C tree peer_lists panel_radii schedule
          (mkKernelState flags found)
        = Condition2.check_source_quadrature_resolution C tree peer_lists
            panel_radii flags found)
  /\ (forall i leaves leaves' st,
        Permutation leaves leaves' ->
        foldl (fun st leaf =>
                 Condition2.leaf_found_op C tree panel_radii i leaf st)
          st leaves
        = foldl (fun st leaf =>
                   Condition2.leaf_found_op C tree panel_radii i leaf st)
            st leaves')
  /\ (forall i idxs idxs' st,
        Permutation idxs idxs' ->
        Condition2.leaf_loop C tree panel_radii i idxs st
        = Condition2.leaf_loop C tree panel_radii i idxs' st).
Proof.
  split_and!.
  - intros schedule flags found Hp.
    unfold Condition1.check_center_closest_to_orig_panel.
    rewrite !cond1_run_schedule_mark_if. apply mark_if_permutation, Hp.
  - intros icenter leaves leaves' st Hp. rewrite !cond1_leaves_spec.
    rewrite (existsb_concat_map_permutation _ _ _ _ Hp). reflexivity.
  - intros icenter idxs idxs' st Hp. rewrite !cond1_leaf_loop_spec.
    rewrite (existsb_permutation _ _ _ Hp). reflexivity.
  - intros schedule flags found Hp.
    unfold Condition2.check_source_quadrature_resolution.
    rewrite !cond2_run_schedule_mark_if. apply mark_if_permutation, Hp.
  - intros i leaves leaves' st Hp. rewrite !cond2_leaves_spec.
    rewrite (existsb_concat_map_permutation _ _ _ _ Hp). reflexivity.
  - intros i idxs idxs' st Hp. rewrite !cond2_leaf_loop_spec.
    rewrite (existsb_permutation _ _ _ Hp). reflexivity.
Qed.

End KernelOrder.

(** ** Refining a result that has converged *)

Section Idempotence.
Context {Mesh Discr Conn Refiner PeerLists : Type}.
Context (E : Collaborators Mesh Discr Conn Refiner PeerLists).

Lemma stage1_identity_on_passing (a : Stage1.Args Refiner) (d : Discr) :
  stage1_verdict E a d = [] ->
  exists st,
    Stage1.run_loop E a d = Some st
    /\ connections st = [] /\ cur_discr st = d
    /\ count_events is_event_refine (trace st) = 0%nat
    /\ (1 <= Stage1.the_maxiter a -> warned (trace st) = false).
Proof.
  intros Hok.
  destruct (loop_exit E (Stage1.checks E a) (Stage1.the_maxiter a)
              (Stage1.the_tolerance a) (Stage1.body E a)
              (fun _ => eq_refl) d (Stage1.the_refiner E a d))
    as (N & st & Hrun & _ & Hviol & Hco & _ & Hd & _).
  assert (N = 0%nat) as ->.
  { destruct N as [|N]; [reflexivity|]. exfalso.
    apply (Hviol 1%nat); [lia|]. rewrite after_passes_S.
    rewrite (pass_ivc E (Stage1.checks E a)) by reflexivity.
    rewrite stage1_checks_violated. exact Hok. }
  cbn in Hco, Hd. exists st. split; [exact Hrun|].
  split; [exact Hco|]. split; [exact Hd|].
  destruct (stage1_loop_exit E a d)
    as (st' & Hrun' & (Hn & _ & Hwarn & _) & _).
  unfold Stage1.run_loop, Stage1.loop in Hrun'.
  rewrite Hrun in Hrun'. injection Hrun' as <-.
  rewrite Hco in Hn. cbn in Hn. split; [exact Hn|].
  intros Hmax. destruct (warned (trace st)); [|reflexivity].
  rewrite Hn in Hwarn. destruct Hwarn as [Hw _].
  specialize (Hw eq_refl). lia.
Qed.

(** X15. Stage 1 is idempotent on a converged result: when
    [refine_qbx_stage1] has finished without the warning, calling it again
    with the same arguments on the discretization it returned applies no
    refinement and returns that discretization with a chain of no
    connections; with [maxiter >= 1] this second call gives no warning
    either. *)
Theorem X15_stage1_idempotent_on_converged (a : Stage1.Args Refiner)
    (d discr : Discr) (conn : ChainedDiscretizationConnection Discr Conn)
    (tr : list Event) :
  Stage1.refine_qbx_stage1 E a d = Some (discr, conn, tr) ->
  warned tr = false ->
  exists tr',
    Stage1.refine_qbx_stage1 E a discr
    = Some (discr, mkChained [] discr, tr')
    /\ count_events is_event_refine tr' = 0%nat
    /\ (1 <= Stage1.the_maxiter a -> warned tr' = false).
Proof.
  unfold Stage1.refine_qbx_stage1 at 1.
  destruct (Stage1.run_loop E a d) as [st|] eqn:Hrun; [|discriminate].
  intros [= <- <- <-] Hquiet.
  pose proof (stage1_loop_without_warning E a d st Hrun Hquiet) as Hv.
  destruct (stage1_identity_on_passing a (cur_discr st) Hv)
    as (st' & Hrun' & Hco & Hd & Hn & Hw).
  exists (trace st'). unfold Stage1.refine_qbx_stage1.
  rewrite Hrun', Hco, Hd. auto.
Qed.

End Idempotence.

(** ** The debug branch of the checks *)

Lemma npanels_difference (before after : list Z) :
  Forall2 kept_or_set before after ->
  npanels_to_refine after - npanels_to_refine before
  = Z.of_nat (count_newly_set before after).
Proof.
  unfold count_newly_set, npanels_to_refine.
  induction 1 as [|b a before after Hba _ IH]; [reflexivity|].
  cbn [foldr combine List.filter fst snd] in *.
  destruct Hba as [->|[-> ->]].
  - assert ((b =? 0) && (b =? 1) = false) as ->.
    { destruct (Z.eqb_spec b 0) as [->|]; reflexivity. }
    lia.
  - change ((0 =? 0) && (1 =? 1)) with true. cbn [length]. lia.
Qed.

Lemma count_newly_set_positive (before after : list Z) :
  Forall2 kept_or_set before after ->
  (0 < count_newly_set before after)%nat
  <-> exists e, newly_set before after e.
Proof.
  unfold count_newly_set, newly_set.
  induction 1 as [|b a before after Hba _ IH].
  - cbn. split; [lia|]. intros (e & He & _). discriminate.
  - cbn [combine List.filter fst snd].
    destruct ((b =? 0) && (a =? 1)) eqn:Hnew.
    + cbn [length]. split; [|lia]. intros _. exists 0%nat.
      apply andb_true_iff in Hnew as [Hb Ha].
      apply Z.eqb_eq in Hb, Ha. subst. split; reflexivity.
    + rewrite IH. split.
      * intros (e & Hb & Ha). exists (S e). auto.
      * intros ([|e] & Hb & Ha).
        -- cbn in Hb, Ha. injection Hb as ->. injection Ha as ->.
           discriminate.
        -- exists e. auto.
Qed.

Lemma kept_or_set_from_marks (M : nat -> bool) (before after : list Z) :
  Forall (fun z => z = 0 \/ z = 1) before ->
  (forall p, after !! p
     = if M p then (fun _ => 1) <$> (before !! p) else before !! p) ->
  Forall2 kept_or_set before after.
Proof.
  intros Hbits Hmarks. apply Forall2_same_length_lookup_2.
  - symmetry. apply (flags_length_from_lookup after before M Hmarks).
  - intros i b a Hb Ha. rewrite Hmarks, Hb in Ha.
    rewrite Forall_forall in Hbits.
    assert (b = 0 \/ b = 1) as Hbit.
    { apply Hbits. apply list_elem_of_lookup. eauto. }
    unfold kept_or_set.
    destruct (M i); cbn in Ha; injection Ha as <-; [|auto].
    destruct Hbit as [->| ->]; auto.
Qed.

Lemma debug_found_panels_spec (before after : list Z) :
  Forall2 kept_or_set before after ->
  debug_found_panels before after
  = (if (0 <? count_newly_set before after)%nat
     then Some (Z.of_nat (count_newly_set before after))
     else None)
  /\ (debug_found_panels before after <> None
      <-> exists e, newly_set before after e).
Proof.
  intros Hrel. pose proof (npanels_difference before after Hrel) as Hdiff.
  rewrite <- (count_newly_set_positive before after Hrel).
  unfold debug_found_panels. cbv zeta.
  destruct (Z.gtb_spec (npanels_to_refine after) (npanels_to_refine before)),
    (Nat.ltb_spec 0 (count_newly_set before after)); try lia.
  - rewrite Hdiff. split; [reflexivity|]. split; [lia|discriminate].
  - split; [reflexivity|]. split; [congruence|lia].
Qed.

Section DebugProperties.
Context {Mesh Discr Conn Refiner PeerLists : Type}.
Context (E : Collaborators Mesh Discr Conn Refiner PeerLists).

(** X16. With [debug=True] and flags that are all 0 or 1 on entry, each of
    the three checks logs "found k panel(s) to refine" exactly when some
    flag goes from 0 to 1 in that call, and [k] is the number of such
    flags. *)
Theorem X16_debug_log_counts_newly_set (d : Discr) (tree : Tree)
    (pl : PeerLists) (tol : Q) (P : list Q) (T : Q) (flags : list Z) :
  Forall (fun z => z = 0 \/ z = 1) flags ->
  let logs_newly_set := fun r : list Z * bool * option Z =>
    r.2 = (if (0 <? count_newly_set flags r.1.1)%nat
           then Some (Z.of_nat (count_newly_set flags r.1.1))
           else None)
    /\ (r.2 <> None <-> exists e, newly_set flags r.1.1 e) in
  logs_newly_set (check_element_prop_threshold_debug P T flags)
  /\ logs_newly_set
       (check_expansion_disks_undisturbed_by_sources_debug E d tree pl tol
          flags)
  /\ logs_newly_set
       (check_sufficient_source_quadrature_resolution_debug E d tree pl
          flags).
Proof.
  intros Hbits. cbv zeta. split_and!.
  - unfold check_element_prop_threshold_debug. cbn [fst snd].
    apply debug_found_panels_spec.
    apply (kept_or_set_from_marks (Threshold.over_threshold P T)); auto.
    intros p. apply threshold_flags_lookup.
  - unfold check_element_prop_threshold_debug. cbn [fst snd].
    apply debug_found_panels_spec.
    apply (kept_or_set_from_marks (Threshold.over_threshold P T)); auto.
    intros p. apply threshold_flags_lookup.
  - unfold check_expansion_disks_undisturbed_by_sources_debug. cbn [fst snd].
    apply debug_found_panels_spec.
    eapply kept_or_set_from_marks; [exact Hbits|].
    intros p. apply disks_flags_lookup.
  - unfold check_expansion_disks_undisturbed_by_sources_debug. cbn [fst snd].
    apply debug_found_panels_spec.
    eapply kept_or_set_from_marks; [exact Hbits|].
    intros p. apply disks_flags_lookup.
  - unfold check_sufficient_source_quadrature_resolution_debug.
    cbn [fst snd]. apply debug_found_panels_spec.
    eapply kept_or_set_from_marks; [exact Hbits|].
    intros p. apply quadres_flags_lookup.
  - unfold check_sufficient_source_quadrature_resolution_debug.
    cbn [fst snd]. apply debug_found_panels_spec.
    eapply kept_or_set_from_marks; [exact Hbits|].
    intros p. apply quadres_flags_lookup.
Qed.

End DebugProperties.

(** ** The visualization calls of a pass *)

Lemma visualize_raises_none (mesh_nelements : nat) (stage_nr : Z)
    (flags : list Z) :
  stage_nr = 1 \/ stage_nr = 2 ->
  length flags = mesh_nelements ->
  _visualize_refinement_raises mesh_nelements stage_nr flags = None.
Proof.
  intros Hstage <-. unfold _visualize_refinement_raises.
  rewrite Nat.eqb_refl. destruct Hstage as [-> | ->]; reflexivity.
Qed.

(** Splits a statement about every event of an explicit list into one goal
    per visualization call. *)
Ltac split_events :=
  repeat match goal with
         | |- Forall _ (_ :: _) => constructor
         | |- Forall _ [] => constructor
         end;
  cbn [visualize_call_ok]; try exact I.

Section VisualizeProperties.
Context {Mesh Discr Conn Refiner PeerLists : Type}.
Context (E : Collaborators Mesh Discr Conn Refiner PeerLists).

Lemma disks_flags_length (d : Discr) (tree : Tree) (pl : PeerLists)
    (tol : Q) (flags : list Z) :
  length (check_expansion_disks_undisturbed_by_sources E d tree pl tol
            flags).1
  = length flags.
Proof.
  eapply flags_length_from_lookup. intros e. apply disks_flags_lookup.
Qed.

Lemma quadres_flags_length (d : Discr) (tree : Tree) (pl : PeerLists)
    (flags : list Z) :
  length (check_sufficient_source_quadrature_resolution E d tree pl flags).1
  = length flags.
Proof.
  eapply flags_length_from_lookup. intros e. apply quadres_flags_lookup.
Qed.

Lemma make_empty_refine_flags_length (d : Discr) :
  length (make_empty_refine_flags E d) = nelements E (mesh E d).
Proof. apply length_replicate. Qed.

(** X17. A pass calls [_visualize_refinement] only when [visualize] is set,
    and then once for every criterion it records as violated; each call is
    made with the number of the pass, with stage number 1 in stage 1 and 2
    in stage 2, and with one flag per element of the current mesh, so that
    neither the [ValueError] nor the assertion of [_visualize_refinement]
    is ever triggered by the drivers. *)
Theorem X17_visualization_calls (a1 : Stage1.Args Refiner)
    (a2 : Stage2.Args Refiner) (d1 : Discr) (n : Z) (d : Discr) :
  let it1 := Stage1.checks E a1 n d in
  let it2 := Stage2.checks E a2 d1 n d in
  Forall (visualize_call_ok (Stage1.visualize a1) n (nelements E (mesh E d)) 1)
    (it_events it1)
  /\ count_events is_event_visualize (it_events it1)
     = (if Stage1.visualize a1 then length (it_violated it1) else 0%nat)
  /\ Forall
       (visualize_call_ok (Stage2.visualize a2) n (nelements E (mesh E d)) 2)
       (it_events it2)
  /\ count_events is_event_visualize (it_events it2)
     = (if Stage2.visualize a2 then length (it_violated it2) else 0%nat).
Proof.
  cbv zeta. split_and!.
  - stage1_pass_cases E a1 d; split_events;
      (split_and!; [reflexivity..|]);
      (apply visualize_raises_none; [left; reflexivity|]);
      rewrite ?disks_flags_length, ?threshold_flags_length;
      apply make_empty_refine_flags_length.
  - stage1_pass_cases E a1 d; reflexivity.
  - rewrite stage2_checks_eq. unfold record_violation. cbv zeta.
    destruct (has_insufficient_quad_resolution E d1 d), (Stage2.visualize a2);
      cbn [it_events app]; split_events.
    split_and!; [reflexivity..|].
    apply visualize_raises_none; [right; reflexivity|].
    cbn [it_flags]. rewrite quadres_flags_length.
    apply make_empty_refine_flags_length.
  - rewrite stage2_checks_eq. unfold record_violation. cbv zeta.
    destruct (has_insufficient_quad_resolution E d1 d), (Stage2.visualize a2);
      reflexivity.
Qed.

End VisualizeProperties.

(** ** The further properties on the line world *)

Lemma X3_stage1_pass_flags_witness :
  astype_bool (it_flags (Stage1.checks Line.world (Line.stage1_args 10) 1
                           0%nat)) !! 0%nat
  = Some (stage1_flagged Line.world (Line.stage1_args 10) 0%nat 0%nat).
Proof.
  refine (proj2 (proj1 (proj2 (proj2
            (X3_stage1_pass_flags Line.world (Line.stage1_args 10) 1 0%nat)))
            0%nat _)).
  vm_compute. lia.
Defined.

Lemma X4_stage2_pass_flags_witness :
  astype_bool (it_flags (Stage2.checks Line.world (Line.stage2_args 10 0)
                           0%nat 1 0%nat)) !! 0%nat
  = Some (owns_under_resolved_source Line.world 0%nat 0%nat 0%nat).
Proof.
  refine (proj1 (proj2
            (X4_stage2_pass_flags Line.world (Line.stage2_args 10 0) 0%nat 1
               0%nat)) 0%nat _).
  vm_compute. lia.
Defined.

Lemma X5_stage1_violation_flags_an_element_witness :
  exists e,
    (e < nelements Line.world (mesh Line.world 0%nat))%nat
    /\ astype_bool (it_flags (Stage1.checks Line.world (Line.stage1_args 10)
                                1 0%nat)) !! e = Some true.
Proof.
  apply (X5_stage1_violation_flags_an_element Line.world
           (Line.stage1_args 10) 1 0%nat).
  - vm_compute. lia.
  - vm_compute. lia.
  - intros icenter Hi. assert (icenter = 0%nat) as -> by (cbn in Hi; lia).
    vm_compute. lia.
  - vm_compute. discriminate.
Defined.

Lemma X6_connections_replay_refiner_calls_witness :
  exists discr conn tr,
    Stage1.refine_qbx_stage1 Line.world (Line.stage1_args 10) 0%nat
    = Some (discr, conn, tr)
    /\ discr = last_discr (to_discr Line.world) 0%nat
                 (chained_connections conn).
Proof.
  eexists _, _, _. split; [vm_compute; reflexivity|].
  refine (proj1 (proj2 (proj1
            (X6_connections_replay_refiner_calls Line.world
               (Line.stage1_args 10) (Line.stage2_args 10 0) 0%nat)
            _ _ _ _))).
  vm_compute. reflexivity.
Defined.

Lemma X7_refine_flags_fit_mesh_witness :
  exists discr conn tr,
    Stage2.refine_qbx_stage2 Line.world (Line.stage2_args 10 2) 0%nat
    = Some (discr, conn, tr)
    /\ Forall2
         (fun flags d' =>
            length flags = nelements Line.world (mesh Line.world d'))
         (refine_flags_of tr)
         (connection_sources (to_discr Line.world) 0%nat
            (chained_connections conn)).
Proof.
  eexists _, _, _. split; [vm_compute; reflexivity|].
  refine (proj2 (X7_refine_flags_fit_mesh Line.world (Line.stage1_args 10)
                   (Line.stage2_args 10 2) 0%nat) _ _ _ _).
  vm_compute. reflexivity.
Defined.

Lemma X8_warning_last_and_counts_maxiter_witness :
  exists tr0 vc,
    [EvBuildTree; EvFindPeerLists; EvCheckExpansionDisks; EvRefine [true];
     EvWarn ["disturbed expansions"%string]
         default_expansion_disturbance_tolerance]
    = tr0 ++ [EvWarn vc default_expansion_disturbance_tolerance]
    /\ warned tr0 = false
    /\ length vc = 1%nat
    /\ length [1%nat] = 1%nat.
Proof.
  refine (proj1 (X8_warning_last_and_counts_maxiter Line.world
                   (Line.stage1_args 1) (Line.stage2_args 1 0) 0%nat)
            1%nat (mkChained [1%nat] 0%nat) _ _ _).
  - vm_compute. reflexivity.
  - reflexivity.
Defined.

Lemma X9_stage2_tree_built_every_pass_witness :
  exists st,
    Stage2.run_loop Line.world (Line.stage2_args 10 0) 0%nat = Some st
    /\ count_events is_event_build_tree (trace st) = 2%nat.
Proof.
  eexists. split; [vm_compute; reflexivity|].
  refine (eq_trans
            (proj1 (X9_stage2_tree_built_every_pass Line.world
                      (Line.stage2_args 10 0) 0%nat _ _)) _).
  - vm_compute. reflexivity.
  - reflexivity.
Defined.

Lemma X10_stage1_check_counts_witness :
  exists st,
    Stage1.run_loop Line.world Line.stage1_args_kls 0%nat = Some st
    /\ (count_events is_event_check_disks (trace st)
        <= count_events is_event_check_threshold (trace st))%nat.
Proof.
  eexists. split; [vm_compute; reflexivity|].
  refine (proj1 (proj2 (proj2 (proj2
            (X10_stage1_check_counts Line.world Line.stage1_args_kls 0%nat
               _ _)))) _).
  - vm_compute. reflexivity.
  - vm_compute. lia.
Defined.

Lemma X11_history_entries_witness :
  "disturbed expansions"%string = "kernel length scale"%string
  \/ "disturbed expansions"%string = "curvature"%string
  \/ "disturbed expansions"%string
     = "kernel length scale and curvature"%string
  \/ "disturbed expansions"%string = "disturbed expansions"%string.
Proof.
  refine (proj1 (X11_history_entries Line.world (Line.stage1_args 10)
                   (Line.stage2_args 10 0) 0%nat)
            (mkLoop [1%nat] ["disturbed expansions"%string] [] 2 1%nat 1%nat
               [EvBuildTree; EvFindPeerLists; EvCheckExpansionDisks;
                EvRefine [true]; EvBuildTree; EvFindPeerLists;
                EvCheckExpansionDisks])
            0%nat _ _ _).
  - vm_compute. reflexivity.
  - reflexivity.
Defined.

Lemma X13_tolerance_monotone_witness :
  Condition1.disturbed Line.code Line.tree tt [80%Q]
      default_expansion_disturbance_tolerance 0%nat = true.
Proof.
  refine (proj1 (X13_tolerance_monotone Line.code Line.tree tt [80%Q]
                   default_expansion_disturbance_tolerance (1 # 2)%Q
                   _ _ _ _ _) 0%nat _ _).
  - intros x y Hxy. apply binary64_sub_antitone, Hxy.
  - intros x y r Hxy Hr. apply binary64_mul_mono; assumption.
  - vm_compute. discriminate.
  - intros icenter Hi. assert (icenter = 0%nat) as -> by (cbn in Hi; lia).
    vm_compute. discriminate.
  - intros icenter idx Hi Hin. exact Hin.
  - vm_compute. lia.
  - vm_compute. reflexivity.
Defined.

Lemma X14_area_query_kernels_order_independent_witness :
  Condition1.leaf_loop Line.code Line.tree [Line.radius 0]
      default_expansion_disturbance_tolerance 0%nat
    [0; 1]%nat (mkKernelState [0] 0)
  = Condition1.leaf_loop Line.code Line.tree [Line.radius 0]
      default_expansion_disturbance_tolerance 0%nat
      [1; 0]%nat (mkKernelState [0] 0).
Proof.
  apply (proj1 (proj2 (proj2
           (X14_area_query_kernels_order_independent Line.code Line.tree tt
              [Line.radius 0]
                  default_expansion_disturbance_tolerance [Line.radius 0])))).
  apply perm_swap.
Defined.

Lemma X15_stage1_idempotent_on_converged_witness :
  exists tr',
    Stage1.refine_qbx_stage1 Line.world (Line.stage1_args 10) 1%nat
    = Some (1%nat, mkChained [] 1%nat, tr')
    /\ count_events is_event_refine tr' = 0%nat
    /\ (1 <= Stage1.the_maxiter (Line.stage1_args 10) -> warned tr' = false).
Proof.
  refine (X15_stage1_idempotent_on_converged Line.world (Line.stage1_args 10)
            0%nat 1%nat (mkChained [1%nat] 0%nat) _ _ _).
  - vm_compute. reflexivity.
  - reflexivity.
Defined.

Lemma X16_debug_log_counts_newly_set_witness :
  (check_element_prop_threshold_debug [5; 1]%Q 1%Q [0; 0]).2 = Some 1.
Proof.
  refine (proj1 (proj1 (X16_debug_log_counts_newly_set Line.world 0%nat
                          Line.tree tt
                              default_expansion_disturbance_tolerance
                              [5; 1]%Q 1%Q [0; 0] _))).
  repeat constructor.
Defined.

(** ** The stack depth of the generated kernels *)

(** X18. When [div_ceil] is division rounded up, the [max_levels] the
    area-query kernels are generated for is the tree's number of levels
    rounded up to a multiple of 10: it is never below the number of levels
    and less than 10 above it, so the descent stack is deep enough, and all
    trees whose level counts round up alike share one kernel. *)
Theorem X18_max_levels_rounds_up (div_ceil : Z -> Z -> Z) (nlevels : Z) :
  (forall a b, 0 < b -> b * (div_ceil a b - 1) < a <= b * div_ceil a b) ->
  nlevels <= max_levels div_ceil nlevels < nlevels + 10
  /\ max_levels div_ceil nlevels mod 10 = 0
  /\ (forall nlevels',
        max_levels div_ceil nlevels - 10 < nlevels'
        <= max_levels div_ceil nlevels ->
        max_levels div_ceil nlevels' = max_levels div_ceil nlevels).
Proof.
  intros Hceil. unfold max_levels, MAX_LEVELS_INCREMENT.
  pose proof (Hceil nlevels 10 ltac:(lia)) as Hn.
  split; [lia|]. split.
  - rewrite Z.mul_comm. apply Z_mod_mult.
  - intros nlevels' Hn'.
    pose proof (Hceil nlevels' 10 ltac:(lia)) as Hn''. lia.
Qed.

Lemma X18_max_levels_rounds_up_witness :
  max_levels (fun a b => - (- a / b)) 13 = 20
  /\ 13 <= max_levels (fun a b => - (- a / b)) 13 < 13 + 10.
Proof.
  split; [reflexivity|].
  apply (X18_max_levels_rounds_up (fun a b => - (- a / b)) 13).
  intros a b Hb.
  pose proof (Z.mul_div_le (- a) b Hb).
  pose proof (Z.mul_succ_div_gt (- a) b Hb). lia.
Defined.
